(** * The NVIDIA GPU manager of the ECS agent ([agent/gpu/nvidia_gpu_manager.go])

    A shallow embedding of the Go file and the properties of its
    specification.

    - Part I   Go values: strings, byte slices, errors, [pkg/errors].
    - Part II  The operating system as the file uses it: [os.Stat],
               [os.Open], [ioutil.ReadAll], with a trace of the calls made.
    - Part III The manager's struct and [encoding/json] at that type.
    - Part IV  The manager: setters, getters and [Initialize].
    - Part V   The manager under concurrency: the methods as sequences of
               lock operations and word-sized memory accesses, run by an
               arbitrary scheduler, and by one that lets a waiting writer
               hold back new readers as [sync.RWMutex] does.
    - Part VI  Theorems: the decoder, [Initialize], the setters and getters,
               worked examples, the accessors under any schedule, and
               progress under Go's lock. *)

From Stdlib Require Import ZArith NArith Lia List Strings.Ascii Strings.String Strings.Byte.
From stdpp Require Import base list strings.

Set Warnings "-register-all".

Local Open Scope Z_scope.

(* ================================================================== *)
(** * Part I: Go values *)
(* ================================================================== *)

(** A Go [string] is an immutable sequence of bytes: [string].  A [[]byte]
    is [list byte]; [string(b)] is [string_of_list_byte b]. *)
Definition bytes := list byte.

(** A [[]string] is modelled by the sequence of its elements.  The nil slice
    and the empty non-nil slice both have length 0 and are both [[]]. *)

(** [syscall.Errno] is a [uintptr]; the constants are Linux's. *)
Definition Errno := Z.
Definition ENOENT  : Errno := 2.
Definition EACCES  : Errno := 13.
Definition EISDIR  : Errno := 21.

(** The dynamic types of the [error] values that reach this file:
    - [*os.PathError] from [os.Stat], [os.Open] and reads of an [*os.File];
    - [*json.SyntaxError] and [*json.UnmarshalTypeError] from
      [json.Unmarshal] (offsets and message texts are left out);
    - the wrapper that [errors.Wrapf] of [github.com/pkg/errors] builds
      (its stack trace is left out).
    The Go interface value [error] may be nil: [option error]. *)
Inductive error : Type :=
  | PathError (Op Path : string) (Err : Errno)
  | SyntaxError
  | UnmarshalTypeError (Value Type_ : string)
  | withMessage (cause : error) (msg : string).

(** [errors.Wrapf(err, format)]: nil for a nil [err], otherwise [err]
    annotated with the message.  The file passes no format arguments and its
    formats hold no verbs, so the message is the format. *)
Definition Wrapf (err : option error) (format : string) : option error :=
  match err with
  | None => None
  | Some e => Some (withMessage e format)
  end.

(** [os.IsNotExist]: false for nil; it looks through [*PathError] and asks
    the [Errno] whether it is [ENOENT].  It predates [errors.Is] and does not
    look through other wrappers. *)
Definition IsNotExist (err : option error) : bool :=
  match err with
  | Some (PathError _ _ e) => e =? ENOENT
  | _ => false
  end.

(* ================================================================== *)
(** * Part II: the operating system *)
(* ================================================================== *)

(** What the three calls answer for a path.  The answers are independent
    fields: nothing is assumed about how the kernel relates them. *)
Record FileSystem : Type := {
  stat_err : string -> option error;          (* [os.Stat]: the error *)
  open_err : string -> option error;          (* [os.Open]: the error *)
  read_all : string -> bytes * option error   (* [ioutil.ReadAll] of the opened file *)
}.

(** [*os.File]: the handle remembers the name it was opened with. *)
Record File : Type := { file_name : string }.

Inductive Event : Type :=
  | EvStat (name : string)
  | EvOpen (name : string)
  | EvReadAll (name : string)
  | EvClose (name : string).

(** The world: the file system and the calls made so far, oldest first.
    Nothing in the file writes to the file system. *)
Record World : Type := { fs : FileSystem; trace : list Event }.

Definition log (e : Event) (w : World) : World :=
  {| fs := fs w; trace := trace w ++ [e] |}.

(** Computations that talk to the operating system. *)
Definition M (A : Type) : Type := World -> A * World.

Definition ret {A} (a : A) : M A := fun w => (a, w).
Definition bind {A B} (m : M A) (k : A -> M B) : M B :=
  fun w => let (a, w') := m w in k a w'.

Declare Scope os_scope.
Delimit Scope os_scope with os.
Notation "x <- m ;; k" := (bind m (fun x => k))
  (at level 100, m at next level, right associativity) : os_scope.

Definition eval {A} (m : M A) (w : World) : A := fst (m w).
Definition exec {A} (m : M A) (w : World) : World := snd (m w).

Module os.
(** [os.Stat(name)]; the [FileInfo] is never looked at by this file. *)
Definition Stat (name : string) : M (option error) :=
  fun w => (stat_err (fs w) name, log (EvStat name) w).

(** [os.Open(name)]: a handle and no error, or no handle and an error. *)
Definition Open (name : string) : M (File + error) :=
  fun w =>
    (match open_err (fs w) name with
     | None => inl {| file_name := name |}
     | Some e => inr e
     end, log (EvOpen name) w).

Definition Close (f : File) : M unit :=
  fun w => (tt, log (EvClose (file_name f)) w).
End os.

Module ioutil.
(** [ioutil.ReadAll(f)]: what was read, and the error that stopped the
    read, if any. *)
Definition ReadAll (f : File) : M (bytes * option error) :=
  fun w => (read_all (fs w) (file_name f), log (EvReadAll (file_name f)) w).
End ioutil.

(* ================================================================== *)
(** * Part III: the struct and [encoding/json] at its type *)
(* ================================================================== *)

(** [type NvidiaGPUManager struct]: the three exported fields, with their
    JSON tags.  The fourth field, [lock sync.RWMutex], is unexported (the
    JSON decoder never sees it) and is balanced by every method (taken on
    entry, released by [defer]), so a method run alone from the unlocked
    state is a function of the three fields; the lock itself is modelled in
    Part V. *)
Record NvidiaGPUManager : Type := {
  DriverVersion       : string;        (* `json:"DriverVersion"` *)
  NvidiaDockerVersion : string;        (* `json:"NvidiaDockerVersion"` *)
  GPUIDs              : list string    (* `json:"GPUIDs"` *)
}.

(** [&NvidiaGPUManager{}] and [var nvidiaGPUInfo NvidiaGPUManager]: every
    field at its zero value. *)
Definition zero : NvidiaGPUManager :=
  {| DriverVersion := EmptyString; NvidiaDockerVersion := EmptyString;
     GPUIDs := [] |}.

Definition code (c : ascii) : Z := Z.of_N (N_of_ascii c).
Definition chr (z : Z) : ascii := ascii_of_N (Z.to_N z).
Definition str (l : list Z) : string :=
  fold_right (fun z s => String (chr z) s) EmptyString l.

Definition dquote : ascii := chr 34.

Module utf8.
Definition RuneError : Z := 65533.         (* U+FFFD *)
Definition MaxRune : Z := 1114111.         (* U+10FFFF *)

(** [utf8.EncodeRune]: out-of-range runes and surrogates are written as
    U+FFFD. *)
Definition EncodeRune (r : Z) : string :=
  if (0 <=? r) && (r <=? 127) then str [r]
  else if (0 <=? r) && (r <=? 2047) then
    str [Z.lor 192 (Z.shiftr r 6); Z.lor 128 (Z.land r 63)]
  else
    let r := if (r <? 0) || (MaxRune <? r) || ((55296 <=? r) && (r <=? 57343))
             then RuneError else r in
    if r <=? 65535 then
      str [Z.lor 224 (Z.shiftr r 12); Z.lor 128 (Z.land (Z.shiftr r 6) 63);
           Z.lor 128 (Z.land r 63)]
    else
      str [Z.lor 240 (Z.shiftr r 18); Z.lor 128 (Z.land (Z.shiftr r 12) 63);
           Z.lor 128 (Z.land (Z.shiftr r 6) 63); Z.lor 128 (Z.land r 63)].

(** The table [first] with [acceptRanges]: for a leading byte, the length of
    the sequence and the range the second byte must lie in. *)
Definition first (p0 : Z) : option (nat * Z * Z) :=
  if (194 <=? p0) && (p0 <=? 223) then Some (2%nat, 128, 191)
  else if p0 =? 224 then Some (3%nat, 160, 191)
  else if p0 =? 237 then Some (3%nat, 128, 159)
  else if (225 <=? p0) && (p0 <=? 239) then Some (3%nat, 128, 191)
  else if p0 =? 240 then Some (4%nat, 144, 191)
  else if (241 <=? p0) && (p0 <=? 243) then Some (4%nat, 128, 191)
  else if p0 =? 244 then Some (4%nat, 128, 143)
  else None.

Definition cont (b : Z) : bool := (128 <=? b) && (b <=? 191).

(** [utf8.DecodeRune]: the first rune of [p] and its width in bytes;
    [(RuneError, 1)] for an invalid or truncated encoding. *)
Definition DecodeRune (p : string) : Z * nat :=
  match p with
  | EmptyString => (RuneError, 0%nat)
  | String c0 p1 =>
    let p0 := code c0 in
    if p0 <? 128 then (p0, 1%nat) else
    match first p0 with
    | None => (RuneError, 1%nat)
    | Some (sz, lo, hi) =>
      match p1 with
      | EmptyString => (RuneError, 1%nat)
      | String c1 p2 =>
        let b1 := code c1 in
        if (b1 <? lo) || (hi <? b1) then (RuneError, 1%nat) else
        if (sz <=? 2)%nat then
          (Z.lor (Z.shiftl (Z.land p0 31) 6) (Z.land b1 63), 2%nat)
        else
        match p2 with
        | EmptyString => (RuneError, 1%nat)
        | String c2 p3 =>
          let b2 := code c2 in
          if negb (cont b2) then (RuneError, 1%nat) else
          if (sz <=? 3)%nat then
            (Z.lor (Z.shiftl (Z.land p0 15) 12)
               (Z.lor (Z.shiftl (Z.land b1 63) 6) (Z.land b2 63)), 3%nat)
          else
          match p3 with
          | EmptyString => (RuneError, 1%nat)
          | String c3 _ =>
            let b3 := code c3 in
            if negb (cont b3) then (RuneError, 1%nat) else
            (Z.lor (Z.shiftl (Z.land p0 7) 18)
               (Z.lor (Z.shiftl (Z.land b1 63) 12)
                  (Z.lor (Z.shiftl (Z.land b2 63) 6) (Z.land b3 63))), 4%nat)
          end
        end
      end
    end
  end.
End utf8.

Module utf16.
Definition IsSurrogate (r : Z) : bool := (55296 <=? r) && (r <? 57344).

(** [utf16.DecodeRune]: the code point of a surrogate pair, U+FFFD when the
    two halves are not a pair. *)
Definition DecodeRune (r1 r2 : Z) : Z :=
  if (55296 <=? r1) && (r1 <? 56320) && (56320 <=? r2) && (r2 <? 57344)
  then Z.lor (Z.shiftl (r1 - 55296) 10) (r2 - 56320) + 65536
  else utf8.RuneError.
End utf16.

(** ** The decoder

    [json.Unmarshal(data, &v)] first checks that [data] is one well-formed
    JSON value ([checkValid], driven by the scanner) and only then decodes it
    into [v].  The model keeps the two phases: [parse] follows the scanner's
    grammar and yields the value as a tree, [storeStruct] stores the tree
    into a struct of the type [NvidiaGPUManager], the one type Unmarshal is
    called at in this program.  Type mismatches do not stop the decoder: the
    first one is saved and returned at the end.  The scanner refuses text
    whose arrays and objects are nested deeper than [maxNestingDepth]
    ([pushParseState], the error exceeded max depth, a [*SyntaxError]). *)
Module json.

Inductive Value : Type :=
  | JNull
  | JBool (b : bool)
  | JNumber (lit : string)
  | JString (s : string)
  | JArray (vs : list Value)
  | JObject (ms : list (string * Value)).

(** *** Lexical level (scanner.go) *)

Definition isSpace (c : ascii) : bool :=
  let n := code c in (n =? 32) || (n =? 9) || (n =? 13) || (n =? 10).

Fixpoint skipSpace (s : string) : string :=
  match s with
  | String c r => if isSpace c then skipSpace r else s
  | EmptyString => s
  end.

Definition isDigit (c : ascii) : bool := (48 <=? code c) && (code c <=? 57).

Definition hexval (c : ascii) : option Z :=
  let n := code c in
  if (48 <=? n) && (n <=? 57) then Some (n - 48)
  else if (97 <=? n) && (n <=? 102) then Some (n - 97 + 10)
  else if (65 <=? n) && (n <=? 70) then Some (n - 65 + 10)
  else None.

Fixpoint digits (s : string) : string * string :=
  match s with
  | String c r =>
    if isDigit c then let (d, r') := digits r in (String c d, r')
    else (EmptyString, s)
  | EmptyString => (EmptyString, EmptyString)
  end.

Definition isEmpty (s : string) : bool :=
  match s with EmptyString => true | _ => false end.

(** The exponent part of a number, after the mantissa [lit]. *)
Definition scanExp (lit r : string) : option (string * string) :=
  match r with
  | String c r1 =>
    if (code c =? 101) || (code c =? 69) then          (* e E *)
      let '(sgn, r2) :=
        match r1 with
        | String c' r2 =>
          if (code c' =? 43) || (code c' =? 45)         (* + - *)
          then (String c' EmptyString, r2) else (EmptyString, r1)
        | EmptyString => (EmptyString, r1)
        end in
      let (d, r3) := digits r2 in
      if isEmpty d then None
      else Some (lit +:+ String c EmptyString +:+ sgn +:+ d, r3)
    else Some (lit, r)
  | EmptyString => Some (lit, r)
  end.

Definition scanFrac (lit r : string) : option (string * string) :=
  match r with
  | String c r1 =>
    if code c =? 46 then                                (* . *)
      let (d, r2) := digits r1 in
      if isEmpty d then None
      else scanExp (lit +:+ String c EmptyString +:+ d) r2
    else scanExp lit r
  | EmptyString => Some (lit, r)
  end.

(** A number: an optional minus sign; then a single 0, or a digit from 1 to
    9 and any digits; then optionally a point and one or more digits; then
    optionally e or E, an optional sign, and one or more digits.  The scanner
    never backtracks: a point or an exponent mark must be followed by a
    digit. *)
Definition scanNumber (s : string) : option (string * string) :=
  let '(sgn, s1) :=
    match s with
    | String c r =>
      if code c =? 45 then (String c EmptyString, r) else (EmptyString, s)
    | EmptyString => (EmptyString, s)
    end in
  match s1 with
  | String c r =>
    if code c =? 48 then scanFrac (sgn +:+ String c EmptyString) r
    else if isDigit c then
      let (d, r') := digits r in scanFrac (sgn +:+ String c d) r'
    else None
  | EmptyString => None
  end.

(** The characters that may follow a backslash other than [u]: the double
    quote, the backslash, the slash and the letters b f n r t. *)
Definition isEscape (c : ascii) : bool :=
  let n := code c in
  (n =? 34) || (n =? 92) || (n =? 47) || (n =? 98) || (n =? 102) ||
  (n =? 110) || (n =? 114) || (n =? 116).

(** The inside of a string literal, after its opening quote: the raw text up
    to the closing quote, and what follows the closing quote.  Control
    characters and bad escapes are syntax errors. *)
Fixpoint scanString (s : string) : option (string * string) :=
  match s with
  | EmptyString => None
  | String c r =>
    if code c =? 34 then Some (EmptyString, r)
    else if code c =? 92 then
      match r with
      | EmptyString => None
      | String e r1 =>
        if isEscape e then
          match scanString r1 with
          | Some (raw, rest) => Some (String c (String e raw), rest)
          | None => None
          end
        else if code e =? 117 then                      (* u *)
          match r1 with
          | String h1 (String h2 (String h3 (String h4 r2))) =>
            match hexval h1, hexval h2, hexval h3, hexval h4 with
            | Some _, Some _, Some _, Some _ =>
              match scanString r2 with
              | Some (raw, rest) =>
                Some (String c (String e (String h1 (String h2
                        (String h3 (String h4 raw))))), rest)
              | None => None
              end
            | _, _, _, _ => None
            end
          | _ => None
          end
        else None
      end
    else if code c <? 32 then None
    else
      match scanString r with
      | Some (raw, rest) => Some (String c raw, rest)
      | None => None
      end
  end.

(** *** Unquoting (decode.go, [unquoteBytes]) *)

(** [getu4]: the value of a [\uXXXX] escape at the head of [s], -1 if there
    is none. *)
Definition getu4 (s : string) : Z :=
  match s with
  | String b (String u (String h1 (String h2 (String h3 (String h4 _))))) =>
    if (code b =? 92) && (code u =? 117) then
      match hexval h1, hexval h2, hexval h3, hexval h4 with
      | Some a, Some b, Some c, Some d => ((a * 16 + b) * 16 + c) * 16 + d
      | _, _, _, _ => -1
      end
    else -1
  | _ => -1
  end.

Definition unescape (e : ascii) : option ascii :=
  let n := code e in
  if (n =? 34) || (n =? 92) || (n =? 47) || (n =? 39) then Some e
  else if n =? 98 then Some (chr 8)
  else if n =? 102 then Some (chr 12)
  else if n =? 110 then Some (chr 10)
  else if n =? 114 then Some (chr 13)
  else if n =? 116 then Some (chr 9)
  else None.

(** The text a raw string literal stands for: escapes are replaced, a
    surrogate pair of [\u] escapes becomes one code point, a lone surrogate
    and every byte that is not part of well-formed UTF-8 become U+FFFD.
    [None] is Go's [ok == false]. *)
Fixpoint unquote (s : string) : option string :=
  match s with
  | EmptyString => Some EmptyString
  | String c r =>
    if code c =? 92 then
      match r with
      | EmptyString => None
      | String e r1 =>
        if code e =? 117 then
          match r1 with
          | String _ (String _ (String _ (String _ r2))) =>
            let rr := getu4 s in
            if rr <? 0 then None
            else if utf16.IsSurrogate rr then
              let dec := utf16.DecodeRune rr (getu4 r2) in
              if negb (dec =? utf8.RuneError) then
                match r2 with
                | String _ (String _ (String _ (String _ (String _ (String _ r3))))) =>
                  String.append (utf8.EncodeRune dec) <$> unquote r3
                | _ => None
                end
              else String.append (utf8.EncodeRune utf8.RuneError) <$> unquote r2
            else String.append (utf8.EncodeRune rr) <$> unquote r2
          | _ => None
          end
        else
          match unescape e with
          | Some ch => String ch <$> unquote r1
          | None => None
          end
      end
    else if (code c =? 34) || (code c <? 32) then None
    else if code c <? 128 then String c <$> unquote r
    else
      let (rr, size) := utf8.DecodeRune s in
      String.append (utf8.EncodeRune rr) <$>
        match size with
        | 2%nat => match r with String _ r' => unquote r' | _ => None end
        | 3%nat => match r with String _ (String _ r') => unquote r' | _ => None end
        | 4%nat =>
          match r with String _ (String _ (String _ r')) => unquote r' | _ => None end
        | _ => unquote r
        end
  end.

(** *** Syntax (the scanner's grammar) *)

Inductive result (A : Type) : Type :=
  | Ok (a : A) (rest : string)
  | SyntaxErr
  | OutOfFuel.
Arguments Ok {A} a rest.
Arguments SyntaxErr {A}.
Arguments OutOfFuel {A}.

(** [strip p s]: [s] without its prefix [p]. *)
Fixpoint strip (p s : string) : option string :=
  match p, s with
  | EmptyString, _ => Some s
  | String a p', String b s' => if Ascii.eqb a b then strip p' s' else None
  | String _ _, EmptyString => None
  end.

Definition literal (tail : string) (v : Value) (r : string) : result Value :=
  match strip tail r with
  | Some r' => Ok v r'
  | None => SyntaxErr
  end.

(** [maxNestingDepth]: how many arrays and objects may be open at once. *)
Definition maxNestingDepth : Z := 10000.

(** [parseValue] reads one value after optional white space;
    [parseElements] reads the elements of a non-empty array up to its [']'];
    [parseMembers] reads the members of a non-empty object up to its ['}'].
    [depth] is the number of arrays and objects open around the value, the
    length of the scanner's [parseState]: at ['{'] and at ['['] the scanner
    pushes a state, and it fails when that makes more than
    [maxNestingDepth].  Each call uses one unit of [fuel]; [parse] below
    supplies enough. *)
Fixpoint parseValue (fuel : nat) (depth : Z) (s : string) : result Value :=
  match fuel with
  | O => OutOfFuel
  | S fuel =>
    match skipSpace s with
    | EmptyString => SyntaxErr
    | String c r =>
      let n := code c in
      if n =? 123 then                                   (* { *)
        if negb (depth + 1 <=? maxNestingDepth) then SyntaxErr else
        match skipSpace r with
        | EmptyString => SyntaxErr
        | String c' r' =>
          if code c' =? 125 then Ok (JObject []) r'      (* } *)
          else
            match parseMembers fuel (depth + 1) r with
            | Ok ms rest => Ok (JObject ms) rest
            | SyntaxErr => SyntaxErr
            | OutOfFuel => OutOfFuel
            end
        end
      else if n =? 91 then                               (* [ *)
        if negb (depth + 1 <=? maxNestingDepth) then SyntaxErr else
        match skipSpace r with
        | EmptyString => SyntaxErr
        | String c' r' =>
          if code c' =? 93 then Ok (JArray []) r'        (* ] *)
          else
            match parseElements fuel (depth + 1) r with
            | Ok vs rest => Ok (JArray vs) rest
            | SyntaxErr => SyntaxErr
            | OutOfFuel => OutOfFuel
            end
        end
      else if n =? 34 then                               (* string *)
        match scanString r with
        | Some (raw, rest) =>
          match unquote raw with
          | Some t => Ok (JString t) rest
          | None => SyntaxErr
          end
        | None => SyntaxErr
        end
      else if (n =? 45) || isDigit c then                (* number *)
        match scanNumber (String c r) with
        | Some (lit, rest) => Ok (JNumber lit) rest
        | None => SyntaxErr
        end
      else if n =? 116 then literal "rue" (JBool true) r
      else if n =? 102 then literal "alse" (JBool false) r
      else if n =? 110 then literal "ull" JNull r
      else SyntaxErr
    end
  end
with parseElements (fuel : nat) (depth : Z) (s : string) : result (list Value) :=
  match fuel with
  | O => OutOfFuel
  | S fuel =>
    match parseValue fuel depth s with
    | Ok v r =>
      match skipSpace r with
      | EmptyString => SyntaxErr
      | String c r' =>
        if code c =? 44 then                             (* , *)
          match parseElements fuel depth r' with
          | Ok vs rest => Ok (v :: vs) rest
          | SyntaxErr => SyntaxErr
          | OutOfFuel => OutOfFuel
          end
        else if code c =? 93 then Ok [v] r'              (* ] *)
        else SyntaxErr
      end
    | SyntaxErr => SyntaxErr
    | OutOfFuel => OutOfFuel
    end
  end
with parseMembers (fuel : nat) (depth : Z) (s : string)
  : result (list (string * Value)) :=
  match fuel with
  | O => OutOfFuel
  | S fuel =>
    match skipSpace s with
    | EmptyString => SyntaxErr
    | String q r =>
      if negb (code q =? 34) then SyntaxErr else
      match scanString r with
      | None => SyntaxErr
      | Some (raw, r1) =>
        match unquote raw, skipSpace r1 with
        | Some key, String c r2 =>
          if negb (code c =? 58) then SyntaxErr else     (* : *)
          match parseValue fuel depth r2 with
          | Ok v r3 =>
            match skipSpace r3 with
            | EmptyString => SyntaxErr
            | String c' r4 =>
              if code c' =? 44 then                      (* , *)
                match parseMembers fuel depth r4 with
                | Ok ms rest => Ok ((key, v) :: ms) rest
                | SyntaxErr => SyntaxErr
                | OutOfFuel => OutOfFuel
                end
              else if code c' =? 125 then Ok [(key, v)] r4   (* } *)
              else SyntaxErr
            end
          | SyntaxErr => SyntaxErr
          | OutOfFuel => OutOfFuel
          end
        | _, _ => SyntaxErr
        end
      end
    end
  end.

(** Every call consumes a byte before the next call of the same function, so
    twice the length of the input, and a little, is enough. *)
Definition fuel_for (s : string) : nat := (2 * String.length s + 2)%nat.

(** The whole input must be one value, surrounded by white space only; no
    array or object is open around it. *)
Definition parse (s : string) : result Value :=
  match parseValue (fuel_for s) 0 s with
  | Ok v rest => if isEmpty (skipSpace rest) then Ok v EmptyString else SyntaxErr
  | SyntaxErr => SyntaxErr
  | OutOfFuel => OutOfFuel
  end.

(** How deep the arrays and objects of a value are nested: 0 for a scalar,
    1 for an array or object of scalars. *)
Fixpoint nesting (v : Value) : Z :=
  match v with
  | JArray vs => 1 + fold_right (fun e m => Z.max (nesting e) m) 0 vs
  | JObject ms => 1 + fold_right (fun kv m => Z.max (nesting (snd kv)) m) 0 ms
  | _ => 0
  end.

Definition deepest (vs : list Value) : Z :=
  fold_right (fun e m => Z.max (nesting e) m) 0 vs.

Definition deepestMember (ms : list (string * Value)) : Z :=
  fold_right (fun kv m => Z.max (nesting (snd kv)) m) 0 ms.

(** *** Decoding into the struct (decode.go) *)

(** The fields the decoder sees, in declaration order, under the names of
    their tags. *)
Inductive Field : Type := FDriverVersion | FNvidiaDockerVersion | FGPUIDs.

Definition fields : list Field := [FDriverVersion; FNvidiaDockerVersion; FGPUIDs].

Definition name (f : Field) : string :=
  match f with
  | FDriverVersion => "DriverVersion"
  | FNvidiaDockerVersion => "NvidiaDockerVersion"
  | FGPUIDs => "GPUIDs"
  end.

Fixpoint dropn (n : nat) (s : string) : string :=
  match n, s with
  | S n', String _ s' => dropn n' s'
  | _, _ => s
  end.

(** [equalFoldRight], the folding chosen for a field name that holds a k or
    an s, as all three names do: ASCII letters match in either case, and the
    Kelvin sign (U+212A) and the long s (U+017F) match k and s. *)
Fixpoint equalFoldRight (s t : string) : bool :=
  match s with
  | EmptyString => isEmpty t
  | String sc s' =>
    match t with
    | EmptyString => false
    | String tc t' =>
      let sb := code sc in
      let tb := code tc in
      if tb <? 128 then
        if sb =? tb then equalFoldRight s' t'
        else
          let sbUpper := Z.land sb 223 in
          if (65 <=? sbUpper) && (sbUpper <=? 90) && (sbUpper =? Z.land tb 223)
          then equalFoldRight s' t' else false
      else
        let (tr, size) := utf8.DecodeRune t in
        if ((sb =? 115) || (sb =? 83)) && (tr =? 383) then      (* s S, long s *)
          equalFoldRight s' (dropn size t)
        else if ((sb =? 107) || (sb =? 75)) && (tr =? 8490) then  (* k K, Kelvin *)
          equalFoldRight s' (dropn size t)
        else false
    end
  end.

(** The field a key selects: the first field whose name is the key, or else
    the first field whose name folds to the key. *)
Fixpoint findFieldFrom (fs : list Field) (key : string) (f : option Field)
  : option Field :=
  match fs with
  | [] => f
  | ff :: rest =>
    if String.eqb (name ff) key then Some ff
    else
      match f with
      | None =>
        if equalFoldRight (name ff) key then findFieldFrom rest key (Some ff)
        else findFieldFrom rest key None
      | Some _ => findFieldFrom rest key f
      end
  end.

Definition findField (key : string) : option Field := findFieldFrom fields key None.

(** [d.saveError]: only the first error is kept. *)
Definition saveError (saved : option error) (e : error) : option error :=
  match saved with
  | None => Some e
  | Some _ => saved
  end.

(** A value stored into a [string]: a string sets it, null leaves it as it
    is, anything else is a type error and leaves it as it is. *)
Definition storeString (j : Value) (cur : string) (saved : option error)
  : string * option error :=
  match j with
  | JNull => (cur, saved)
  | JString s => (s, saved)
  | JBool _ => (cur, saveError saved (UnmarshalTypeError "bool" "string"))
  | JNumber _ => (cur, saveError saved (UnmarshalTypeError "number" "string"))
  | JArray _ => (cur, saveError saved (UnmarshalTypeError "array" "string"))
  | JObject _ => (cur, saveError saved (UnmarshalTypeError "object" "string"))
  end.

(** A [[]string] while it is being decoded: its elements, and the elements
    of its backing array beyond its length.  An array is decoded element by
    element into the existing backing array, which is extended by zero
    elements when it is too short. *)
Record slice : Type := { elems : list string; spare : list string }.

Definition nilSlice : slice := {| elems := []; spare := [] |}.

(** The elements [vs] stored over [backing]: the new elements, the part of
    the backing array beyond them, and the saved error. *)
Fixpoint storeElems (vs : list Value) (backing : list string) (saved : option error)
  : list string * list string * option error :=
  match vs with
  | [] => ([], backing, saved)
  | v :: vs' =>
    let '(cur, backing') :=
      match backing with
      | [] => (EmptyString, [])
      | x :: b => (x, b)
      end in
    let '(x, saved1) := storeString v cur saved in
    let '(out, rest, saved2) := storeElems vs' backing' saved1 in
    (x :: out, rest, saved2)
  end.

(** A value stored into a [[]string]: null sets it to nil, the empty array
    to a fresh empty slice, an array to its elements. *)
Definition storeSlice (j : Value) (cur : slice) (saved : option error)
  : slice * option error :=
  match j with
  | JNull => (nilSlice, saved)
  | JArray [] => (nilSlice, saved)
  | JArray vs =>
    let '(out, rest, saved') := storeElems vs (elems cur ++ spare cur) saved in
    ({| elems := out; spare := rest |}, saved')
  | JBool _ => (cur, saveError saved (UnmarshalTypeError "bool" "[]string"))
  | JNumber _ => (cur, saveError saved (UnmarshalTypeError "number" "[]string"))
  | JString _ => (cur, saveError saved (UnmarshalTypeError "string" "[]string"))
  | JObject _ => (cur, saveError saved (UnmarshalTypeError "object" "[]string"))
  end.

(** The struct while it is being decoded. *)
Record target : Type := { tgt : NvidiaGPUManager; gpu_spare : list string }.

(** One member of an object stored into the struct; a key that selects no
    field is skipped. *)
Definition storeMember (st : target * option error) (m : string * Value)
  : target * option error :=
  let '(t, saved) := st in
  let '(key, j) := m in
  match findField key with
  | None => st
  | Some FDriverVersion =>
    let '(s, saved') := storeString j (DriverVersion (tgt t)) saved in
    ({| tgt := {| DriverVersion := s;
                  NvidiaDockerVersion := NvidiaDockerVersion (tgt t);
                  GPUIDs := GPUIDs (tgt t) |};
        gpu_spare := gpu_spare t |}, saved')
  | Some FNvidiaDockerVersion =>
    let '(s, saved') := storeString j (NvidiaDockerVersion (tgt t)) saved in
    ({| tgt := {| DriverVersion := DriverVersion (tgt t);
                  NvidiaDockerVersion := s;
                  GPUIDs := GPUIDs (tgt t) |};
        gpu_spare := gpu_spare t |}, saved')
  | Some FGPUIDs =>
    let '(sl, saved') :=
      storeSlice j {| elems := GPUIDs (tgt t); spare := gpu_spare t |} saved in
    ({| tgt := {| DriverVersion := DriverVersion (tgt t);
                  NvidiaDockerVersion := NvidiaDockerVersion (tgt t);
                  GPUIDs := elems sl |};
        gpu_spare := spare sl |}, saved')
  end.

(** A value stored into the struct: an object member by member, null leaves
    it as it is, anything else is a type error. *)
Definition storeStruct (j : Value) (t : target) : target * option error :=
  match j with
  | JObject ms => fold_left storeMember ms (t, None)
  | JNull => (t, None)
  | JBool _ => (t, Some (UnmarshalTypeError "bool" "gpu.NvidiaGPUManager"))
  | JNumber _ => (t, Some (UnmarshalTypeError "number" "gpu.NvidiaGPUManager"))
  | JString _ => (t, Some (UnmarshalTypeError "string" "gpu.NvidiaGPUManager"))
  | JArray _ => (t, Some (UnmarshalTypeError "array" "gpu.NvidiaGPUManager"))
  end.

(** [json.Unmarshal(data, &v)]: the error, and [v] afterwards.  On a syntax
    error [v] is untouched.  [parse] never runs out of fuel
    ([parse_fuel] below). *)
Definition Unmarshal (data : bytes) (v : NvidiaGPUManager)
  : option error * NvidiaGPUManager :=
  match parse (string_of_list_byte data) with
  | Ok j _ =>
    let '(t, saved) := storeStruct j {| tgt := v; gpu_spare := [] |} in
    (saved, tgt t)
  | SyntaxErr => (Some SyntaxError, v)
  | OutOfFuel => (Some SyntaxError, v)
  end.

(** *** Shapes of objects *)

Definition Field_eqb (f g : Field) : bool :=
  match f, g with
  | FDriverVersion, FDriverVersion => true
  | FNvidiaDockerVersion, FNvidiaDockerVersion => true
  | FGPUIDs, FGPUIDs => true
  | _, _ => false
  end.

(** Member [m] is stored into field [f]. *)
Definition selects (f : Field) (m : string * Value) : bool :=
  match findField (fst m) with
  | Some g => Field_eqb g f
  | None => false
  end.

(** The members of an object that are stored into field [f], in order. *)
Definition membersFor (f : Field) (ms : list (string * Value)) : list (string * Value) :=
  List.filter (selects f) ms.

Definition isStringOrNull (j : Value) : bool :=
  match j with
  | JString _ | JNull => true
  | _ => false
  end.

(** The value of member [m] has a type its field accepts: a string or null
    for the two versions, an array of strings and nulls or null for the GPU
    IDs; a member that selects no field is of no concern. *)
Definition wellTyped (m : string * Value) : bool :=
  match findField (fst m) with
  | None => true
  | Some FGPUIDs =>
    match snd m with
    | JNull => true
    | JArray vs => forallb isStringOrNull vs
    | _ => false
    end
  | Some _ => isStringOrNull (snd m)
  end.

End json.

(* ================================================================== *)
(** * Part IV: the manager *)
(* ================================================================== *)

Definition GPUInfoDirPath : string := "/var/lib/ecs/gpu".
Definition NvidiaGPUInfoFilePath : string := GPUInfoDirPath +:+ "/nvidia-gpu-info.json".

(** [NewNvidiaGPUManager] *)
Definition NewNvidiaGPUManager : NvidiaGPUManager := zero.

(** [SetGPUIDs], [GetGPUIDs] *)
Definition SetGPUIDs (gpuIDs : list string) (n : NvidiaGPUManager) : NvidiaGPUManager :=
  {| DriverVersion := DriverVersion n;
     NvidiaDockerVersion := NvidiaDockerVersion n;
     GPUIDs := gpuIDs |}.

Definition GetGPUIDs (n : NvidiaGPUManager) : list string := GPUIDs n.

(** [SetDriverVersion], [GetDriverVersion] *)
Definition SetDriverVersion (version : string) (n : NvidiaGPUManager) : NvidiaGPUManager :=
  {| DriverVersion := version;
     NvidiaDockerVersion := NvidiaDockerVersion n;
     GPUIDs := GPUIDs n |}.

Definition GetDriverVersion (n : NvidiaGPUManager) : string := DriverVersion n.

(** [SetRuntimeVersion], [GetRuntimeVersion] *)
Definition SetRuntimeVersion (version : string) (n : NvidiaGPUManager) : NvidiaGPUManager :=
  {| DriverVersion := DriverVersion n;
     NvidiaDockerVersion := version;
     GPUIDs := GPUIDs n |}.

Definition GetRuntimeVersion (n : NvidiaGPUManager) : string := NvidiaDockerVersion n.

Local Open Scope os_scope.

(** [CheckForGPUInfoFile] *)
Definition CheckForGPUInfoFile : M bool :=
  err <- os.Stat NvidiaGPUInfoFilePath ;;
  ret (negb (IsNotExist err)).

(** [GetGPUInfo]; the deferred [Close] runs on every return after a
    successful [Open]. *)
Definition GetGPUInfo : M (bytes * option error) :=
  r <- os.Open NvidiaGPUInfoFilePath ;;
  match r with
  | inr err => ret ([], Some err)
  | inl gpuInfo =>
    r' <- ioutil.ReadAll gpuInfo ;;
    _ <- os.Close gpuInfo ;;
    match r' with
    | (_, Some err) => ret ([], Some err)
    | (gpuJSON, None) => ret (gpuJSON, None)
    end
  end.

(** [Initialize], over the two functions it calls through package
    variables. *)
Definition InitializeWith
    (GPUInfoFileExists : M bool) (GetGPUInfoJSON : M (bytes * option error))
    (n : NvidiaGPUManager) : M (option error * NvidiaGPUManager) :=
  found <- GPUInfoFileExists ;;
  if found then
    r <- GetGPUInfoJSON ;;
    let '(gpuJSON, err) := r in
    match err with
    | Some _ => ret (Wrapf err "could not read GPU file content", n)
    | None =>
      let nvidiaGPUInfo := zero in
      let '(err, nvidiaGPUInfo) := json.Unmarshal gpuJSON nvidiaGPUInfo in
      match err with
      | Some _ => ret (Wrapf err "could not unmarshal GPU file content", n)
      | None =>
        let n := SetDriverVersion (GetDriverVersion nvidiaGPUInfo) n in
        let n := SetGPUIDs (GetGPUIDs nvidiaGPUInfo) n in
        let n := SetRuntimeVersion (GetRuntimeVersion nvidiaGPUInfo) n in
        ret (None, n)
      end
    end
  else ret (None, n).

(** [var GPUInfoFileExists = CheckForGPUInfoFile] and
    [var GetGPUInfoJSON = GetGPUInfo]: nothing in the package assigns to
    either variable. *)
Definition GPUInfoFileExists : M bool := CheckForGPUInfoFile.
Definition GetGPUInfoJSON : M (bytes * option error) := GetGPUInfo.

Definition Initialize (n : NvidiaGPUManager) : M (option error * NvidiaGPUManager) :=
  InitializeWith GPUInfoFileExists GetGPUInfoJSON n.

(** ** Situations of the snapshot file

    File systems for the usual situations of one path; every other path is
    missing. *)
Inductive Node : Type :=
  | Missing                       (* no such file *)
  | Regular (content : bytes)     (* a readable regular file *)
  | Unsearchable                  (* a directory on the way denies search *)
  | Unreadable                    (* the file's mode denies reading *)
  | IsDirectory.                  (* the path names a directory *)

Definition fsWith (p : string) (nd : Node) : FileSystem :=
  {| stat_err := fun q =>
       if String.eqb q p then
         match nd with
         | Missing => Some (PathError "stat" q ENOENT)
         | Unsearchable => Some (PathError "stat" q EACCES)
         | _ => None
         end
       else Some (PathError "stat" q ENOENT);
     open_err := fun q =>
       if String.eqb q p then
         match nd with
         | Missing => Some (PathError "open" q ENOENT)
         | Unsearchable | Unreadable => Some (PathError "open" q EACCES)
         | _ => None
         end
       else Some (PathError "open" q ENOENT);
     read_all := fun q =>
       if String.eqb q p then
         match nd with
         | Regular content => (content, None)
         | _ => ([], Some (PathError "read" q EISDIR))
         end
       else ([], Some (PathError "read" q ENOENT)) |}.

(** A world where the snapshot path is in the given situation and nothing
    has been called yet. *)
Definition world (nd : Node) : World :=
  {| fs := fsWith NvidiaGPUInfoFilePath nd; trace := [] |}.

(** The snapshot file answers the same in both file systems. *)
Definition sameFile (a b : FileSystem) : Prop :=
  stat_err a NvidiaGPUInfoFilePath = stat_err b NvidiaGPUInfoFilePath /\
  open_err a NvidiaGPUInfoFilePath = open_err b NvidiaGPUInfoFilePath /\
  read_all a NvidiaGPUInfoFilePath = read_all b NvidiaGPUInfoFilePath.

(** JSON text is written with [q] around quoted strings. *)
Definition q (s : string) : string :=
  String dquote EmptyString +:+ s +:+ String dquote EmptyString.



Fixpoint joinQuoted (ids : list string) : string :=
  match ids with
  | [] => EmptyString
  | [x] => q x
  | x :: rest => q x +:+ "," +:+ joinQuoted rest
  end.

(** The compact text of a snapshot, the fields in the order of the
    struct. *)
Definition snapshotText (d r : string) (ids : list string) : string :=
  "{" +:+ q "DriverVersion" +:+ ":" +:+ q d +:+ "," +:+
  q "NvidiaDockerVersion" +:+ ":" +:+ q r +:+ "," +:+
  q "GPUIDs" +:+ ":[" +:+ joinQuoted ids +:+ "]}".

(** The snapshot of the specification's example. *)
Definition exampleJSON : bytes :=
  list_byte_of_string (snapshotText "450.80.02" "2.5.0" ["GPU-0"; "GPU-1"]).

(** Text that is not JSON. *)
Definition garbage : bytes := list_byte_of_string "DriverVersion=450.80.02".

(** The system calls one [Initialize] makes. *)
Definition callsOf (f : FileSystem) : list Event :=
  if IsNotExist (stat_err f NvidiaGPUInfoFilePath)
  then [EvStat NvidiaGPUInfoFilePath]
  else
    match open_err f NvidiaGPUInfoFilePath with
    | Some _ => [EvStat NvidiaGPUInfoFilePath; EvOpen NvidiaGPUInfoFilePath]
    | None => [EvStat NvidiaGPUInfoFilePath; EvOpen NvidiaGPUInfoFilePath;
               EvReadAll NvidiaGPUInfoFilePath; EvClose NvidiaGPUInfoFilePath]
    end.

(** A snapshot whose GPU IDs are a number, a file that holds only [null],
    and a snapshot with a key in lower case. *)
Definition mistyped : bytes := list_byte_of_string ("{" +:+ q "GPUIDs" +:+ ":5}").
Definition justNull : bytes := list_byte_of_string "null".
Definition lowerCase : bytes :=
  list_byte_of_string ("{ " +:+ q "driverversion" +:+ " : " +:+ q "450.80.02" +:+ " }").



(** A snapshot that holds the driver version only. *)
Definition driverOnly : bytes :=
  list_byte_of_string ("{" +:+ q "DriverVersion" +:+ ":" +:+ q "470.57.02" +:+ "}").

(** [k] arrays, one inside the other, and an object whose one member, which
    the manager does not know, holds them: with the object that is [k + 1]
    levels. *)
Fixpoint arrays (k : nat) : string :=
  match k with
  | O => EmptyString
  | S k' => "[" +:+ arrays k' +:+ "]"
  end.

Definition nestedJSON (k : nat) : bytes :=
  list_byte_of_string ("{" +:+ q "x" +:+ ":" +:+ arrays k +:+ "}").

Definition deepestJSON : bytes := nestedJSON (Z.to_nat (json.maxNestingDepth - 1)).
Definition tooDeepJSON : bytes := nestedJSON (Z.to_nat json.maxNestingDepth).

(** A manager that already holds values. *)
Definition busy : NvidiaGPUManager :=
  {| DriverVersion := "396.26"; NvidiaDockerVersion := "1.0.1";
     GPUIDs := ["GPU-9"] |}.

Local Close Scope os_scope.

(* ================================================================== *)
(** * Part V: the manager under concurrency *)
(* ================================================================== *)

(** Goroutines call the six accessors on one shared manager.  A field is not
    one memory cell: a string is a header of two words (data pointer,
    length) and a slice a header of three (data pointer, length, capacity),
    and an assignment or a read of a field is one access per word.  Each
    method is the sequence of its lock operations and word accesses, in
    program order ([defer] puts the unlock after the body and after the
    evaluation of the returned value); a scheduler interleaves the
    goroutines one instruction at a time. *)
Module Concurrent.

Inductive Field : Type := FDriverVersion | FNvidiaDockerVersion | FGPUIDs.

#[global] Instance Field_eq_dec : EqDecision Field.
Proof. solve_decision. Defined.

Definition width (f : Field) : nat :=
  match f with
  | FGPUIDs => 3%nat
  | _ => 2%nat
  end.

Record StringHeader : Type := { Data : Z; Len : Z }.
Record SliceHeader : Type := { Array : Z; SLen : Z; Cap : Z }.

Definition stringWords (h : StringHeader) : list Z := [Data h; Len h].
Definition sliceWords (h : SliceHeader) : list Z := [Array h; SLen h; Cap h].

Inductive Call : Type :=
  | CSetGPUIDs (gpuIDs : SliceHeader)
  | CGetGPUIDs
  | CSetDriverVersion (version : StringHeader)
  | CGetDriverVersion
  | CSetRuntimeVersion (version : StringHeader)
  | CGetRuntimeVersion.

Inductive Instr : Type :=
  | Lock                                  (* n.lock.Lock() *)
  | Unlock                                (* n.lock.Unlock() *)
  | RLock                                 (* n.lock.RLock() *)
  | RUnlock                               (* n.lock.RUnlock() *)
  | Store (f : Field) (i : nat) (w : Z)   (* word i of n.f = w *)
  | Load (f : Field) (i : nat).           (* read word i of n.f *)

Fixpoint stores (f : Field) (i : nat) (ws : list Z) : list Instr :=
  match ws with
  | [] => []
  | w :: ws' => Store f i w :: stores f (S i) ws'
  end.

Fixpoint loads (f : Field) (i : nat) (k : nat) : list Instr :=
  match k with
  | O => []
  | S k' => Load f i :: loads f (S i) k'
  end.

Definition setter (f : Field) (ws : list Z) : list Instr :=
  Lock :: stores f 0 ws ++ [Unlock].

Definition getter (f : Field) : list Instr :=
  RLock :: loads f 0 (width f) ++ [RUnlock].

(** The field a call writes, with the words it writes; the field a call
    reads. *)
Definition writes (c : Call) : option (Field * list Z) :=
  match c with
  | CSetGPUIDs h => Some (FGPUIDs, sliceWords h)
  | CSetDriverVersion h => Some (FDriverVersion, stringWords h)
  | CSetRuntimeVersion h => Some (FNvidiaDockerVersion, stringWords h)
  | _ => None
  end.

Definition reads (c : Call) : option Field :=
  match c with
  | CGetGPUIDs => Some FGPUIDs
  | CGetDriverVersion => Some FDriverVersion
  | CGetRuntimeVersion => Some FNvidiaDockerVersion
  | _ => None
  end.

(** The method bodies. *)
Definition body (c : Call) : list Instr :=
  match c with
  | CSetGPUIDs h => setter FGPUIDs (sliceWords h)
  | CGetGPUIDs => getter FGPUIDs
  | CSetDriverVersion h => setter FDriverVersion (stringWords h)
  | CGetDriverVersion => getter FDriverVersion
  | CSetRuntimeVersion h => setter FNvidiaDockerVersion (stringWords h)
  | CGetRuntimeVersion => getter FNvidiaDockerVersion
  end.

(** [sync.RWMutex]: whether a writer holds it, and how many readers do.
    [Lock] waits until nobody holds it, [RLock] until no writer does.  (Go
    also makes new readers wait for a waiting writer; that only removes
    schedules: [gstep] below has the lock as Go schedules it.) *)
Record RWMutex : Type := { writer : bool; readers : nat }.

(** A goroutine: the calls it still has to make (the first one is running
    when [pc > 0]), the index of its next instruction in the body of the
    running call, the words loaded so far by the running call, what its
    getters have returned, and the calls that have returned. *)
Record Thread : Type := {
  calls : list Call;
  pc : nat;
  regs : list Z;
  rets : list (Field * list Z);
  returned : list Call
}.

Record State : Type := {
  mu : RWMutex;
  mem : Field -> list Z;
  threads : list Thread
}.

Definition setMem (m : Field -> list Z) (f : Field) (i : nat) (w : Z)
  : Field -> list Z :=
  fun g => if decide (g = f) then <[i := w]> (m g) else m g.

Definition advance (th : Thread) : Thread :=
  {| calls := calls th; pc := S (pc th); regs := regs th; rets := rets th;
     returned := returned th |}.

(** The running call returns: a getter hands out the words it loaded. *)
Definition finish (c : Call) (th : Thread) : Thread :=
  {| calls := tail (calls th); pc := 0%nat; regs := [];
     rets := match reads c with
             | Some f => rets th ++ [(f, regs th)]
             | None => rets th
             end;
     returned := returned th ++ [c] |}.

(** One instruction of goroutine [t]; a goroutine that waits for the lock,
    has finished or does not exist leaves the state as it is. *)
Definition step (t : nat) (s : State) : State :=
  match threads s !! t with
  | None => s
  | Some th =>
    match calls th with
    | [] => s
    | c :: _ =>
      match body c !! pc th with
      | None =>
        {| mu := mu s; mem := mem s; threads := <[t := finish c th]> (threads s) |}
      | Some Lock =>
        if writer (mu s) || (0 <? readers (mu s))%nat then s
        else {| mu := {| writer := true; readers := readers (mu s) |};
                mem := mem s; threads := <[t := advance th]> (threads s) |}
      | Some Unlock =>
        {| mu := {| writer := false; readers := readers (mu s) |};
           mem := mem s; threads := <[t := advance th]> (threads s) |}
      | Some RLock =>
        if writer (mu s) then s
        else {| mu := {| writer := false; readers := S (readers (mu s)) |};
                mem := mem s; threads := <[t := advance th]> (threads s) |}
      | Some RUnlock =>
        {| mu := {| writer := writer (mu s); readers := pred (readers (mu s)) |};
           mem := mem s; threads := <[t := advance th]> (threads s) |}
      | Some (Store f i w) =>
        {| mu := mu s; mem := setMem (mem s) f i w;
           threads := <[t := advance th]> (threads s) |}
      | Some (Load f i) =>
        {| mu := mu s; mem := mem s;
           threads :=
             <[t := {| calls := calls th; pc := S (pc th);
                       regs := regs th ++ [default 0 (mem s f !! i)];
                       rets := rets th; returned := returned th |}]> (threads s) |}
      end
    end
  end.

(** A schedule names the goroutine that runs next, step after step. *)
Definition run (sched : list nat) (s : State) : State :=
  fold_left (fun s t => step t s) sched s.

(** The zero value of a field: nil pointer, length 0 (and capacity 0). *)
Definition zeroWords (f : Field) : list Z := replicate (width f) 0.

Definition spawn (cs : list Call) : Thread :=
  {| calls := cs; pc := 0%nat; regs := []; rets := []; returned := [] |}.

(** A fresh manager ([&NvidiaGPUManager{}]) shared by goroutines that run
    the given programs. *)
Definition init (progs : list (list Call)) : State :=
  {| mu := {| writer := false; readers := 0%nat |};
     mem := zeroWords;
     threads := map spawn progs |}.

(** Goroutine [th] is between its [Lock] and its [Unlock]. *)
Definition holdsW (th : Thread) : bool :=
  match calls th with
  | c :: _ =>
    match writes c with
    | Some _ => (1 <=? pc th)%nat && (pc th <? length (body c))%nat
    | None => false
    end
  | [] => false
  end.

(** Goroutine [th] is between its [RLock] and its [RUnlock]. *)
Definition holdsR (th : Thread) : bool :=
  match calls th with
  | c :: _ =>
    match reads c with
    | Some _ => (1 <=? pc th)%nat && (pc th <? length (body c))%nat
    | None => false
    end
  | [] => false
  end.

(** The memory access goroutine [th] makes next: the field, the word, and
    whether it is a write. *)
Definition nextAccess (th : Thread) : option (Field * nat * bool) :=
  match calls th with
  | c :: _ =>
    match body c !! pc th with
    | Some (Store f i _) => Some (f, i, true)
    | Some (Load f i) => Some (f, i, false)
    | _ => None
    end
  | [] => None
  end.

(** Two accesses conflict when they touch the same field and one writes. *)
Definition conflict (a b : Field * nat * bool) : bool :=
  let '(f, _, wa) := a in
  let '(g, _, wb) := b in
  bool_decide (f = g) && (wa || wb).

(** Goroutine [th] has made call [c] and the call has released the lock:
    it has returned, or it is at its return. *)
Definition released (th : Thread) (c : Call) : Prop :=
  In c (returned th) \/
  (exists rest, calls th = c :: rest /\ pc th = length (body c)).

(** [ws] is the words some setter call of field [f] has written in full, by
    the time of state [s]. *)
Definition written (s : State) (f : Field) (ws : list Z) : Prop :=
  exists t th c,
    threads s !! t = Some th /\ released th c /\ writes c = Some (f, ws).

(** The whole values of field [f] at state [s]: its zero value, and what
    has been written in full. *)
Definition whole (s : State) (f : Field) (v : list Z) : Prop :=
  v = zeroWords f \/ written s f v.

(** How many goroutines satisfy [p]. *)
Fixpoint count (p : Thread -> bool) (l : list Thread) : nat :=
  match l with
  | [] => 0%nat
  | th :: l' => ((if p th then 1 else 0) + count p l')%nat
  end.

(** ** The invariant

    [P f v] says that [v] is a whole value of field [f].  What holds of a
    goroutine at every moment, given the memory [m]:
    - its getters have returned whole values;
    - its [pc] is inside the running body, and no word is loaded before the
      first instruction;
    - while it holds the lock as the writer of [f], field [f] holds the
      first [pc - 1] words of the new value over some whole value, and the
      other fields hold whole values;
    - while it holds the lock as a reader of [f], it has loaded the first
      [pc - 1] words of [f]; once it has released the lock, what it has
      loaded is a whole value. *)
Record ThreadInv (P : Field -> list Z -> Prop) (m : Field -> list Z) (th : Thread)
  : Prop := {
  ti_rets : forall f v, In (f, v) (rets th) -> P f v;
  ti_pc : match calls th with
          | [] => pc th = 0%nat
          | c :: _ => (pc th <= length (body c))%nat
          end;
  ti_regs : pc th = 0%nat -> regs th = [];
  ti_writer : forall c rest f ws,
      calls th = c :: rest -> writes c = Some (f, ws) -> holdsW th = true ->
      (exists old, P f old /\
         m f = take (pc th - 1) ws ++ drop (pc th - 1) old) /\
      (forall g, g <> f -> P g (m g));
  ti_reader : forall c rest f,
      calls th = c :: rest -> reads c = Some f ->
      (holdsR th = true -> regs th = take (pc th - 1) (m f)) /\
      (pc th = length (body c) -> P f (regs th))
}.

(** What holds of the whole state: the mutex counts its holders, a writer
    excludes readers, every field holds a whole value while no writer holds
    the lock, and every goroutine satisfies its invariant. *)
Record Inv (P : Field -> list Z -> Prop) (s : State) : Prop := {
  inv_writer : count holdsW (threads s) = if writer (mu s) then 1%nat else 0%nat;
  inv_readers : count holdsR (threads s) = readers (mu s);
  inv_excl : writer (mu s) = true -> readers (mu s) = 0%nat;
  inv_mem : writer (mu s) = false -> forall f, P f (mem s f);
  inv_threads : forall t th, threads s !! t = Some th -> ThreadInv P (mem s) th
}.

(** ** A run

    One goroutine sets the GPU IDs while another reads them.  In the
    schedule the reader first tries its [RLock] while the writer holds the
    lock, and waits. *)
Definition demoHeader : SliceHeader := {| Array := 4096; SLen := 2; Cap := 2 |}.

Definition demoProgs : list (list Call) := [[CSetGPUIDs demoHeader]; [CGetGPUIDs]].

Definition demoSched : list nat :=
  [0; 0; 1; 0; 0; 0; 0; 1; 1; 1; 1; 1; 1]%nat.

(** ** Sequential reading of the accessors

    What a sequence of calls does when nothing runs beside it: a setter
    replaces the words of its field, a getter reports the words of its
    field.  The result is the memory at the end and what the getters
    reported, in order. *)
Fixpoint seqExec (cs : list Call) (m : Field -> list Z)
  : (Field -> list Z) * list (Field * list Z) :=
  match cs with
  | [] => (m, [])
  | c :: rest =>
    match writes c, reads c with
    | Some (f, ws), _ => seqExec rest (fun g => if decide (g = f) then ws else m g)
    | None, Some f => let (m', out) := seqExec rest m in (m', (f, m f) :: out)
    | None, None => seqExec rest m
    end
  end.

(** The steps a goroutine needs for its calls: the instructions of each
    body and the return. *)
Definition stepsOf (cs : list Call) : nat :=
  fold_right (fun c k => (S (length (body c)) + k)%nat) 0%nat cs.

(** The three setter calls by which [Initialize] publishes a decoded
    snapshot, in the order of the source. *)
Definition publish (d : StringHeader) (g : SliceHeader) (r : StringHeader)
  : list Call :=
  [CSetDriverVersion d; CSetGPUIDs g; CSetRuntimeVersion r].

(** A goroutine that reads the three fields. *)
Definition observe : list Call :=
  [CGetDriverVersion; CGetGPUIDs; CGetRuntimeVersion].

(** A goroutine whose first call is a getter. *)
Definition startsReading (cs : list Call) : Prop :=
  exists c rest f, cs = c :: rest /\ reads c = Some f.

(** One goroutine between two calls on an unlocked manager: the memory, the
    calls it still has to make, what its getters have returned and the calls
    that have returned. *)
Definition soloState (m : Field -> list Z) (cs : list Call)
    (out : list (Field * list Z)) (done : list Call) : State :=
  {| mu := {| writer := false; readers := 0%nat |};
     mem := m;
     threads := [{| calls := cs; pc := 0%nat; regs := []; rets := out;
                    returned := done |}] |}.

(** Every field holds as many words as its header has. *)
Definition sized (m : Field -> list Z) : Prop := forall g, length (m g) = width g.

(** Runs for the lock: the writer stands before its [Unlock]; two
    goroutines that start with a getter; a reader, a writer and a second
    reader, scheduled so that the first reader is inside its getter when the
    writer calls [Lock] and the second reader calls [RLock] after that. *)
Definition beforeUnlock : list nat := [0; 0; 0; 0]%nat.

Definition twoReaders : list (list Call) := [[CGetGPUIDs]; [CGetDriverVersion]].

Definition lateReader : list (list Call) :=
  [[CGetGPUIDs]; [CSetGPUIDs demoHeader]; [CGetGPUIDs]].

Definition lateSched : list nat := [0; 1; 2]%nat.

(** The steps goroutine [th] still has to take, and those of all
    goroutines. *)
Definition remaining (th : Thread) : nat := (stepsOf (calls th) - pc th)%nat.

Fixpoint work (l : list Thread) : nat :=
  match l with
  | [] => 0%nat
  | th :: l' => (remaining th + work l')%nat
  end.

(** The calls goroutine [th] was started with: those that have returned and
    those it still has to make. *)
Definition programOf (th : Thread) : list Call := returned th ++ calls th.

(** The program counter is inside the running call, or 0 when there is
    none. *)
Definition inBody (th : Thread) : Prop :=
  match calls th with
  | [] => pc th = 0%nat
  | c :: _ => (pc th <= length (body c))%nat
  end.

(** ** The lock as [sync.RWMutex] schedules it

    [step] lets a reader in whenever no writer holds the lock.  Go's
    [RWMutex] is stricter: [Lock] first takes the writers' mutex [rw.w] and
    announces the writer (it makes [readerCount] negative), then waits until
    the readers that hold the lock have left; an [RLock] that comes after
    the announcement waits on [readerSem]; [Unlock] hands the read lock to
    the readers that wait and then gives up [rw.w].  So a reader does not
    overtake a writer that waits, and the readers a writer held up go before
    the next writer.

    A state is a state of the plain model with the goroutine that has
    [rw.w] (a writer that waits for the readers to leave, or holds the
    lock) and the readers that wait for it. *)
Record GoState : Type := { base : State; wlock : option nat; rwait : list nat }.

(** The instruction goroutine [t] runs next; none when it stands at a
    return, has no call left or does not exist. *)
Definition nextInstr (s : State) (t : nat) : option Instr :=
  match threads s !! t with
  | Some th =>
    match calls th with
    | c :: _ => body c !! pc th
    | [] => None
    end
  | None => None
  end.

(** One step of goroutine [t].  At [Lock]: with [rw.w] free it takes
    [rw.w] and announces itself; once announced it goes on when no reader
    holds the lock; behind another writer it waits.  At [RLock]: with no
    writer about it takes the read lock, otherwise it waits, once.  At
    [Unlock]: it releases the lock, the readers that wait take the read
    lock, and [rw.w] is free.  Every other step is the step of the plain
    model. *)
Definition gstep (t : nat) (g : GoState) : GoState :=
  match nextInstr (base g) t with
  | Some Lock =>
    match wlock g with
    | None => {| base := base g; wlock := Some t; rwait := rwait g |}
    | Some o =>
      if (o =? t)%nat && (readers (mu (base g)) =? 0)%nat
      then {| base := step t (base g); wlock := wlock g; rwait := rwait g |}
      else g
    end
  | Some RLock =>
    match wlock g with
    | None => {| base := step t (base g); wlock := None; rwait := rwait g |}
    | Some _ =>
      if existsb (Nat.eqb t) (rwait g) then g
      else {| base := base g; wlock := wlock g; rwait := rwait g ++ [t] |}
    end
  | Some Unlock =>
    {| base := run (rwait g) (step t (base g)); wlock := None; rwait := [] |}
  | _ => {| base := step t (base g); wlock := wlock g; rwait := rwait g |}
  end.

Definition grun (sched : list nat) (g : GoState) : GoState :=
  fold_left (fun g t => gstep t g) sched g.

Definition ginit (progs : list (list Call)) : GoState :=
  {| base := init progs; wlock := None; rwait := [] |}.

(** What holds of every state reached under Go's lock: the invariant of the
    plain model; with [rw.w] free no writer holds the lock and no reader
    waits; the goroutine that has [rw.w] holds the lock as the writer or
    stands at its [Lock] while no writer holds it; the readers that wait
    stand at their [RLock], each once. *)
Record GInv (g : GoState) : Prop := {
  gi_base : Inv (whole (base g)) (base g);
  gi_free : wlock g = None -> writer (mu (base g)) = false /\ rwait g = [];
  gi_owner : forall o, wlock g = Some o ->
    exists th, threads (base g) !! o = Some th /\
      (holdsW th = true \/
       (nextInstr (base g) o = Some Lock /\ writer (mu (base g)) = false));
  gi_wait : forall q, q ∈ rwait g -> nextInstr (base g) q = Some RLock;
  gi_nodup : NoDup (rwait g)
}.

(** A measure that every step lowers: twice the work left, less one for
    each goroutine that has given notice that it waits. *)
Definition pend (g : GoState) : nat :=
  match wlock g with
  | Some _ => if writer (mu (base g)) then 0%nat else 1%nat
  | None => 0%nat
  end.

Definition potential (g : GoState) : Z :=
  2 * Z.of_nat (work (threads (base g))) - Z.of_nat (length (rwait g))
  - Z.of_nat (pend g).

End Concurrent.

(* ================================================================== *)
(** * Part VI: theorems *)
(* ================================================================== *)

(** ** Running the file-system functions *)

Section Runs.
Variable w : World.
Let path := NvidiaGPUInfoFilePath.

Lemma CheckForGPUInfoFile_run :
  CheckForGPUInfoFile w =
  (negb (IsNotExist (stat_err (fs w) path)), log (EvStat path) w).
Proof. reflexivity. Qed.

Lemma GetGPUInfo_run :
  GetGPUInfo w =
  match open_err (fs w) path with
  | Some e => (([], Some e), log (EvOpen path) w)
  | None =>
    (match read_all (fs w) path with
     | (_, Some e) => ([], Some e)
     | (gpuJSON, None) => (gpuJSON, None)
     end,
     log (EvClose path) (log (EvReadAll path) (log (EvOpen path) w)))
  end.
Proof.
  subst path.
  unfold GetGPUInfo, bind, os.Open, ioutil.ReadAll, os.Close, ret.
  destruct (open_err (fs w) NvidiaGPUInfoFilePath) as [e|]; [reflexivity|].
  cbn [fs log file_name].
  destruct (read_all (fs w) NvidiaGPUInfoFilePath) as [d [e|]]; reflexivity.
Qed.

(** The world only ever changes by a longer trace. *)
Lemma fs_log e : fs (log e w) = fs w.
Proof. reflexivity. Qed.

End Runs.

(** [InitializeWith] in terms of what its two functions and the decoder
    return. *)
Lemma InitializeWith_run (check : M bool) (get : M (bytes * option error))
      (n : NvidiaGPUManager) (w : World) :
  InitializeWith check get n w =
  if eval check w then
    match eval get (exec check w) with
    | (_, Some e) =>
      ((Some (withMessage e "could not read GPU file content"), n),
       exec get (exec check w))
    | (gpuJSON, None) =>
      match json.Unmarshal gpuJSON zero with
      | (Some e, _) =>
        ((Some (withMessage e "could not unmarshal GPU file content"), n),
         exec get (exec check w))
      | (None, info) =>
        ((None,
          SetRuntimeVersion (GetRuntimeVersion info)
            (SetGPUIDs (GetGPUIDs info)
               (SetDriverVersion (GetDriverVersion info) n))),
         exec get (exec check w))
      end
    end
  else ((None, n), exec check w).
Proof.
  unfold InitializeWith, bind, eval, exec, ret.
  destruct (check w) as [found w1]; cbn [fst snd].
  destruct found; [|reflexivity].
  destruct (get w1) as [[gpuJSON [e|]] w2]; cbn [fst snd]; [reflexivity|].
  destruct (json.Unmarshal gpuJSON zero) as [[e|] info]; reflexivity.
Qed.

(** ** Facts about the decoder *)

Section Decoder.
Import json.

Lemma storeString_typed j cur saved :
  isStringOrNull j = true -> snd (storeString j cur saved) = saved.
Proof. destruct j; simpl; congruence. Qed.

Lemma storeElems_typed vs : forall backing saved,
  forallb isStringOrNull vs = true ->
  snd (storeElems vs backing saved) = saved.
Proof.
  induction vs as [|v vs IH]; intros backing saved H; [reflexivity|].
  simpl in H. apply andb_true_iff in H as [Hv Hvs].
  simpl. destruct backing as [|x b].
  - pose proof (storeString_typed v EmptyString saved Hv) as E.
    destruct (storeString v EmptyString saved) as [x' s1]; simpl in E; subst s1.
    specialize (IH [] saved Hvs).
    destruct (storeElems vs [] saved) as [[out rest] s2]; simpl in *. exact IH.
  - pose proof (storeString_typed v x saved Hv) as E.
    destruct (storeString v x saved) as [x' s1]; simpl in E; subst s1.
    specialize (IH b saved Hvs).
    destruct (storeElems vs b saved) as [[out rest] s2]; simpl in *. exact IH.
Qed.





(** A member leaves alone every field it does not select. *)
Lemma storeMember_frame st m :
  (selects FDriverVersion m = false ->
   DriverVersion (tgt (fst (storeMember st m))) = DriverVersion (tgt (fst st))) /\
  (selects FNvidiaDockerVersion m = false ->
   NvidiaDockerVersion (tgt (fst (storeMember st m))) =
   NvidiaDockerVersion (tgt (fst st))) /\
  (selects FGPUIDs m = false ->
   GPUIDs (tgt (fst (storeMember st m))) = GPUIDs (tgt (fst st)) /\
   gpu_spare (fst (storeMember st m)) = gpu_spare (fst st)).
Proof.
  destruct st as [t saved], m as [k j]. unfold selects, storeMember. cbn [fst snd].
  destruct (findField k) as [[]|]; cbn [Field_eqb fst tgt]; repeat split;
    try discriminate;
    try (destruct (storeString _ _ _)); try (destruct (storeSlice _ _ _));
    reflexivity.
Qed.

Lemma storeMember_typed st m :
  wellTyped m = true -> snd st = None -> snd (storeMember st m) = None.
Proof.
  destruct st as [t saved], m as [k j]. unfold wellTyped, storeMember. cbn [fst snd].
  intros H ->.
  destruct (findField k) as [[]|]; [| |  |reflexivity].
  - pose proof (storeString_typed j (DriverVersion (tgt t)) None H) as E.
    destruct (storeString _ _ _); exact E.
  - pose proof (storeString_typed j (NvidiaDockerVersion (tgt t)) None H) as E.
    destruct (storeString _ _ _); exact E.
  - destruct j as [| | | |vs|]; try discriminate; [reflexivity|].
    unfold storeSlice. destruct vs as [|v vs]; [reflexivity|].
    cbn [elems spare].
    pose proof (storeElems_typed (v :: vs) (GPUIDs (tgt t) ++ gpu_spare t) None H) as E.
    destruct (storeElems _ _ _) as [[out rest] s]. exact E.
Qed.

Lemma fold_typed ms : forall st,
  forallb wellTyped ms = true -> snd st = None ->
  snd (fold_left storeMember ms st) = None.
Proof.
  induction ms as [|m ms IH]; intros st H Hs; [exact Hs|].
  simpl in H. apply andb_true_iff in H as [Hm Hms].
  simpl. apply IH; [exact Hms|]. apply storeMember_typed; assumption.
Qed.

(** A field no member selects keeps its value. *)
Lemma fold_frame ms : forall st,
  (membersFor FDriverVersion ms = [] ->
   DriverVersion (tgt (fst (fold_left storeMember ms st))) =
   DriverVersion (tgt (fst st))) /\
  (membersFor FNvidiaDockerVersion ms = [] ->
   NvidiaDockerVersion (tgt (fst (fold_left storeMember ms st))) =
   NvidiaDockerVersion (tgt (fst st))) /\
  (membersFor FGPUIDs ms = [] ->
   GPUIDs (tgt (fst (fold_left storeMember ms st))) = GPUIDs (tgt (fst st)) /\
   gpu_spare (fst (fold_left storeMember ms st)) = gpu_spare (fst st)).
Proof.
  unfold membersFor.
  induction ms as [|m ms IH]; intros st; [repeat split; reflexivity|].
  destruct (IH (storeMember st m)) as (IH1 & IH2 & IH3).
  destruct (storeMember_frame st m) as (F1 & F2 & F3).
  cbn [fold_left List.filter].
  split; [|split]; intros H.
  - destruct (selects FDriverVersion m); [discriminate|].
    rewrite IH1, F1; auto.
  - destruct (selects FNvidiaDockerVersion m); [discriminate|].
    rewrite IH2, F2; auto.
  - destruct (selects FGPUIDs m); [discriminate|].
    destruct (IH3 H) as [-> ->]. apply F3. reflexivity.
Qed.









(** [Unmarshal] of the text of an object. *)
Lemma Unmarshal_object content ms rest v :
  parse (string_of_list_byte content) = Ok (JObject ms) rest ->
  Unmarshal content v =
  (snd (fold_left storeMember ms ({| tgt := v; gpu_spare := [] |}, None)),
   tgt (fst (fold_left storeMember ms ({| tgt := v; gpu_spare := [] |}, None)))).
Proof.
  intros H. unfold Unmarshal. rewrite H. unfold storeStruct.
  destruct (fold_left _ _ _) as [t saved]. reflexivity.
Qed.

End Decoder.

(** ** The parser has fuel enough *)

Section Fuel.
Import json.
Local Abbreviation len := String.length.

Lemma skipSpace_length s : (len (skipSpace s) <= len s)%nat.
Proof.
  induction s as [|c s IH]; simpl; [lia|].
  destruct (isSpace c); simpl; lia.
Qed.

Lemma skipSpace_cons s c r : skipSpace s = String c r -> (len r < len s)%nat.
Proof.
  intros H. pose proof (skipSpace_length s) as L. rewrite H in L. simpl in L. lia.
Qed.

Lemma strip_length p : forall s r, strip p s = Some r -> (len r <= len s)%nat.
Proof.
  induction p as [|a p IH]; intros s r H; simpl in H.
  - injection H as ->. lia.
  - destruct s as [|b s]; [discriminate|].
    destruct (Ascii.eqb a b); [|discriminate].
    apply IH in H. simpl. lia.
Qed.

Lemma digits_length s : forall d r, digits s = (d, r) -> (len r <= len s)%nat.
Proof.
  induction s as [|c s IH]; intros d r H; simpl in H.
  - injection H as _ <-. simpl. lia.
  - destruct (isDigit c).
    + destruct (digits s) as [d' r'] eqn:E. injection H as _ <-.
      specialize (IH d' r' eq_refl). simpl. lia.
    + injection H as _ <-. simpl. lia.
Qed.

Lemma scanExp_length lit r l r' : scanExp lit r = Some (l, r') -> (len r' <= len r)%nat.
Proof.
  unfold scanExp. destruct r as [|c r1]; [intros [= _ <-]; simpl; lia|].
  destruct ((code c =? 101) || (code c =? 69)); [|intros [= _ <-]; lia].
  destruct r1 as [|c' r2].
  - destruct (digits EmptyString) as [d r3] eqn:E. destruct (isEmpty d); [discriminate|].
    intros [= _ <-]. apply digits_length in E. simpl in *. lia.
  - destruct ((code c' =? 43) || (code c' =? 45)).
    + destruct (digits r2) as [d r3] eqn:E. destruct (isEmpty d); [discriminate|].
      intros [= _ <-]. apply digits_length in E. simpl in *. lia.
    + destruct (digits (String c' r2)) as [d r3] eqn:E.
      destruct (isEmpty d); [discriminate|].
      intros [= _ <-]. apply digits_length in E. simpl in *. lia.
Qed.

Lemma scanFrac_length lit r l r' : scanFrac lit r = Some (l, r') -> (len r' <= len r)%nat.
Proof.
  unfold scanFrac. destruct r as [|c r1]; [intros [= _ <-]; simpl; lia|].
  destruct (code c =? 46).
  - destruct (digits r1) as [d r2] eqn:E. destruct (isEmpty d); [discriminate|].
    intros H. apply scanExp_length in H. apply digits_length in E. simpl. lia.
  - apply scanExp_length.
Qed.

Lemma scanNumber_length s l r : scanNumber s = Some (l, r) -> (len r < len s)%nat.
Proof.
  unfold scanNumber.
  assert (G : forall sgn s1, 
             match s1 with
             | String c r0 =>
               if code c =? 48 then scanFrac (sgn +:+ String c EmptyString) r0
               else if isDigit c then
                 let (d, r') := digits r0 in scanFrac (sgn +:+ String c d) r'
               else None
             | EmptyString => None
             end = Some (l, r) -> (len r < len s1)%nat).
  { intros sgn [|c r0]; [discriminate|].
    destruct (code c =? 48).
    - intros H. apply scanFrac_length in H. simpl. lia.
    - destruct (isDigit c); [|discriminate].
      destruct (digits r0) as [d r'] eqn:E. intros H.
      apply scanFrac_length in H. apply digits_length in E. simpl. lia. }
  destruct s as [|c r0]; [discriminate|].
  destruct (code c =? 45).
  - intros H. apply G in H. simpl. lia.
  - intros H. apply (G EmptyString (String c r0)). exact H.
Qed.

Lemma scanString_length_le n : forall s raw r,
  (len s <= n)%nat -> scanString s = Some (raw, r) -> (len r < len s)%nat.
Proof.
  induction n as [|n IH]; intros s raw r Hn H.
  { destruct s; [discriminate|simpl in Hn; lia]. }
  destruct s as [|c s1]; [discriminate|]. simpl in H, Hn.
  destruct (code c =? 34); [injection H as _ <-; simpl; lia|].
  destruct (code c =? 92).
  - destruct s1 as [|e s2]; [discriminate|].
    destruct (isEscape e).
    + destruct (scanString s2) as [[raw' r']|] eqn:E; [|discriminate].
      injection H as _ <-. apply IH in E; simpl in *; lia.
    + destruct (code e =? 117); [|discriminate].
      destruct s2 as [|h1 [|h2 [|h3 [|h4 s3]]]]; try discriminate.
      destruct (hexval h1), (hexval h2), (hexval h3), (hexval h4); try discriminate.
      destruct (scanString s3) as [[raw' r']|] eqn:E; [|discriminate].
      injection H as _ <-. apply IH in E; simpl in *; lia.
  - destruct (code c <? 32); [discriminate|].
    destruct (scanString s1) as [[raw' r']|] eqn:E; [|discriminate].
    injection H as _ <-. apply IH in E; simpl in *; lia.
Qed.

Lemma scanString_length s raw r :
  scanString s = Some (raw, r) -> (len r < len s)%nat.
Proof. apply (scanString_length_le (len s)). lia. Qed.

(** Enough fuel: no call runs out, and every value read is at least one
    byte long. *)
Lemma parse_enough fuel :
  (forall d s, (2 * len s + 1 <= fuel)%nat ->
     parseValue fuel d s <> OutOfFuel /\
     forall v r, parseValue fuel d s = Ok v r -> (len r < len s)%nat) /\
  (forall d s, (2 * len s + 2 <= fuel)%nat ->
     parseElements fuel d s <> OutOfFuel /\
     forall vs r, parseElements fuel d s = Ok vs r -> (len r < len s)%nat) /\
  (forall d s, (2 * len s + 2 <= fuel)%nat ->
     parseMembers fuel d s <> OutOfFuel /\
     forall ms r, parseMembers fuel d s = Ok ms r -> (len r < len s)%nat).
Proof.
  induction fuel as [|fuel (IHv & IHe & IHm)].
  { repeat split; intros; lia. }
  split; [|split].
  - (* parseValue *)
    intros d s Hf. cbn [parseValue].
    destruct (skipSpace s) as [|c r] eqn:Hs; [split; [discriminate|discriminate]|].
    pose proof (skipSpace_cons s c r Hs) as Lr.
    destruct (code c =? 123).
    { destruct (negb (d + 1 <=? maxNestingDepth)); [split; discriminate|].
      destruct (skipSpace r) as [|c' r'] eqn:Hs'; [split; discriminate|].
      pose proof (skipSpace_cons r c' r' Hs') as Lr'.
      destruct (code c' =? 125).
      - split; [discriminate|]. intros v r0 [= _ <-]. lia.
      - destruct (IHm (d + 1) r ltac:(lia)) as [Hne Hlen].
        destruct (parseMembers fuel (d + 1) r) as [ms rest| |] eqn:E.
        + split; [discriminate|]. intros v r0 [= _ <-].
          specialize (Hlen ms rest eq_refl). lia.
        + split; discriminate.
        + congruence. }
    destruct (code c =? 91).
    { destruct (negb (d + 1 <=? maxNestingDepth)); [split; discriminate|].
      destruct (skipSpace r) as [|c' r'] eqn:Hs'; [split; discriminate|].
      pose proof (skipSpace_cons r c' r' Hs') as Lr'.
      destruct (code c' =? 93).
      - split; [discriminate|]. intros v r0 [= _ <-]. lia.
      - destruct (IHe (d + 1) r ltac:(lia)) as [Hne Hlen].
        destruct (parseElements fuel (d + 1) r) as [vs rest| |] eqn:E.
        + split; [discriminate|]. intros v r0 [= _ <-].
          specialize (Hlen vs rest eq_refl). lia.
        + split; discriminate.
        + congruence. }
    destruct (code c =? 34).
    { destruct (scanString r) as [[raw rest]|] eqn:E; [|split; discriminate].
      apply scanString_length in E.
      destruct (unquote raw); split; try discriminate.
      intros v r0 [= _ <-]. lia. }
    destruct ((code c =? 45) || isDigit c).
    { destruct (scanNumber (String c r)) as [[lit rest]|] eqn:E; [|split; discriminate].
      apply scanNumber_length in E. simpl in E.
      split; [discriminate|]. intros v r0 [= _ <-]. lia. }
    assert (L : forall tail v0,
               literal tail v0 r <> OutOfFuel /\
               forall v r0, literal tail v0 r = Ok v r0 -> (len r0 < len s)%nat).
    { intros tail v0. unfold literal.
      destruct (strip tail r) as [r'|] eqn:E; [|split; discriminate].
      apply strip_length in E. split; [discriminate|].
      intros v r0 [= _ <-]. lia. }
    destruct (code c =? 116); [apply L|].
    destruct (code c =? 102); [apply L|].
    destruct (code c =? 110); [apply L|].
    split; discriminate.
  - (* parseElements *)
    intros d s Hf. cbn [parseElements].
    destruct (IHv d s ltac:(lia)) as [Hne Hlen].
    destruct (parseValue fuel d s) as [v r| |] eqn:E; [|split; discriminate|congruence].
    specialize (Hlen v r eq_refl).
    destruct (skipSpace r) as [|c r'] eqn:Hs; [split; discriminate|].
    pose proof (skipSpace_cons r c r' Hs) as Lr.
    destruct (code c =? 44).
    + destruct (IHe d r' ltac:(lia)) as [Hne' Hlen'].
      destruct (parseElements fuel d r') as [vs rest| |] eqn:E'.
      * split; [discriminate|]. intros vs0 r0 [= _ <-].
        specialize (Hlen' vs rest eq_refl). lia.
      * split; discriminate.
      * congruence.
    + destruct (code c =? 93); [|split; discriminate].
      split; [discriminate|]. intros vs0 r0 [= _ <-]. lia.
  - (* parseMembers *)
    intros d s Hf. cbn [parseMembers].
    destruct (skipSpace s) as [|q r] eqn:Hs; [split; discriminate|].
    pose proof (skipSpace_cons s q r Hs) as Lr.
    destruct (negb (code q =? 34)); [split; discriminate|].
    destruct (scanString r) as [[raw r1]|] eqn:E; [|split; discriminate].
    apply scanString_length in E.
    destruct (unquote raw) as [key|]; [|split; discriminate].
    destruct (skipSpace r1) as [|c r2] eqn:Hs1; [split; discriminate|].
    pose proof (skipSpace_cons r1 c r2 Hs1) as Lr2.
    destruct (negb (code c =? 58)); [split; discriminate|].
    destruct (IHv d r2 ltac:(lia)) as [Hne Hlen].
    destruct (parseValue fuel d r2) as [v r3| |] eqn:Ev; [|split; discriminate|congruence].
    specialize (Hlen v r3 eq_refl).
    destruct (skipSpace r3) as [|c' r4] eqn:Hs3; [split; discriminate|].
    pose proof (skipSpace_cons r3 c' r4 Hs3) as Lr4.
    destruct (code c' =? 44).
    + destruct (IHm d r4 ltac:(lia)) as [Hne' Hlen'].
      destruct (parseMembers fuel d r4) as [ms rest| |] eqn:E'.
      * split; [discriminate|]. intros ms0 r0 [= _ <-].
        specialize (Hlen' ms rest eq_refl). lia.
      * split; discriminate.
      * congruence.
    + destruct (code c' =? 125); [|split; discriminate].
      split; [discriminate|]. intros ms0 r0 [= _ <-]. lia.
Qed.

(** [parse] never runs out of fuel. *)
Lemma parse_fuel s : parse s <> OutOfFuel.
Proof.
  unfold parse, fuel_for.
  destruct (parse_enough (2 * len s + 2)) as (Hv & _).
  destruct (Hv 0 s ltac:(lia)) as [Hne _].
  destruct (parseValue (2 * len s + 2) 0 s) as [v rest| |]; [|discriminate|congruence].
  destruct (isEmpty (skipSpace rest)); discriminate.
Qed.

(** What [parse] accepts is nested no deeper than the scanner allows. *)
Lemma parse_nesting_from fuel :
  (forall d s v r, d <= maxNestingDepth -> parseValue fuel d s = Ok v r ->
     d + nesting v <= maxNestingDepth) /\
  (forall d s vs r, d <= maxNestingDepth -> parseElements fuel d s = Ok vs r ->
     d + deepest vs <= maxNestingDepth) /\
  (forall d s ms r, d <= maxNestingDepth -> parseMembers fuel d s = Ok ms r ->
     d + deepestMember ms <= maxNestingDepth).
Proof.
  induction fuel as [|fuel (IHv & IHe & IHm)].
  { repeat split; intros; discriminate. }
  split; [|split].
  - intros d s v r Hd. cbn [parseValue].
    destruct (skipSpace s) as [|c r0]; [discriminate|].
    destruct (code c =? 123).
    { destruct (d + 1 <=? maxNestingDepth) eqn:Hl; [|discriminate]. cbn [negb].
      apply Z.leb_le in Hl.
      destruct (skipSpace r0) as [|c' r']; [discriminate|].
      destruct (code c' =? 125).
      - intros [= <- _]. cbn. lia.
      - destruct (parseMembers fuel (d + 1) r0) as [ms rest| |] eqn:E; try discriminate.
        intros [= <- _]. specialize (IHm _ _ _ _ Hl E).
        change (nesting (JObject ms)) with (1 + deepestMember ms). lia. }
    destruct (code c =? 91).
    { destruct (d + 1 <=? maxNestingDepth) eqn:Hl; [|discriminate]. cbn [negb].
      apply Z.leb_le in Hl.
      destruct (skipSpace r0) as [|c' r']; [discriminate|].
      destruct (code c' =? 93).
      - intros [= <- _]. cbn. lia.
      - destruct (parseElements fuel (d + 1) r0) as [vs rest| |] eqn:E; try discriminate.
        intros [= <- _]. specialize (IHe _ _ _ _ Hl E).
        change (nesting (JArray vs)) with (1 + deepest vs). lia. }
    destruct (code c =? 34).
    { destruct (scanString r0) as [[raw rest]|]; [|discriminate].
      destruct (unquote raw); [|discriminate]. intros [= <- _]. cbn. lia. }
    destruct ((code c =? 45) || isDigit c).
    { destruct (scanNumber (String c r0)) as [[lit rest]|]; [|discriminate].
      intros [= <- _]. cbn. lia. }
    assert (L : forall tail v0, nesting v0 = 0 -> literal tail v0 r0 = Ok v r ->
                d + nesting v <= maxNestingDepth).
    { intros tail v0 H0. unfold literal. destruct (strip tail r0); [|discriminate].
      intros [= <- _]. lia. }
    destruct (code c =? 116); [apply L; reflexivity|].
    destruct (code c =? 102); [apply L; reflexivity|].
    destruct (code c =? 110); [apply L; reflexivity|].
    discriminate.
  - intros d s vs r Hd. cbn [parseElements].
    destruct (parseValue fuel d s) as [v r0| |] eqn:E; try discriminate.
    specialize (IHv _ _ _ _ Hd E).
    destruct (skipSpace r0) as [|c r']; [discriminate|].
    destruct (code c =? 44).
    + destruct (parseElements fuel d r') as [vs' rest| |] eqn:E'; try discriminate.
      intros [= <- _]. specialize (IHe _ _ _ _ Hd E').
      change (deepest (v :: vs')) with (Z.max (nesting v) (deepest vs')). lia.
    + destruct (code c =? 93); [|discriminate].
      intros [= <- _]. change (deepest [v]) with (Z.max (nesting v) 0). lia.
  - intros d s ms r Hd. cbn [parseMembers].
    destruct (skipSpace s) as [|q r0]; [discriminate|].
    destruct (negb (code q =? 34)); [discriminate|].
    destruct (scanString r0) as [[raw r1]|]; [|discriminate].
    destruct (unquote raw) as [key|]; [|discriminate].
    destruct (skipSpace r1) as [|c r2]; [discriminate|].
    destruct (negb (code c =? 58)); [discriminate|].
    destruct (parseValue fuel d r2) as [v r3| |] eqn:E; try discriminate.
    specialize (IHv _ _ _ _ Hd E).
    destruct (skipSpace r3) as [|c' r4]; [discriminate|].
    destruct (code c' =? 44).
    + destruct (parseMembers fuel d r4) as [ms' rest| |] eqn:E'; try discriminate.
      intros [= <- _]. specialize (IHm _ _ _ _ Hd E').
      change (deepestMember ((key, v) :: ms')) with (Z.max (nesting v) (deepestMember ms')).
      lia.
    + destruct (code c' =? 125); [|discriminate].
      intros [= <- _].
      change (deepestMember [(key, v)]) with (Z.max (nesting v) 0). lia.
Qed.

Lemma parse_nesting s v r : parse s = Ok v r -> nesting v <= maxNestingDepth.
Proof.
  unfold parse. destruct (parseValue (fuel_for s) 0 s) as [v0 r0| |] eqn:E; try discriminate.
  destruct (isEmpty (skipSpace r0)); [|discriminate]. intros [= <- _].
  destruct (parse_nesting_from (fuel_for s)) as (H & _).
  specialize (H 0 s v0 r0 ltac:(unfold maxNestingDepth; lia) E). lia.
Qed.

(** [Unmarshal] reports a syntax error exactly for text that is not one
    JSON value, and otherwise stores the value. *)
Lemma Unmarshal_cases data v :
  (parse (string_of_list_byte data) = SyntaxErr /\
   Unmarshal data v = (Some SyntaxError, v)) \/
  (exists j rest,
     parse (string_of_list_byte data) = Ok j rest /\
     Unmarshal data v =
     (snd (storeStruct j {| tgt := v; gpu_spare := [] |}),
      tgt (fst (storeStruct j {| tgt := v; gpu_spare := [] |})))).
Proof.
  unfold Unmarshal. pose proof (parse_fuel (string_of_list_byte data)) as Hf.
  destruct (parse (string_of_list_byte data)) as [j rest| |]; [|left; auto|congruence].
  right. exists j, rest. split; [reflexivity|].
  destruct (storeStruct j _) as [t saved]. reflexivity.
Qed.
End Fuel.

(** ** The text of a snapshot is read back *)

Section Snapshot.
Import json.
Local Abbreviation len := String.length.

















End Snapshot.

(** ** [Initialize] in terms of the file system's answers *)

Lemma set_all (info n : NvidiaGPUManager) :
  SetRuntimeVersion (GetRuntimeVersion info)
    (SetGPUIDs (GetGPUIDs info) (SetDriverVersion (GetDriverVersion info) n)) = info.
Proof. destruct info; reflexivity. Qed.

Lemma Initialize_eval (n : NvidiaGPUManager) (w : World) :
  eval (Initialize n) w =
  if IsNotExist (stat_err (fs w) NvidiaGPUInfoFilePath) then (None, n)
  else
    match open_err (fs w) NvidiaGPUInfoFilePath with
    | Some e => (Some (withMessage e "could not read GPU file content"), n)
    | None =>
      match read_all (fs w) NvidiaGPUInfoFilePath with
      | (_, Some e) => (Some (withMessage e "could not read GPU file content"), n)
      | (gpuJSON, None) =>
        match json.Unmarshal gpuJSON zero with
        | (Some e, _) => (Some (withMessage e "could not unmarshal GPU file content"), n)
        | (None, info) => (None, info)
        end
      end
    end.
Proof.
  unfold eval at 1, Initialize. rewrite InitializeWith_run.
  unfold GPUInfoFileExists, GetGPUInfoJSON, eval, exec.
  rewrite CheckForGPUInfoFile_run. cbn [fst snd].
  destruct (IsNotExist (stat_err (fs w) NvidiaGPUInfoFilePath)); [reflexivity|].
  cbn [negb]. rewrite GetGPUInfo_run. rewrite fs_log.
  destruct (open_err (fs w) NvidiaGPUInfoFilePath) as [e|]; [reflexivity|].
  cbn [fst snd].
  destruct (read_all (fs w) NvidiaGPUInfoFilePath) as [gpuJSON [e|]]; [reflexivity|].
  destruct (json.Unmarshal gpuJSON zero) as [[e|] info]; cbn [fst]; [reflexivity|].
  rewrite set_all. reflexivity.
Qed.

Lemma Initialize_exec (n : NvidiaGPUManager) (w : World) :
  exec (Initialize n) w = {| fs := fs w; trace := trace w ++ callsOf (fs w) |}.
Proof.
  unfold exec at 1, Initialize. rewrite InitializeWith_run.
  unfold GPUInfoFileExists, GetGPUInfoJSON, eval, exec, callsOf.
  rewrite CheckForGPUInfoFile_run. cbn [fst snd].
  destruct (IsNotExist (stat_err (fs w) NvidiaGPUInfoFilePath)); [reflexivity|].
  cbn [negb]. rewrite GetGPUInfo_run. rewrite fs_log.
  destruct (open_err (fs w) NvidiaGPUInfoFilePath) as [e|].
  - cbn [fst snd]. unfold log; cbn [fs trace]. rewrite <- app_assoc. reflexivity.
  - cbn [fst snd].
    assert (E : log (EvClose NvidiaGPUInfoFilePath)
                  (log (EvReadAll NvidiaGPUInfoFilePath)
                     (log (EvOpen NvidiaGPUInfoFilePath)
                        (log (EvStat NvidiaGPUInfoFilePath) w))) =
                {| fs := fs w;
                   trace := trace w ++
                     [EvStat NvidiaGPUInfoFilePath; EvOpen NvidiaGPUInfoFilePath;
                      EvReadAll NvidiaGPUInfoFilePath; EvClose NvidiaGPUInfoFilePath] |}).
    { unfold log; cbn [fs trace]. rewrite <- !app_assoc. reflexivity. }
    rewrite E.
    destruct (read_all (fs w) NvidiaGPUInfoFilePath) as [gpuJSON [e|]]; [reflexivity|].
    destruct (json.Unmarshal gpuJSON zero) as [[e|] info]; reflexivity.
Qed.

(** [Initialize] on a file that is there and is read: the result is the
    decoder's. *)
Lemma Initialize_decoded (w : World) (n : NvidiaGPUManager) (content : bytes) :
  stat_err (fs w) NvidiaGPUInfoFilePath = None ->
  open_err (fs w) NvidiaGPUInfoFilePath = None ->
  read_all (fs w) NvidiaGPUInfoFilePath = (content, None) ->
  eval (Initialize n) w =
  match json.Unmarshal content zero with
  | (Some e, _) => (Some (withMessage e "could not unmarshal GPU file content"), n)
  | (None, info) => (None, info)
  end.
Proof.
  intros Hs Ho Hr. rewrite Initialize_eval, Hs, Ho, Hr. reflexivity.
Qed.

(** ** The claims about [Initialize], the setters and the getters *)




(** C2.  When the snapshot file does not exist, [Initialize] on a fresh
    manager returns no error, and afterwards the two versions are the empty
    string and the GPU IDs the empty sequence. *)
Theorem Initialize_no_file (w : World) :
  IsNotExist (stat_err (fs w) NvidiaGPUInfoFilePath) = true ->
  exists n',
    eval (Initialize NewNvidiaGPUManager) w = (None, n') /\
    GetDriverVersion n' = EmptyString /\
    GetRuntimeVersion n' = EmptyString /\
    GetGPUIDs n' = [].
Proof.
  intros H. exists NewNvidiaGPUManager. rewrite Initialize_eval, H.
  repeat split.
Qed.

Lemma Initialize_no_file_witness :
  IsNotExist (stat_err (fs (world Missing)) NvidiaGPUInfoFilePath) = true /\
  exists n',
    eval (Initialize NewNvidiaGPUManager) (world Missing) = (None, n') /\
    GetDriverVersion n' = EmptyString /\
    GetRuntimeVersion n' = EmptyString /\
    GetGPUIDs n' = [].
Proof.
  split; [reflexivity|]. apply (Initialize_no_file (world Missing)). reflexivity.
Defined.

(** C3.  When the snapshot file is there and is read but the decoder rejects
    its content (a syntax error or a type mismatch), [Initialize] returns the
    decoder's error, wrapped, and the manager is exactly as before the
    call. *)
Theorem Initialize_bad_content
    (w : World) (n : NvidiaGPUManager) (content : bytes)
    (e : error) (v : NvidiaGPUManager) :
  stat_err (fs w) NvidiaGPUInfoFilePath = None ->
  open_err (fs w) NvidiaGPUInfoFilePath = None ->
  read_all (fs w) NvidiaGPUInfoFilePath = (content, None) ->
  json.Unmarshal content zero = (Some e, v) ->
  eval (Initialize n) w =
  (Some (withMessage e "could not unmarshal GPU file content"), n).
Proof.
  intros Hs Ho Hr HU. rewrite (Initialize_decoded w n content Hs Ho Hr), HU.
  reflexivity.
Qed.

Lemma Initialize_bad_content_witness :
  json.Unmarshal garbage zero = (Some SyntaxError, zero) /\
  eval (Initialize busy) (world (Regular garbage)) =
  (Some (withMessage SyntaxError "could not unmarshal GPU file content"), busy).
Proof.
  split; [vm_compute; reflexivity|].
  apply (Initialize_bad_content (world (Regular garbage)) busy garbage SyntaxError zero);
    (vm_compute; reflexivity).
Defined.

(** C4.  [Initialize] returns an error exactly when the existence check
    passes and then either the read fails, and the error is the read's
    wrapped with the words could not read GPU file content, or the read
    succeeds and the decoder fails, and the error is the decoder's wrapped
    with the words could not unmarshal GPU file content.  In particular a
    file that does not exist is no error. *)
Theorem Initialize_error_iff (w : World) (n : NvidiaGPUManager) :
  (forall err : error,
     fst (eval (Initialize n) w) = Some err <->
     eval GPUInfoFileExists w = true /\
     ((exists e,
          snd (eval GetGPUInfoJSON (exec GPUInfoFileExists w)) = Some e /\
          err = withMessage e "could not read GPU file content") \/
      (exists e,
          snd (eval GetGPUInfoJSON (exec GPUInfoFileExists w)) = None /\
          fst (json.Unmarshal
                 (fst (eval GetGPUInfoJSON (exec GPUInfoFileExists w))) zero) = Some e /\
          err = withMessage e "could not unmarshal GPU file content"))) /\
  (IsNotExist (stat_err (fs w) NvidiaGPUInfoFilePath) = true ->
   eval (Initialize n) w = (None, n)).
Proof.
  split.
  - intros err. unfold eval at 1, Initialize. rewrite InitializeWith_run.
    destruct (eval GPUInfoFileExists w).
    + destruct (eval GetGPUInfoJSON (exec GPUInfoFileExists w)) as [gpuJSON [e|]];
        cbn [fst snd].
      * split.
        -- intros [= <-]. split; [reflexivity|]. left. eauto.
        -- intros [_ [(e' & [= <-] & ->)|(e' & [=] & _)]]. reflexivity.
      * destruct (json.Unmarshal gpuJSON zero) as [[e|] info]; cbn [fst snd].
        -- split.
           ++ intros [= <-]. split; [reflexivity|]. right. eauto.
           ++ intros [_ [(e' & [=] & _)|(e' & _ & [= <-] & ->)]]. reflexivity.
        -- split; [discriminate|].
           intros [_ [(e' & [=] & _)|(e' & _ & [=] & _)]].
    + cbn [fst]. split; [discriminate|]. intros [[=] _].
  - intros H. rewrite Initialize_eval, H. reflexivity.
Qed.

(** C5.  Set, then get: for every manager and every sequence of strings,
    [GetGPUIDs] after [SetGPUIDs ids] returns [ids] itself, the same elements
    in the same order; likewise for the driver version and the runtime
    version. *)
Theorem set_then_get (n : NvidiaGPUManager) :
  (forall ids : list string, GetGPUIDs (SetGPUIDs ids n) = ids) /\
  (forall v : string, GetDriverVersion (SetDriverVersion v n) = v) /\
  (forall v : string, GetRuntimeVersion (SetRuntimeVersion v n) = v).
Proof. repeat split. Qed.

(** C6.  Each setter changes its own field only, and no operation ties the
    fields together: every combination of a driver version, a runtime version
    and a list of GPU IDs is reached by the three setters, from any
    manager. *)
Theorem setters_frame (n : NvidiaGPUManager) :
  (forall v, GetGPUIDs (SetDriverVersion v n) = GetGPUIDs n /\
             GetRuntimeVersion (SetDriverVersion v n) = GetRuntimeVersion n) /\
  (forall v, GetDriverVersion (SetRuntimeVersion v n) = GetDriverVersion n /\
             GetGPUIDs (SetRuntimeVersion v n) = GetGPUIDs n) /\
  (forall ids, GetDriverVersion (SetGPUIDs ids n) = GetDriverVersion n /\
               GetRuntimeVersion (SetGPUIDs ids n) = GetRuntimeVersion n) /\
  (forall d r ids,
     SetGPUIDs ids (SetRuntimeVersion r (SetDriverVersion d n)) =
     {| DriverVersion := d; NvidiaDockerVersion := r; GPUIDs := ids |}).
Proof. repeat split. Qed.

(** C7.  [Initialize] has no guard against a second call.  When the snapshot
    file answers the same at the second call as at the first (whatever else
    was called in between), the second call makes the system calls of the
    first over again (the [Stat] always, the [Open] when the existence check
    passes, the [ReadAll] when the file opens), returns the same result and
    leaves the manager as the first call left it. *)
Theorem Initialize_twice (w w' : World) (n : NvidiaGPUManager) :
  sameFile (fs w') (fs w) ->
  let first := eval (Initialize n) w in
  let second := eval (Initialize (snd first)) w' in
  fst second = fst first /\
  snd second = snd first /\
  trace (exec (Initialize n) w) = trace w ++ callsOf (fs w) /\
  trace (exec (Initialize (snd first)) w') = trace w' ++ callsOf (fs w) /\
  head (callsOf (fs w)) = Some (EvStat NvidiaGPUInfoFilePath) /\
  (eval GPUInfoFileExists w = true ->
   In (EvOpen NvidiaGPUInfoFilePath) (callsOf (fs w))) /\
  (eval GPUInfoFileExists w = true ->
   open_err (fs w) NvidiaGPUInfoFilePath = None ->
   In (EvReadAll NvidiaGPUInfoFilePath) (callsOf (fs w))).
Proof.
  intros (Hs & Ho & Hr). cbv zeta.
  rewrite !Initialize_exec. cbn [trace].
  assert (Hcalls : callsOf (fs w') = callsOf (fs w)).
  { unfold callsOf. rewrite Hs, Ho. reflexivity. }
  rewrite Hcalls.
  assert (Hres : fst (eval (Initialize (snd (eval (Initialize n) w))) w') =
                 fst (eval (Initialize n) w) /\
                 snd (eval (Initialize (snd (eval (Initialize n) w))) w') =
                 snd (eval (Initialize n) w)).
  { rewrite !Initialize_eval, Hs, Ho, Hr.
    destruct (IsNotExist (stat_err (fs w) NvidiaGPUInfoFilePath)); [split; reflexivity|].
    destruct (open_err (fs w) NvidiaGPUInfoFilePath) as [e|]; [split; reflexivity|].
    destruct (read_all (fs w) NvidiaGPUInfoFilePath) as [gpuJSON [e|]];
      [split; reflexivity|].
    destruct (json.Unmarshal gpuJSON zero) as [[e|] info]; split; reflexivity. }
  destruct Hres as [H1 H2].
  assert (Hex : eval GPUInfoFileExists w =
                negb (IsNotExist (stat_err (fs w) NvidiaGPUInfoFilePath)))
    by reflexivity.
  rewrite Hex. unfold callsOf. clear Hs Ho Hr Hcalls Hex.
  repeat split; try assumption.
  - destruct (IsNotExist (stat_err (fs w) NvidiaGPUInfoFilePath)); [reflexivity|].
    destruct (open_err (fs w) NvidiaGPUInfoFilePath); reflexivity.
  - intros H. apply negb_true_iff in H. rewrite H.
    destruct (open_err (fs w) NvidiaGPUInfoFilePath); simpl; auto.
  - intros H Hopen. apply negb_true_iff in H. rewrite H, Hopen. simpl. auto.
Qed.

Lemma Initialize_twice_witness :
  let w := world (Regular exampleJSON) in
  let w' := exec (Initialize busy) w in
  sameFile (fs w') (fs w) /\
  eval (Initialize busy) w =
  (None, {| DriverVersion := "450.80.02"; NvidiaDockerVersion := "2.5.0";
            GPUIDs := ["GPU-0"; "GPU-1"] |}) /\
  eval (Initialize (snd (eval (Initialize busy) w))) w' = eval (Initialize busy) w /\
  trace (exec (Initialize (snd (eval (Initialize busy) w))) w') =
  callsOf (fs w) ++ callsOf (fs w) /\
  callsOf (fs w) =
  [EvStat NvidiaGPUInfoFilePath; EvOpen NvidiaGPUInfoFilePath;
   EvReadAll NvidiaGPUInfoFilePath; EvClose NvidiaGPUInfoFilePath].
Proof.
  cbv zeta.
  assert (H : sameFile (fs (exec (Initialize busy) (world (Regular exampleJSON))))
                       (fs (world (Regular exampleJSON)))).
  { rewrite Initialize_exec. repeat split. }
  destruct (Initialize_twice (world (Regular exampleJSON))
              (exec (Initialize busy) (world (Regular exampleJSON))) busy H)
    as (H1 & H2 & H3 & H4 & _).
  split; [exact H|]. split; [vm_compute; reflexivity|].
  split; [apply injective_projections; assumption|].
  split; [|reflexivity].
  rewrite H4, H3. reflexivity.
Defined.

(** C9.  When the snapshot file is there and holds a JSON object the scanner
    accepts (well formed, and nested no deeper than [maxNestingDepth])
    whose members have values of their fields' types, [Initialize] returns no
    error and the manager afterwards is the decoder's result, in every field:
    a field that no member of the object selects is at its zero value, the
    empty string or the empty sequence, whatever it held before the call. *)
Theorem Initialize_resets_missing
    (w : World) (n : NvidiaGPUManager) (content : bytes)
    (ms : list (string * json.Value)) (rest : string) :
  stat_err (fs w) NvidiaGPUInfoFilePath = None ->
  open_err (fs w) NvidiaGPUInfoFilePath = None ->
  read_all (fs w) NvidiaGPUInfoFilePath = (content, None) ->
  json.parse (string_of_list_byte content) = json.Ok (json.JObject ms) rest ->
  forallb json.wellTyped ms = true ->
  exists n',
    eval (Initialize n) w = (None, n') /\
    json.Unmarshal content zero = (None, n') /\
    (json.membersFor json.FDriverVersion ms = [] -> GetDriverVersion n' = EmptyString) /\
    (json.membersFor json.FNvidiaDockerVersion ms = [] ->
     GetRuntimeVersion n' = EmptyString) /\
    (json.membersFor json.FGPUIDs ms = [] -> GetGPUIDs n' = []).
Proof.
  intros Hs Ho Hr Hp Ht.
  pose proof (Unmarshal_object content ms rest zero Hp) as HU.
  pose proof (fold_typed ms ({| json.tgt := zero; json.gpu_spare := [] |}, None)
                Ht eq_refl) as Hsaved.
  rewrite Hsaved in HU.
  destruct (fold_frame ms ({| json.tgt := zero; json.gpu_spare := [] |}, None))
    as (F1 & F2 & F3).
  eexists. rewrite (Initialize_decoded w n content Hs Ho Hr), HU.
  split; [reflexivity|]. split; [reflexivity|].
  unfold GetDriverVersion, GetRuntimeVersion, GetGPUIDs.
  split; [|split]; intros H.
  - rewrite (F1 H). reflexivity.
  - rewrite (F2 H). reflexivity.
  - destruct (F3 H) as [-> _]. reflexivity.
Qed.

(** The empty object resets a manager that held values; an object with the
    driver version only sets it and resets the rest. *)
Lemma Initialize_resets_missing_witness :
  eval (Initialize busy) (world (Regular (list_byte_of_string "{}"))) = (None, zero) /\
  eval (Initialize busy) (world (Regular driverOnly)) =
  (None, {| DriverVersion := "470.57.02"; NvidiaDockerVersion := EmptyString;
            GPUIDs := [] |}).
Proof.
  split.
  - destruct (Initialize_resets_missing (world (Regular (list_byte_of_string "{}"))) busy
                (list_byte_of_string "{}") [] EmptyString
                eq_refl eq_refl eq_refl eq_refl eq_refl)
      as (n' & -> & _ & H1 & H2 & H3).
    destruct n'. unfold GetDriverVersion, GetRuntimeVersion, GetGPUIDs in *.
    cbn in H1, H2, H3. rewrite (H1 eq_refl), (H2 eq_refl), (H3 eq_refl). reflexivity.
  - destruct (Initialize_resets_missing (world (Regular driverOnly)) busy driverOnly
                [("DriverVersion", json.JString "470.57.02")] EmptyString
                eq_refl eq_refl eq_refl eq_refl eq_refl)
      as (n' & -> & HU & _ & H2 & H3).
    destruct n'. unfold GetDriverVersion, GetRuntimeVersion, GetGPUIDs in *.
    cbn in H2, H3. rewrite (H2 eq_refl), (H3 eq_refl).
    vm_compute in HU. injection HU as <-. reflexivity.
Defined.

(** C10.  A [Stat] error other than not-exist counts as the file being
    there: the existence check passes, [Initialize] goes on to open the
    file, and when that read fails [Initialize] returns the read's error,
    wrapped, with the manager unchanged. *)
Theorem Initialize_stat_error
    (w : World) (n : NvidiaGPUManager) (e e' : error) :
  stat_err (fs w) NvidiaGPUInfoFilePath = Some e ->
  IsNotExist (Some e) = false ->
  snd (eval GetGPUInfo (exec CheckForGPUInfoFile w)) = Some e' ->
  eval CheckForGPUInfoFile w = true /\
  In (EvOpen NvidiaGPUInfoFilePath) (trace (exec (Initialize n) w)) /\
  eval (Initialize n) w = (Some (withMessage e' "could not read GPU file content"), n).
Proof.
  intros Hs Hne Hread.
  unfold eval, exec in Hread. rewrite CheckForGPUInfoFile_run in Hread.
  cbn [snd] in Hread. rewrite GetGPUInfo_run, fs_log in Hread.
  split; [|split].
  - unfold eval. rewrite CheckForGPUInfoFile_run, Hs, Hne. reflexivity.
  - rewrite Initialize_exec. cbn [trace]. unfold callsOf. rewrite Hs, Hne.
    apply in_or_app. right.
    destruct (open_err (fs w) NvidiaGPUInfoFilePath); simpl; auto.
  - rewrite Initialize_eval, Hs, Hne.
    destruct (open_err (fs w) NvidiaGPUInfoFilePath) as [eo|].
    + cbn [fst snd] in Hread. congruence.
    + cbn [fst snd] in Hread.
      destruct (read_all (fs w) NvidiaGPUInfoFilePath) as [gpuJSON [er|]];
        cbn [snd] in Hread; congruence.
Qed.

(** Permission denied on the directory. *)
Lemma Initialize_stat_error_witness :
  stat_err (fs (world Unsearchable)) NvidiaGPUInfoFilePath =
    Some (PathError "stat" NvidiaGPUInfoFilePath EACCES) /\
  eval CheckForGPUInfoFile (world Unsearchable) = true /\
  In (EvOpen NvidiaGPUInfoFilePath) (trace (exec (Initialize busy) (world Unsearchable))) /\
  eval (Initialize busy) (world Unsearchable) =
  (Some (withMessage (PathError "open" NvidiaGPUInfoFilePath EACCES)
           "could not read GPU file content"), busy).
Proof.
  split; [reflexivity|].
  apply (Initialize_stat_error (world Unsearchable) busy
           (PathError "stat" NvidiaGPUInfoFilePath EACCES)
           (PathError "open" NvidiaGPUInfoFilePath EACCES)); reflexivity.
Defined.

(** ** Worked examples *)

(** A type mismatch is an unmarshal error and leaves the manager alone. *)
Example Initialize_mistyped :
  eval (Initialize busy) (world (Regular mistyped)) =
  (Some (withMessage (UnmarshalTypeError "number" "[]string")
           "could not unmarshal GPU file content"), busy).
Proof. vm_compute. reflexivity. Qed.

(** The decoder accepts [null] as it accepts the empty object: no error,
    every field at zero. *)
Example Initialize_null :
  eval (Initialize busy) (world (Regular justNull)) = (None, zero).
Proof. vm_compute. reflexivity. Qed.

(** Keys are matched without regard to case. *)
Example Initialize_lowerCase :
  eval (Initialize busy) (world (Regular lowerCase)) =
  (None, {| DriverVersion := "450.80.02"; NvidiaDockerVersion := EmptyString;
            GPUIDs := [] |}).
Proof. vm_compute. reflexivity. Qed.

(** The scanner's limit on nesting: whenever [Initialize] loads a file, the
    value in the file is nested no deeper than [maxNestingDepth]. *)
Lemma Initialize_nesting (w : World) (n n' : NvidiaGPUManager) (content : bytes) :
  stat_err (fs w) NvidiaGPUInfoFilePath = None ->
  open_err (fs w) NvidiaGPUInfoFilePath = None ->
  read_all (fs w) NvidiaGPUInfoFilePath = (content, None) ->
  eval (Initialize n) w = (None, n') ->
  exists j rest,
    json.parse (string_of_list_byte content) = json.Ok j rest /\
    json.nesting j <= json.maxNestingDepth.
Proof.
  intros Hs Ho Hr H. rewrite (Initialize_decoded w n content Hs Ho Hr) in H.
  destruct (Unmarshal_cases content zero) as [[_ HU]|(j & rest & Hp & _)].
  - rewrite HU in H. discriminate.
  - exists j, rest. split; [exact Hp|]. apply (parse_nesting _ _ _ Hp).
Qed.

(** An object that holds 9999 arrays one inside the other is read; with
    10000 arrays the scanner gives up and the manager stays as it was. *)
Example Initialize_deepest :
  eval (Initialize busy) (world (Regular deepestJSON)) = (None, zero).
Proof. vm_compute. reflexivity. Qed.

Example Initialize_tooDeep :
  eval (Initialize busy) (world (Regular tooDeepJSON)) =
  (Some (withMessage SyntaxError "could not unmarshal GPU file content"), busy).
Proof. vm_compute. reflexivity. Qed.

(** A file that may not be opened, and a directory in the file's place. *)
Example Initialize_unreadable :
  Initialize busy (world Unreadable) =
  ((Some (withMessage (PathError "open" NvidiaGPUInfoFilePath EACCES)
            "could not read GPU file content"), busy),
   {| fs := fs (world Unreadable);
      trace := [EvStat NvidiaGPUInfoFilePath; EvOpen NvidiaGPUInfoFilePath] |}).
Proof. reflexivity. Qed.

Example Initialize_directory :
  Initialize busy (world IsDirectory) =
  ((Some (withMessage (PathError "read" NvidiaGPUInfoFilePath EISDIR)
            "could not read GPU file content"), busy),
   {| fs := fs (world IsDirectory);
      trace := [EvStat NvidiaGPUInfoFilePath; EvOpen NvidiaGPUInfoFilePath;
                EvReadAll NvidiaGPUInfoFilePath; EvClose NvidiaGPUInfoFilePath] |}).
Proof. reflexivity. Qed.

(** A missing file costs one [Stat]. *)
Example Initialize_missing :
  Initialize busy (world Missing) =
  ((None, busy),
   {| fs := fs (world Missing); trace := [EvStat NvidiaGPUInfoFilePath] |}).
Proof. reflexivity. Qed.

(** ** The accessors under concurrency *)

Section Exclusion.
Import Concurrent.

Lemma count_insert (p : Thread -> bool) (l : list Thread) (t : nat) (x y : Thread) :
  l !! t = Some x ->
  (count p (<[t := y]> l) + (if p x then 1 else 0) =
   count p l + (if p y then 1 else 0))%nat.
Proof.
  revert t. induction l as [|a l IH]; intros t H; [discriminate|].
  destruct t as [|t]; simpl in *.
  - injection H as ->. lia.
  - specialize (IH t H). lia.
Qed.

Lemma count_pos (p : Thread -> bool) (l : list Thread) (t : nat) (x : Thread) :
  l !! t = Some x -> p x = true -> (1 <= count p l)%nat.
Proof.
  revert t. induction l as [|a l IH]; intros t H Hp; [discriminate|].
  destruct t as [|t]; simpl in *.
  - injection H as ->. rewrite Hp. lia.
  - specialize (IH t H Hp). lia.
Qed.

Lemma count_two (p : Thread -> bool) (l : list Thread) (t1 t2 : nat) (a b : Thread) :
  t1 <> t2 -> l !! t1 = Some a -> l !! t2 = Some b ->
  p a = true -> p b = true -> (2 <= count p l)%nat.
Proof.
  revert t1 t2. induction l as [|x l IH]; intros t1 t2 Hne H1 H2 Ha Hb; [discriminate|].
  destruct t1 as [|t1], t2 as [|t2]; simpl in *.
  - congruence.
  - injection H1 as ->. rewrite Ha. pose proof (count_pos p l t2 b H2 Hb). lia.
  - injection H2 as ->. rewrite Hb. pose proof (count_pos p l t1 a H1 Ha). lia.
  - assert (t1 <> t2) by congruence. specialize (IH t1 t2 H H1 H2 Ha Hb). lia.
Qed.

(** The shape of the bodies. *)
Lemma call_cases (c : Call) :
  (exists f ws, writes c = Some (f, ws) /\ reads c = None /\
                body c = setter f ws /\ length ws = width f) \/
  (exists f, reads c = Some f /\ writes c = None /\ body c = getter f).
Proof. destruct c; [left|right|left|right|left|right]; eauto 10. Qed.

Lemma stores_lookup f ws : forall i0 k,
  stores f i0 ws !! k = (fun w => Store f (i0 + k) w) <$> ws !! k.
Proof.
  induction ws as [|w ws IH]; intros i0 k; [reflexivity|].
  destruct k as [|k]; simpl.
  - f_equal. f_equal. lia.
  - rewrite IH. destruct (ws !! k); simpl; [|reflexivity]. do 2 f_equal. lia.
Qed.

Lemma stores_length f ws : forall i0, length (stores f i0 ws) = length ws.
Proof. induction ws; intros; simpl; auto. Qed.

Lemma loads_lookup f n : forall i0 k,
  loads f i0 n !! k = if (k <? n)%nat then Some (Load f (i0 + k)) else None.
Proof.
  induction n as [|n IH]; intros i0 k.
  - destruct k; reflexivity.
  - destruct k as [|k].
    + simpl. do 2 f_equal. lia.
    + change (loads f i0 (S n) !! S k) with (loads f (S i0) n !! k).
      rewrite IH. change (S k <? S n)%nat with (k <? n)%nat.
      destruct (k <? n)%nat; [|reflexivity]. do 2 f_equal. lia.
Qed.

Lemma loads_length f n : forall i0, length (loads f i0 n) = n.
Proof. induction n; intros; simpl; auto. Qed.

Lemma setter_length f ws : length (setter f ws) = S (S (length ws)).
Proof. unfold setter. simpl. rewrite length_app, stores_length. simpl. lia. Qed.

Lemma getter_length f : length (getter f) = S (S (width f)).
Proof. unfold getter. simpl. rewrite length_app, loads_length. simpl. lia. Qed.

(** The instruction at each position of a setter. *)
Lemma setter_lookup f ws k ins :
  setter f ws !! k = Some ins ->
  (k = 0%nat /\ ins = Lock) \/
  (exists i w, k = S i /\ ws !! i = Some w /\ ins = Store f i w) \/
  (k = S (length ws) /\ ins = Unlock).
Proof.
  unfold setter. destruct k as [|k]; simpl.
  - intros [= <-]. left. auto.
  - intros H. right. apply lookup_app_Some in H as [H|[Hlen H]].
    + left. rewrite stores_lookup in H. destruct (ws !! k) as [w|] eqn:E; [|discriminate].
      simpl in H. injection H as <-. exists k, w. auto.
    + right. rewrite stores_length in *. 
      destruct (k - length ws)%nat as [|j] eqn:E; simpl in H; [|destruct j; discriminate].
      injection H as <-. split; [|reflexivity]. f_equal. lia.
Qed.

Lemma getter_lookup f k ins :
  getter f !! k = Some ins ->
  (k = 0%nat /\ ins = RLock) \/
  (exists i, k = S i /\ (i < width f)%nat /\ ins = Load f i) \/
  (k = S (width f) /\ ins = RUnlock).
Proof.
  unfold getter. destruct k as [|k]; simpl.
  - intros [= <-]. left. auto.
  - intros H. right. apply lookup_app_Some in H as [H|[Hlen H]].
    + left. rewrite loads_lookup in H.
      destruct (k <? width f)%nat eqn:E; [|discriminate].
      apply Nat.ltb_lt in E. injection H as <-. exists k. auto.
    + right. rewrite loads_length in *.
      destruct (k - width f)%nat as [|j] eqn:E; simpl in H; [|destruct j; discriminate].
      injection H as <-. split; [|reflexivity]. f_equal. lia.
Qed.

Lemma writes_body c f ws :
  writes c = Some (f, ws) ->
  body c = setter f ws /\ reads c = None /\ length ws = width f.
Proof. destruct c; intros [= <- <-]; auto. Qed.

Lemma reads_body c f :
  reads c = Some f -> body c = getter f /\ writes c = None.
Proof. destruct c; intros [= <-]; auto. Qed.

Lemma body_Lock c k :
  body c !! k = Some Lock ->
  k = 0%nat /\ exists f ws, writes c = Some (f, ws).
Proof.
  destruct (call_cases c) as [(f & ws & Hw & _ & Hb & _)|(f & Hr & _ & Hb)];
    rewrite Hb; intros H.
  - apply setter_lookup in H as [[-> _]|[(i & w & _ & _ & [=])|[_ [=]]]]. eauto.
  - apply getter_lookup in H as [[_ [=]]|[(i & _ & _ & [=])|[_ [=]]]].
Qed.

Lemma body_Unlock c k :
  body c !! k = Some Unlock ->
  exists f ws, writes c = Some (f, ws) /\ k = S (length ws).
Proof.
  destruct (call_cases c) as [(f & ws & Hw & _ & Hb & _)|(f & Hr & _ & Hb)];
    rewrite Hb; intros H.
  - apply setter_lookup in H as [[_ [=]]|[(i & w & _ & _ & [=])|[-> _]]]. eauto.
  - apply getter_lookup in H as [[_ [=]]|[(i & _ & _ & [=])|[_ [=]]]].
Qed.

Lemma body_Store c k g i w :
  body c !! k = Some (Store g i w) ->
  exists ws, writes c = Some (g, ws) /\ k = S i /\ ws !! i = Some w.
Proof.
  destruct (call_cases c) as [(f & ws & Hw & _ & Hb & _)|(f & Hr & _ & Hb)];
    rewrite Hb; intros H.
  - apply setter_lookup in H as [[_ [=]]|[(j & v & -> & Hj & [= -> -> ->])|[_ [=]]]].
    eauto.
  - apply getter_lookup in H as [[_ [=]]|[(j & _ & _ & [=])|[_ [=]]]].
Qed.

Lemma body_RLock c k :
  body c !! k = Some RLock ->
  k = 0%nat /\ exists f, reads c = Some f.
Proof.
  destruct (call_cases c) as [(f & ws & Hw & _ & Hb & _)|(f & Hr & _ & Hb)];
    rewrite Hb; intros H.
  - apply setter_lookup in H as [[_ [=]]|[(i & w & _ & _ & [=])|[_ [=]]]].
  - apply getter_lookup in H as [[-> _]|[(i & _ & _ & [=])|[_ [=]]]]. eauto.
Qed.

Lemma body_RUnlock c k :
  body c !! k = Some RUnlock ->
  exists f, reads c = Some f /\ k = S (width f).
Proof.
  destruct (call_cases c) as [(f & ws & Hw & _ & Hb & _)|(f & Hr & _ & Hb)];
    rewrite Hb; intros H.
  - apply setter_lookup in H as [[_ [=]]|[(i & w & _ & _ & [=])|[_ [=]]]].
  - apply getter_lookup in H as [[_ [=]]|[(i & _ & _ & [=])|[-> _]]]. eauto.
Qed.

Lemma body_Load c k g i :
  body c !! k = Some (Load g i) ->
  reads c = Some g /\ k = S i /\ (i < width g)%nat.
Proof.
  destruct (call_cases c) as [(f & ws & Hw & _ & Hb & _)|(f & Hr & _ & Hb)];
    rewrite Hb; intros H.
  - apply setter_lookup in H as [[_ [=]]|[(j & w & _ & _ & [=])|[_ [=]]]].
  - apply getter_lookup in H as [[_ [=]]|[(j & -> & Hj & [= -> ->])|[_ [=]]]]. auto.
Qed.

Lemma body_length_w c f ws :
  writes c = Some (f, ws) -> length (body c) = S (S (length ws)).
Proof. intros H. apply writes_body in H as (-> & _ & _). apply setter_length. Qed.

Lemma body_length_r c f :
  reads c = Some f -> length (body c) = S (S (width f)).
Proof. intros H. apply reads_body in H as (-> & _). apply getter_length. Qed.

(** Holding the lock, by position. *)
Lemma holdsW_spec th c rest f ws :
  calls th = c :: rest -> writes c = Some (f, ws) ->
  holdsW th = true <-> (1 <= pc th <= S (length ws))%nat.
Proof.
  intros Hc Hw. unfold holdsW. rewrite Hc, Hw, (body_length_w c f ws Hw).
  rewrite andb_true_iff, Nat.leb_le, Nat.ltb_lt. lia.
Qed.

Lemma holdsR_spec th c rest f :
  calls th = c :: rest -> reads c = Some f ->
  holdsR th = true <-> (1 <= pc th <= S (width f))%nat.
Proof.
  intros Hc Hr. unfold holdsR. rewrite Hc, Hr, (body_length_r c f Hr).
  rewrite andb_true_iff, Nat.leb_le, Nat.ltb_lt. lia.
Qed.

Lemma holdsW_reads th c rest f :
  calls th = c :: rest -> reads c = Some f -> holdsW th = false.
Proof.
  intros Hc Hr. unfold holdsW. rewrite Hc.
  apply reads_body in Hr as (_ & ->). reflexivity.
Qed.

Lemma holdsR_writes th c rest f ws :
  calls th = c :: rest -> writes c = Some (f, ws) -> holdsR th = false.
Proof.
  intros Hc Hw. unfold holdsR. rewrite Hc.
  apply writes_body in Hw as (_ & -> & _). reflexivity.
Qed.

Lemma holds_start th : pc th = 0%nat -> holdsW th = false /\ holdsR th = false.
Proof.
  intros H. unfold holdsW, holdsR. rewrite H.
  destruct (calls th) as [|c rest]; [auto|].
  destruct (writes c), (reads c); auto.
Qed.

Lemma holds_end th c rest :
  calls th = c :: rest -> pc th = length (body c) ->
  holdsW th = false /\ holdsR th = false.
Proof.
  intros Hc H. unfold holdsW, holdsR. rewrite Hc, H, Nat.ltb_irrefl, andb_false_r.
  destruct (writes c), (reads c); auto.
Qed.

Lemma holdsW_holdsR th : holdsW th = true -> holdsR th = false.
Proof.
  unfold holdsW, holdsR. destruct (calls th) as [|c rest]; [discriminate|].
  destruct (call_cases c) as [(f & ws & -> & -> & _)|(f & -> & -> & _)];
    [reflexivity|discriminate].
Qed.
End Exclusion.

Section Preservation.
Import Concurrent.
Variable P : Field -> list Z -> Prop.
Hypothesis P_len : forall f v, P f v -> length v = width f.

Lemma ThreadInv_frame m m' th :
  ThreadInv P m th -> holdsW th = false -> holdsR th = false -> ThreadInv P m' th.
Proof.
  intros [H2 H3 H4 H5 H6] HW HR. constructor; auto.
  - intros c rest f ws _ _ H. congruence.
  - intros c rest f Hc Hr. split; [congruence|]. apply (H6 c rest f Hc Hr).
Qed.

Lemma writer_flag s t th :
  Inv P s -> threads s !! t = Some th -> holdsW th = true -> writer (mu s) = true.
Proof.
  intros I Ht H. pose proof (count_pos holdsW _ _ _ Ht H) as Hc.
  rewrite (inv_writer P s I) in Hc. destruct (writer (mu s)); [reflexivity|lia].
Qed.

Lemma reader_flag s t th :
  Inv P s -> threads s !! t = Some th -> holdsR th = true ->
  writer (mu s) = false /\ (1 <= readers (mu s))%nat.
Proof.
  intros I Ht H. pose proof (count_pos holdsR _ _ _ Ht H) as Hc.
  rewrite (inv_readers P s I) in Hc. split; [|exact Hc].
  destruct (writer (mu s)) eqn:E; [|reflexivity].
  pose proof (inv_excl P s I E). lia.
Qed.

(** While one goroutine holds the lock as a writer, no other goroutine
    holds it in either mode. *)
Lemma others_idle s t th t' th' :
  Inv P s -> threads s !! t = Some th -> holdsW th = true ->
  t' <> t -> threads s !! t' = Some th' ->
  holdsW th' = false /\ holdsR th' = false.
Proof.
  intros I Ht H Hne Ht'. split.
  - destruct (holdsW th') eqn:E; [|reflexivity].
    pose proof (count_two holdsW _ _ _ _ _ Hne Ht' Ht E H) as Hc.
    rewrite (inv_writer P s I) in Hc. destruct (writer (mu s)); lia.
  - destruct (holdsR th') eqn:E; [|reflexivity].
    destruct (reader_flag s t' th' I Ht' E) as [Hw _].
    rewrite (writer_flag s t th I Ht H) in Hw. discriminate.
Qed.

Lemma insert_cases (l : list Thread) t x t' th' :
  <[t := x]> l !! t' = Some th' ->
  (t' = t /\ th' = x) \/ (t' <> t /\ l !! t' = Some th').
Proof.
  intros H. apply list_lookup_insert_Some in H as [(-> & -> & _)|[Hne H]]; auto.
Qed.

Lemma store_word (ws old : list Z) i w :
  ws !! i = Some w -> length old = length ws ->
  <[i := w]> (take i ws ++ drop i old) = take (S i) ws ++ drop (S i) old.
Proof.
  intros Hw Hlen.
  assert (Hi : (i < length ws)%nat) by (eapply lookup_lt_Some; exact Hw).
  destruct (old !! i) as [x|] eqn:Hx;
    [|apply lookup_ge_None in Hx; lia].
  rewrite (take_S_r ws i w Hw), (drop_S old x i Hx).
  rewrite insert_app_r_alt; rewrite length_take; [|lia].
  replace (i - i `min` length ws)%nat with 0%nat by lia.
  simpl. rewrite <- app_assoc. reflexivity.
Qed.

Lemma take_all (v : list Z) n : length v = n -> take n v = v.
Proof. intros <-. apply firstn_all. Qed.


(** The running call returns. *)
Lemma step_finish s t th c rest :
  Inv P s -> threads s !! t = Some th -> calls th = c :: rest ->
  body c !! pc th = None ->
  Inv P {| mu := mu s; mem := mem s; threads := <[t := finish c th]> (threads s) |}.
Proof.
  intros I Ht Hc Hins.
  pose proof (inv_threads P s I t th Ht) as T.
  assert (Hpc : pc th = length (body c)).
  { apply lookup_ge_None in Hins. pose proof (ti_pc P _ _ T) as H. rewrite Hc in H. lia. }
  destruct (holds_end th c rest Hc Hpc) as [HW HR].
  destruct (holds_start (finish c th) eq_refl) as [HW' HR'].
  pose proof (count_insert holdsW _ t th (finish c th) Ht) as CW.
  pose proof (count_insert holdsR _ t th (finish c th) Ht) as CR.
  rewrite HW, HW' in CW. rewrite HR, HR' in CR.
  constructor; cbn [mu mem threads].
  - rewrite <- (inv_writer P s I). lia.
  - rewrite <- (inv_readers P s I). lia.
  - apply (inv_excl P s I).
  - apply (inv_mem P s I).
  - intros t' th' H. apply insert_cases in H as [[-> ->]|[Hne H]];
      [|apply (inv_threads P s I t' th' H)].
    constructor; cbn [calls pc regs rets returned finish].
    + intros f v Hin. destruct (reads c) as [g|] eqn:Hr.
      * apply in_app_or in Hin as [Hin|[[= <- <-]|[]]].
        -- apply (ti_rets P _ _ T f v Hin).
        -- apply (ti_reader P _ _ T c rest g Hc Hr). exact Hpc.
      * apply (ti_rets P _ _ T f v Hin).
    + rewrite Hc. cbn [tail]. destruct rest; [reflexivity|lia].
    + reflexivity.
    + intros c' rest' f ws _ _ H'. congruence.
    + intros c' rest' f Hc' Hr'. split; [congruence|].
      rewrite (body_length_r c' f Hr'). discriminate.
Qed.

(** [Lock] taken. *)
Lemma step_Lock s t th c rest :
  Inv P s -> threads s !! t = Some th -> calls th = c :: rest ->
  body c !! pc th = Some Lock ->
  writer (mu s) = false -> readers (mu s) = 0%nat ->
  Inv P {| mu := {| writer := true; readers := readers (mu s) |};
           mem := mem s; threads := <[t := advance th]> (threads s) |}.
Proof.
  intros I Ht Hc Hins Hw0 Hr0.
  pose proof (inv_threads P s I t th Ht) as T.
  apply body_Lock in Hins as (Hpc & f & ws & Hw).
  destruct (holds_start th Hpc) as [HW HR].
  assert (HW' : holdsW (advance th) = true).
  { apply (holdsW_spec (advance th) c rest f ws Hc Hw). cbn [pc advance]. lia. }
  assert (HR' : holdsR (advance th) = false)
    by (apply (holdsR_writes (advance th) c rest f ws Hc Hw)).
  pose proof (count_insert holdsW _ t th (advance th) Ht) as CW.
  pose proof (count_insert holdsR _ t th (advance th) Ht) as CR.
  rewrite HW, HW' in CW. rewrite HR, HR' in CR.
  pose proof (inv_writer P s I) as IW. rewrite Hw0 in IW.
  constructor; cbn [mu mem threads writer readers].
  - lia.
  - rewrite <- (inv_readers P s I). lia.
  - intros _. exact Hr0.
  - discriminate.
  - intros t' th' H. apply insert_cases in H as [[-> ->]|[Hne H]];
      [|apply (inv_threads P s I t' th' H)].
    constructor; cbn [calls pc regs rets advance].
    + apply (ti_rets P _ _ T).
    + rewrite Hc. rewrite (body_length_w c f ws Hw). lia.
    + discriminate.
    + intros c' rest' f' ws' Hc' Hw' _. rewrite Hc in Hc'. injection Hc' as <- <-.
      rewrite Hw in Hw'. injection Hw' as <- <-. rewrite Hpc. split.
      * exists (mem s f). split; [apply (inv_mem P s I Hw0)|reflexivity].
      * intros g _. apply (inv_mem P s I Hw0).
    + intros c' rest' f' Hc' Hr'. rewrite Hc in Hc'. injection Hc' as <- <-.
      apply writes_body in Hw as (_ & Hr & _). congruence.
Qed.

(** [Unlock]. *)
Lemma step_Unlock s t th c rest :
  Inv P s -> threads s !! t = Some th -> calls th = c :: rest ->
  body c !! pc th = Some Unlock ->
  (forall f ws, writes c = Some (f, ws) -> P f ws) ->
  Inv P {| mu := {| writer := false; readers := readers (mu s) |};
           mem := mem s; threads := <[t := advance th]> (threads s) |}.
Proof.
  intros I Ht Hc Hins HP.
  pose proof (inv_threads P s I t th Ht) as T.
  apply body_Unlock in Hins as (f & ws & Hw & Hpc).
  assert (HW : holdsW th = true).
  { apply (holdsW_spec th c rest f ws Hc Hw). lia. }
  pose proof (holdsW_holdsR th HW) as HR.
  assert (Hend : pc (advance th) = length (body c)).
  { cbn [pc advance]. rewrite (body_length_w c f ws Hw). lia. }
  destruct (holds_end (advance th) c rest Hc Hend) as [HW' HR'].
  pose proof (count_insert holdsW _ t th (advance th) Ht) as CW.
  pose proof (count_insert holdsR _ t th (advance th) Ht) as CR.
  rewrite HW, HW' in CW. rewrite HR, HR' in CR.
  pose proof (inv_writer P s I) as IW.
  rewrite (writer_flag s t th I Ht HW) in IW.
  constructor; cbn [mu mem threads writer readers].
  - lia.
  - rewrite <- (inv_readers P s I). lia.
  - discriminate.
  - intros _ g.
    destruct (ti_writer P _ _ T c rest f ws Hc Hw HW) as [(old & Hold & Hm) Hg].
    destruct (decide (g = f)) as [->|Hne]; [|apply Hg; exact Hne].
    pose proof (HP f ws Hw) as Pws.
    pose proof (P_len f ws Pws) as L1. pose proof (P_len f old Hold) as L2.
    rewrite Hm, Hpc. replace (S (length ws) - 1)%nat with (length ws) by lia.
    rewrite firstn_all, drop_ge, app_nil_r by lia. exact Pws.
  - intros t' th' H. apply insert_cases in H as [[-> ->]|[Hne H]];
      [|apply (inv_threads P s I t' th' H)].
    constructor; cbn [calls pc regs rets advance].
    + apply (ti_rets P _ _ T).
    + rewrite Hc. cbn [pc advance] in Hend. lia.
    + discriminate.
    + intros c' rest' f' ws' _ _ H'. congruence.
    + intros c' rest' f' Hc' Hr'. rewrite Hc in Hc'. injection Hc' as <- <-.
      apply writes_body in Hw as (_ & Hr & _). congruence.
Qed.

(** [RLock] taken. *)
Lemma step_RLock s t th c rest :
  Inv P s -> threads s !! t = Some th -> calls th = c :: rest ->
  body c !! pc th = Some RLock ->
  writer (mu s) = false ->
  Inv P {| mu := {| writer := false; readers := S (readers (mu s)) |};
           mem := mem s; threads := <[t := advance th]> (threads s) |}.
Proof.
  intros I Ht Hc Hins Hw0.
  pose proof (inv_threads P s I t th Ht) as T.
  apply body_RLock in Hins as (Hpc & f & Hr).
  destruct (holds_start th Hpc) as [HW HR].
  assert (HR' : holdsR (advance th) = true).
  { apply (holdsR_spec (advance th) c rest f Hc Hr). cbn [pc advance]. lia. }
  assert (HW' : holdsW (advance th) = false)
    by (apply (holdsW_reads (advance th) c rest f Hc Hr)).
  pose proof (count_insert holdsW _ t th (advance th) Ht) as CW.
  pose proof (count_insert holdsR _ t th (advance th) Ht) as CR.
  rewrite HW, HW' in CW. rewrite HR, HR' in CR.
  pose proof (inv_writer P s I) as IW. rewrite Hw0 in IW.
  constructor; cbn [mu mem threads writer readers].
  - lia.
  - rewrite <- (inv_readers P s I). lia.
  - discriminate.
  - intros _. apply (inv_mem P s I Hw0).
  - intros t' th' H. apply insert_cases in H as [[-> ->]|[Hne H]];
      [|apply (inv_threads P s I t' th' H)].
    constructor; cbn [calls pc regs rets advance].
    + apply (ti_rets P _ _ T).
    + rewrite Hc. rewrite (body_length_r c f Hr). lia.
    + discriminate.
    + intros c' rest' f' ws' Hc' Hw' _. rewrite Hc in Hc'. injection Hc' as <- <-.
      apply reads_body in Hr as (_ & Hw). congruence.
    + intros c' rest' f' Hc' Hr'. rewrite Hc in Hc'. injection Hc' as <- <-.
      rewrite Hr in Hr'. injection Hr' as <-. split.
      * intros _. rewrite Hpc. apply (ti_regs P _ _ T Hpc).
      * rewrite (body_length_r c f Hr), Hpc. discriminate.
Qed.

(** [RUnlock]. *)
Lemma step_RUnlock s t th c rest :
  Inv P s -> threads s !! t = Some th -> calls th = c :: rest ->
  body c !! pc th = Some RUnlock ->
  Inv P {| mu := {| writer := writer (mu s); readers := pred (readers (mu s)) |};
           mem := mem s; threads := <[t := advance th]> (threads s) |}.
Proof.
  intros I Ht Hc Hins.
  pose proof (inv_threads P s I t th Ht) as T.
  apply body_RUnlock in Hins as (f & Hr & Hpc).
  assert (HR : holdsR th = true).
  { apply (holdsR_spec th c rest f Hc Hr). lia. }
  pose proof (holdsW_reads th c rest f Hc Hr) as HW.
  assert (Hend : pc (advance th) = length (body c)).
  { cbn [pc advance]. rewrite (body_length_r c f Hr). lia. }
  destruct (holds_end (advance th) c rest Hc Hend) as [HW' HR'].
  pose proof (count_insert holdsW _ t th (advance th) Ht) as CW.
  pose proof (count_insert holdsR _ t th (advance th) Ht) as CR.
  rewrite HW, HW' in CW. rewrite HR, HR' in CR.
  destruct (reader_flag s t th I Ht HR) as [Hw0 Hr1].
  constructor; cbn [mu mem threads writer readers].
  - rewrite <- (inv_writer P s I). lia.
  - rewrite <- (inv_readers P s I). lia.
  - congruence.
  - apply (inv_mem P s I).
  - intros t' th' H. apply insert_cases in H as [[-> ->]|[Hne H]];
      [|apply (inv_threads P s I t' th' H)].
    constructor; cbn [calls pc regs rets advance].
    + apply (ti_rets P _ _ T).
    + rewrite Hc. cbn [pc advance] in Hend. lia.
    + discriminate.
    + intros c' rest' f' ws' Hc' Hw' _. rewrite Hc in Hc'. injection Hc' as <- <-.
      apply reads_body in Hr as (_ & Hw). congruence.
    + intros c' rest' f' Hc' Hr'. rewrite Hc in Hc'. injection Hc' as <- <-.
      rewrite Hr in Hr'. injection Hr' as <-. split; [congruence|]. intros _.
      destruct (ti_reader P _ _ T c rest f Hc Hr) as [Hregs _].
      rewrite (Hregs HR), Hpc. replace (S (width f) - 1)%nat with (width f) by lia.
      pose proof (inv_mem P s I Hw0 f) as Pm.
      rewrite (take_all _ _ (P_len f _ Pm)). exact Pm.
Qed.

(** One word stored. *)
Lemma step_Store s t th c rest g i w :
  Inv P s -> threads s !! t = Some th -> calls th = c :: rest ->
  body c !! pc th = Some (Store g i w) ->
  Inv P {| mu := mu s; mem := setMem (mem s) g i w;
           threads := <[t := advance th]> (threads s) |}.
Proof.
  intros I Ht Hc Hins.
  pose proof (inv_threads P s I t th Ht) as T.
  apply body_Store in Hins as (ws & Hw & Hpc & Hi).
  assert (Hlt : (i < length ws)%nat) by (eapply lookup_lt_Some; exact Hi).
  assert (HW : holdsW th = true).
  { apply (holdsW_spec th c rest g ws Hc Hw). lia. }
  pose proof (holdsW_holdsR th HW) as HR.
  assert (HW' : holdsW (advance th) = true).
  { apply (holdsW_spec (advance th) c rest g ws Hc Hw). cbn [pc advance]. lia. }
  pose proof (holdsW_holdsR _ HW') as HR'.
  pose proof (count_insert holdsW _ t th (advance th) Ht) as CW.
  pose proof (count_insert holdsR _ t th (advance th) Ht) as CR.
  rewrite HW, HW' in CW. rewrite HR, HR' in CR.
  pose proof (writer_flag s t th I Ht HW) as Hw1.
  constructor; cbn [mu mem threads writer readers].
  - rewrite <- (inv_writer P s I). lia.
  - rewrite <- (inv_readers P s I). lia.
  - apply (inv_excl P s I).
  - congruence.
  - intros t' th' H. apply insert_cases in H as [[-> ->]|[Hne H]].
    + constructor; cbn [calls pc regs rets advance].
      * apply (ti_rets P _ _ T).
      * rewrite Hc. rewrite (body_length_w c g ws Hw). lia.
      * discriminate.
      * intros c' rest' f' ws' Hc' Hw' _. rewrite Hc in Hc'. injection Hc' as <- <-.
        rewrite Hw in Hw'. injection Hw' as <- <-.
        destruct (ti_writer P _ _ T c rest g ws Hc Hw HW) as [(old & Hold & Hm) Hg].
        pose proof (writes_body c g ws Hw) as (_ & _ & L1).
        pose proof (P_len g old Hold) as L2.
        split.
        -- exists old. split; [exact Hold|]. unfold setMem.
           destruct (decide (g = g)) as [_|[]]; [|reflexivity].
           rewrite Hm, Hpc. replace (S i - 1)%nat with i by lia.
           replace (S (S i) - 1)%nat with (S i) by lia.
           apply store_word; [exact Hi|lia].
        -- intros g' Hne. unfold setMem.
           destruct (decide (g' = g)) as [->|_]; [contradiction|]. apply Hg. exact Hne.
      * intros c' rest' f' Hc' Hr'. rewrite Hc in Hc'. injection Hc' as <- <-.
        apply writes_body in Hw as (_ & Hr & _). congruence.
    + destruct (others_idle s t th t' th' I Ht HW Hne H) as [HW2 HR2].
      apply (ThreadInv_frame (mem s)); [apply (inv_threads P s I t' th' H)| |];
        assumption.
Qed.

(** One word loaded. *)
Lemma step_Load s t th c rest g i :
  Inv P s -> threads s !! t = Some th -> calls th = c :: rest ->
  body c !! pc th = Some (Load g i) ->
  Inv P {| mu := mu s; mem := mem s;
           threads :=
             <[t := {| calls := calls th; pc := S (pc th);
                       regs := regs th ++ [default 0 (mem s g !! i)];
                       rets := rets th; returned := returned th |}]> (threads s) |}.
Proof.
  intros I Ht Hc Hins.
  pose proof (inv_threads P s I t th Ht) as T.
  apply body_Load in Hins as (Hr & Hpc & Hi).
  set (th1 := {| calls := calls th; pc := S (pc th);
                 regs := regs th ++ [default 0 (mem s g !! i)]; rets := rets th;
                 returned := returned th |}).
  assert (HR : holdsR th = true).
  { apply (holdsR_spec th c rest g Hc Hr). lia. }
  pose proof (holdsW_reads th c rest g Hc Hr) as HW.
  assert (HR' : holdsR th1 = true).
  { apply (holdsR_spec th1 c rest g Hc Hr). cbn [pc th1]. lia. }
  pose proof (holdsW_reads th1 c rest g Hc Hr) as HW'.
  pose proof (count_insert holdsW _ t th th1 Ht) as CW.
  pose proof (count_insert holdsR _ t th th1 Ht) as CR.
  rewrite HW, HW' in CW. rewrite HR, HR' in CR.
  destruct (reader_flag s t th I Ht HR) as [Hw0 _].
  constructor; cbn [mu mem threads writer readers].
  - rewrite <- (inv_writer P s I). lia.
  - rewrite <- (inv_readers P s I). lia.
  - apply (inv_excl P s I).
  - apply (inv_mem P s I).
  - intros t' th' H. apply insert_cases in H as [[-> ->]|[Hne H]];
      [|apply (inv_threads P s I t' th' H)].
    constructor; cbn [calls pc regs rets th1].
    + apply (ti_rets P _ _ T).
    + rewrite Hc. rewrite (body_length_r c g Hr). lia.
    + discriminate.
    + intros c' rest' f' ws' Hc' Hw' _. rewrite Hc in Hc'. injection Hc' as <- <-.
      apply reads_body in Hr as (_ & Hw). congruence.
    + intros c' rest' f' Hc' Hr'. rewrite Hc in Hc'. injection Hc' as <- <-.
      rewrite Hr in Hr'. injection Hr' as <-. split.
      * intros _. destruct (ti_reader P _ _ T c rest g Hc Hr) as [Hregs _].
        rewrite (Hregs HR), Hpc. replace (S i - 1)%nat with i by lia.
        replace (S (S i) - 1)%nat with (S i) by lia.
        pose proof (P_len g _ (inv_mem P s I Hw0 g)) as L.
        destruct (mem s g !! i) as [x|] eqn:Hx;
          [|apply lookup_ge_None in Hx; lia].
        cbn [default]. symmetry. apply take_S_r. exact Hx.
      * rewrite (body_length_r c g Hr), Hpc. lia.
Qed.

(** Every step keeps the invariant, when the values that are whole include
    the value of the setter that unlocks. *)
Lemma step_inv t s :
  (forall th c rest f ws,
     threads s !! t = Some th -> calls th = c :: rest ->
     body c !! pc th = Some Unlock -> writes c = Some (f, ws) -> P f ws) ->
  Inv P s -> Inv P (step t s).
Proof.
  intros HP I. unfold step.
  destruct (threads s !! t) as [th|] eqn:Ht; [|exact I].
  destruct (calls th) as [|c rest] eqn:Hc; [exact I|].
  destruct (body c !! pc th) as [ins|] eqn:Hins;
    [|eapply step_finish; eassumption].
  destruct ins.
  - destruct (writer (mu s)) eqn:Hw; [exact I|].
    destruct (0 <? readers (mu s))%nat eqn:Hr; [exact I|].
    cbn [orb]. apply Nat.ltb_ge in Hr.
    eapply step_Lock; try eassumption. lia.
  - eapply step_Unlock; try eassumption.
    intros f ws Hw. eapply HP; eauto.
  - destruct (writer (mu s)) eqn:Hw; [exact I|].
    eapply step_RLock; eassumption.
  - eapply step_RUnlock; eassumption.
  - eapply step_Store; eassumption.
  - rewrite <- Hc. eapply step_Load; eassumption.
Qed.

End Preservation.


Section Schedules.
Import Concurrent.

Lemma Inv_mono (P P' : Field -> list Z -> Prop) s :
  (forall f v, P f v -> P' f v) -> Inv P s -> Inv P' s.
Proof.
  intros HPP [I1 I2 I3 I4 I5]. constructor; auto.
  intros t th Ht. destruct (I5 t th Ht) as [T2 T3 T4 T5 T6]. constructor; auto.
  - intros c rest f ws Hc Hw HW.
    destruct (T5 c rest f ws Hc Hw HW) as [(old & Hold & Hm) Hg]. split; eauto.
  - intros c rest f Hc Hr. destruct (T6 c rest f Hc Hr) as [Ha Hb]. split; auto.
Qed.

Lemma whole_len s f v : whole s f v -> length v = width f.
Proof.
  intros [->|(t & th & c & _ & _ & Hw)].
  - apply length_replicate.
  - apply writes_body in Hw as (_ & _ & H). exact H.
Qed.

(** A call that has released the lock stays so. *)
Lemma released_step t s th c :
  threads s !! t = Some th -> released th c ->
  exists th', threads (step t s) !! t = Some th' /\ released th' c.
Proof.
  intros Ht Hrel.
  assert (Hlen : (t < length (threads s))%nat) by (eapply lookup_lt_Some; exact Ht).
  unfold step. rewrite Ht.
  destruct (calls th) as [|c0 rest0] eqn:Hc; [eauto|].
  assert (Hadv : forall th1, calls th1 = calls th -> returned th1 = returned th ->
                             pc th1 = S (pc th) ->
                             body c0 !! pc th <> None -> released th1 c).
  { intros th1 E1 E2 E3 Hsome. destruct Hrel as [Hin|(rest & Hc' & Hpc)].
    - left. rewrite E2. exact Hin.
    - exfalso. apply Hsome. rewrite Hc in Hc'. injection Hc' as -> ->.
      apply lookup_ge_None. lia. }
  destruct (body c0 !! pc th) as [ins|] eqn:Hins.
  - assert (Hrel1 : forall th1, calls th1 = calls th -> returned th1 = returned th ->
                                pc th1 = S (pc th) -> released th1 c).
    { intros th1 E1 E2 E3. apply Hadv; auto; discriminate. }
    destruct ins;
      repeat match goal with
             | |- context [if ?b then _ else _] => destruct b
             end;
      cbn [threads]; try (eexists; split; [exact Ht|exact Hrel]);
      (eexists; split; [apply list_lookup_insert_eq; exact Hlen|]);
      apply Hrel1; cbn [calls pc returned advance]; congruence.
  - cbn [threads]. eexists. split; [apply list_lookup_insert_eq; exact Hlen|].
    left. cbn [returned finish]. apply in_or_app.
    destruct Hrel as [Hin|(rest & Hc' & Hpc)]; [left; exact Hin|right].
    rewrite Hc in Hc'. injection Hc' as -> ->. left. reflexivity.
Qed.

Lemma step_other t s t' th' :
  t' <> t -> threads s !! t' = Some th' -> threads (step t s) !! t' = Some th'.
Proof.
  intros Hne Ht'. unfold step.
  destruct (threads s !! t) as [th|]; [|exact Ht'].
  destruct (calls th) as [|c rest]; [exact Ht'|].
  destruct (body c !! pc th) as [[]|];
    repeat match goal with
           | |- context [if ?b then _ else _] => destruct b
           end;
    cbn [threads]; try exact Ht';
    (rewrite list_lookup_insert_ne; [exact Ht'|congruence]).
Qed.

(** What has been written in full stays so. *)
Lemma written_step t s f v : written s f v -> written (step t s) f v.
Proof.
  intros (t0 & th & c & Ht & Hrel & Hw).
  destruct (decide (t0 = t)) as [->|Hne].
  - destruct (released_step t s th c Ht Hrel) as (th' & Ht' & Hrel').
    exists t, th', c. auto.
  - exists t0, th, c. split; [apply step_other; assumption|auto].
Qed.

Lemma whole_step t s f v : whole s f v -> whole (step t s) f v.
Proof. intros [H|H]; [left; exact H|right; apply written_step; exact H]. Qed.

(** The invariant, for the values that are whole at each state. *)
Lemma step_whole t s : Inv (whole s) s -> Inv (whole (step t s)) (step t s).
Proof.
  intros I.
  assert (I' : Inv (whole (step t s)) s).
  { eapply Inv_mono; [|exact I]. intros f v. apply whole_step. }
  apply step_inv; [apply whole_len| |exact I'].
  intros th c rest f ws Ht Hc Hins Hw. right.
  assert (Hlen : (t < length (threads s))%nat) by (eapply lookup_lt_Some; exact Ht).
  exists t, (advance th), c. split; [|split; [|exact Hw]].
  - unfold step. rewrite Ht, Hc, Hins. cbn [threads].
    apply list_lookup_insert_eq. exact Hlen.
  - right. exists rest. split; [exact Hc|]. cbn [pc advance].
    apply body_Unlock in Hins as (f' & ws' & Hw' & ->).
    rewrite (body_length_w c f' ws' Hw'). reflexivity.
Qed.

Lemma run_whole sched : forall s, Inv (whole s) s -> Inv (whole (run sched s)) (run sched s).
Proof.
  induction sched as [|t sched IH]; intros s I; [exact I|].
  apply IH. apply step_whole. exact I.
Qed.

Lemma count_spawn (p : Thread -> bool) progs :
  (forall th, pc th = 0%nat -> p th = false) -> count p (map spawn progs) = 0%nat.
Proof.
  intros H. induction progs as [|cs progs IH]; [reflexivity|].
  simpl. rewrite IH, (H (spawn cs) eq_refl). reflexivity.
Qed.

Lemma lookup_spawn progs : forall t th,
  map spawn progs !! t = Some th -> exists cs, In cs progs /\ th = spawn cs.
Proof.
  induction progs as [|cs progs IH]; intros t th H; [discriminate|].
  destruct t as [|t]; simpl in H.
  - injection H as <-. exists cs. split; [left|]; reflexivity.
  - destruct (IH t th H) as (cs' & Hin & ->). exists cs'. split; [right|]; auto.
Qed.

Lemma init_inv progs : Inv (whole (init progs)) (init progs).
Proof.
  constructor; cbn [init mu mem threads writer readers].
  - apply count_spawn. intros th H. apply (holds_start th H).
  - apply count_spawn. intros th H. apply (holds_start th H).
  - discriminate.
  - intros _ f. left. reflexivity.
  - intros t th H. apply lookup_spawn in H as (cs & Hin & ->).
    destruct (holds_start (spawn cs) eq_refl) as [HW HR].
    constructor; cbn [spawn calls pc regs rets].
    + intros f v [].
    + destruct cs; [reflexivity|lia].
    + reflexivity.
    + intros c rest f ws _ _ H. congruence.
    + intros c rest f _ Hr. split; [congruence|].
      rewrite (body_length_r c f Hr). discriminate.
Qed.

(** The invariant holds after every schedule. *)
Lemma reachable_inv progs sched :
  Inv (whole (run sched (init progs))) (run sched (init progs)).
Proof. apply run_whole, init_inv. Qed.

(** A goroutine about to store holds the lock as the writer, one about to
    load holds it as a reader. *)
Lemma nextAccess_write th f i : nextAccess th = Some (f, i, true) -> holdsW th = true.
Proof.
  unfold nextAccess. destruct (calls th) as [|c rest] eqn:Hc; [discriminate|].
  destruct (body c !! pc th) as [[]|] eqn:Hins; try discriminate.
  intros _. apply body_Store in Hins as (ws & Hw & Hpc & Hi).
  apply lookup_lt_Some in Hi.
  apply (holdsW_spec th c rest _ ws Hc Hw). lia.
Qed.

Lemma nextAccess_read th f i : nextAccess th = Some (f, i, false) -> holdsR th = true.
Proof.
  unfold nextAccess. destruct (calls th) as [|c rest] eqn:Hc; [discriminate|].
  destruct (body c !! pc th) as [[]|] eqn:Hins; try discriminate.
  intros _. apply body_Load in Hins as (Hr & Hpc & Hi).
  apply (holdsR_spec th c rest _ Hc Hr). lia.
Qed.

(** C8.  Whatever calls the goroutines make and however they are
    scheduled, at every moment: a goroutine about to write a word of a field
    holds the lock as the writer, and one about to read a word holds it as a
    reader while no writer holds it; while a goroutine holds the lock as the
    writer no other goroutine holds it in either mode; no two goroutines are
    about to access the same field with one of them writing (no data race);
    and every value a getter has returned is the zero value of its field or
    the words that one setter call has written in full, never a mix. *)
Theorem accessors_exclusive
    (progs : list (list Call)) (sched : list nat) (t1 t2 : nat) (th1 th2 : Thread) :
  threads (run sched (init progs)) !! t1 = Some th1 ->
  threads (run sched (init progs)) !! t2 = Some th2 ->
  t1 <> t2 ->
  (forall f i, nextAccess th1 = Some (f, i, true) ->
     holdsW th1 = true /\ writer (mu (run sched (init progs))) = true) /\
  (forall f i, nextAccess th1 = Some (f, i, false) ->
     holdsR th1 = true /\ writer (mu (run sched (init progs))) = false) /\
  (holdsW th1 = true -> holdsW th2 = false /\ holdsR th2 = false) /\
  (forall a b, nextAccess th1 = Some a -> nextAccess th2 = Some b ->
     conflict a b = false) /\
  (forall f v, In (f, v) (rets th1) ->
     v = zeroWords f \/ written (run sched (init progs)) f v).
Proof.
  intros H1 H2 Hne.
  pose proof (reachable_inv progs sched) as I.
  set (s := run sched (init progs)) in *.
  split; [|split; [|split; [|split]]].
  - intros f i Ha. pose proof (nextAccess_write th1 f i Ha) as HW.
    split; [exact HW|]. apply (writer_flag _ s t1 th1 I H1 HW).
  - intros f i Ha. pose proof (nextAccess_read th1 f i Ha) as HR.
    split; [exact HR|]. apply (reader_flag _ s t1 th1 I H1 HR).
  - intros HW. apply (others_idle _ s t1 th1 t2 th2 I H1 HW); [congruence|exact H2].
  - intros [[f i] wa] [[g j] wb] Ha Hb. unfold conflict.
    destruct wa.
    + pose proof (nextAccess_write th1 f i Ha) as HW.
      destruct (others_idle _ s t1 th1 t2 th2 I H1 HW) as [HW2 HR2];
        [congruence|exact H2|].
      destruct wb.
      * rewrite (nextAccess_write th2 g j Hb) in HW2. discriminate.
      * rewrite (nextAccess_read th2 g j Hb) in HR2. discriminate.
    + destruct wb; [|apply andb_false_r].
      pose proof (nextAccess_write th2 g j Hb) as HW.
      destruct (others_idle _ s t2 th2 t1 th1 I H2 HW Hne H1) as [_ HR1].
      rewrite (nextAccess_read th1 f i Ha) in HR1. discriminate.
  - intros f v Hin. apply (ti_rets _ _ _ (inv_threads _ s I t1 th1 H1) f v Hin).
Qed.

(** The run above: the reader gets the words of the one setter call. *)
Lemma accessors_exclusive_witness :
  exists th1 th2,
    threads (run demoSched (init demoProgs)) !! 1%nat = Some th1 /\
    threads (run demoSched (init demoProgs)) !! 0%nat = Some th2 /\
    rets th1 = [(FGPUIDs, [4096; 2; 2])] /\
    (forall a b, nextAccess th1 = Some a -> nextAccess th2 = Some b ->
       conflict a b = false) /\
    (forall f v, In (f, v) (rets th1) ->
       v = zeroWords f \/ written (run demoSched (init demoProgs)) f v).
Proof.
  eexists. eexists.
  split; [vm_compute; reflexivity|].
  split; [vm_compute; reflexivity|].
  split; [reflexivity|].
  eapply (accessors_exclusive demoProgs demoSched 1 0).
  - vm_compute. reflexivity.
  - vm_compute. reflexivity.
  - discriminate.
Defined.

(** A goroutine alone: the getter returns the words the setter stored, for
    every header. *)
Example solo_GPUIDs (h : SliceHeader) :
  rets <$> threads (run (replicate 12 0%nat) (init [[CSetGPUIDs h; CGetGPUIDs]])) !! 0%nat
  = Some [(FGPUIDs, sliceWords h)].
Proof. reflexivity. Qed.

Example solo_DriverVersion (h : StringHeader) :
  rets <$> threads (run (replicate 10 0%nat)
                      (init [[CSetDriverVersion h; CGetDriverVersion]])) !! 0%nat
  = Some [(FDriverVersion, stringWords h)].
Proof. reflexivity. Qed.

Example solo_RuntimeVersion (h : StringHeader) :
  rets <$> threads (run (replicate 10 0%nat)
                      (init [[CSetRuntimeVersion h; CGetRuntimeVersion]])) !! 0%nat
  = Some [(FNvidiaDockerVersion, stringWords h)].
Proof. reflexivity. Qed.

(** Readers share the lock: two goroutines are inside [GetGPUIDs] at once. *)
Example readers_share :
  let s := run [0; 1]%nat (init [[CGetGPUIDs]; [CGetGPUIDs]]) in
  count holdsR (threads s) = 2%nat /\ readers (mu s) = 2%nat.
Proof. split; reflexivity. Qed.

(** A writer waits for a reader, and a reader for a writer. *)
Example writer_waits :
  let s := run [1; 0; 0]%nat (init demoProgs) in
  count holdsW (threads s) = 0%nat /\ count holdsR (threads s) = 1%nat.
Proof. split; reflexivity. Qed.

Example reader_waits :
  let s := run [0; 1; 1]%nat (init demoProgs) in
  count holdsW (threads s) = 1%nat /\ count holdsR (threads s) = 0%nat.
Proof. split; reflexivity. Qed.

End Schedules.

(* ------------------------------------------------------------------ *)
(** ** Further properties: reading the file, the setters *)

(** X1.  [GetGPUInfo] returns either the bytes read and no error, or no
    bytes and an error, never both; it leaves the file system as it is; when
    [Open] fails it returns that error and makes no other call; when [Open]
    succeeds it reads and then closes the file, whether the read fails (the
    read error is returned and the bytes read so far are dropped) or not (the
    bytes are returned). *)
Theorem GetGPUInfo_closes (w : World) :
  (snd (eval GetGPUInfo w) = None \/ fst (eval GetGPUInfo w) = []) /\
  fs (exec GetGPUInfo w) = fs w /\
  (forall e, open_err (fs w) NvidiaGPUInfoFilePath = Some e ->
     eval GetGPUInfo w = ([], Some e) /\
     trace (exec GetGPUInfo w) = trace w ++ [EvOpen NvidiaGPUInfoFilePath]) /\
  (open_err (fs w) NvidiaGPUInfoFilePath = None ->
     trace (exec GetGPUInfo w) =
     trace w ++ [EvOpen NvidiaGPUInfoFilePath; EvReadAll NvidiaGPUInfoFilePath;
                 EvClose NvidiaGPUInfoFilePath] /\
     (forall partial e, read_all (fs w) NvidiaGPUInfoFilePath = (partial, Some e) ->
        eval GetGPUInfo w = ([], Some e)) /\
     (forall gpuJSON, read_all (fs w) NvidiaGPUInfoFilePath = (gpuJSON, None) ->
        eval GetGPUInfo w = (gpuJSON, None))).
Proof.
  unfold eval, exec. rewrite GetGPUInfo_run.
  destruct (open_err (fs w) NvidiaGPUInfoFilePath) as [e|] eqn:Ho; cbn [fst snd].
  - split; [right; reflexivity|]. split; [reflexivity|]. split.
    + intros e' [= <-]. split; reflexivity.
    + discriminate.
  - split; [|split; [reflexivity|split; [discriminate|]]].
    + destruct (read_all (fs w) NvidiaGPUInfoFilePath) as [d [e|]]; auto.
    + intros _. split; [|split].
      * unfold log; cbn [fs trace]. rewrite <- !app_assoc. reflexivity.
      * intros partial e ->. reflexivity.
      * intros gpuJSON ->. reflexivity.
Qed.

(** X2.  [Initialize] changes the manager in full or not at all.  When it
    returns an error the manager is as before the call: the snapshot is
    decoded into a local variable and the setters run after the last error
    check.  And either the manager is as before, or what the call returns
    and leaves does not depend on what the manager held: no field of the old
    manager survives a successful load. *)
Theorem Initialize_all_or_nothing (w : World) (n : NvidiaGPUManager) :
  (forall e, fst (eval (Initialize n) w) = Some e -> snd (eval (Initialize n) w) = n) /\
  (snd (eval (Initialize n) w) = n \/
   forall n2, eval (Initialize n2) w = eval (Initialize n) w).
Proof.
  split.
  - rewrite Initialize_eval.
    destruct (IsNotExist _); [discriminate|].
    destruct (open_err _ _); [reflexivity|].
    destruct (read_all _ _) as [d [e|]]; [reflexivity|].
    destruct (json.Unmarshal d zero) as [[e|] info]; [reflexivity|discriminate].
  - rewrite Initialize_eval.
    destruct (IsNotExist (stat_err (fs w) NvidiaGPUInfoFilePath)) eqn:Hs; [left; reflexivity|].
    destruct (open_err (fs w) NvidiaGPUInfoFilePath) eqn:Ho; [left; reflexivity|].
    destruct (read_all (fs w) NvidiaGPUInfoFilePath) as [d [e|]] eqn:Hr; [left; reflexivity|].
    destruct (json.Unmarshal d zero) as [[e|] info] eqn:HU; [left; reflexivity|].
    right. intros n2. rewrite Initialize_eval, Hs, Ho, Hr, HU. reflexivity.
Qed.

(** X3.  How the setters compose: of two calls of one setter the last one
    wins; setters of different fields commute, so the order of the three
    calls in [Initialize] does not matter for the manager it leaves; and
    writing back what the getters return changes nothing. *)
Theorem setters_compose (n : NvidiaGPUManager) :
  (forall a b, SetDriverVersion a (SetDriverVersion b n) = SetDriverVersion a n) /\
  (forall a b, SetRuntimeVersion a (SetRuntimeVersion b n) = SetRuntimeVersion a n) /\
  (forall a b, SetGPUIDs a (SetGPUIDs b n) = SetGPUIDs a n) /\
  (forall d r, SetDriverVersion d (SetRuntimeVersion r n) =
               SetRuntimeVersion r (SetDriverVersion d n)) /\
  (forall d ids, SetDriverVersion d (SetGPUIDs ids n) =
                 SetGPUIDs ids (SetDriverVersion d n)) /\
  (forall r ids, SetRuntimeVersion r (SetGPUIDs ids n) =
                 SetGPUIDs ids (SetRuntimeVersion r n)) /\
  SetDriverVersion (GetDriverVersion n)
    (SetRuntimeVersion (GetRuntimeVersion n) (SetGPUIDs (GetGPUIDs n) n)) = n.
Proof. destruct n. repeat split. Qed.

(** X11.  [CheckForGPUInfoFile] reports the file absent exactly when
    [os.Stat] fails with a path error whose cause is [ENOENT]; a [Stat] that
    succeeds and a [Stat] that fails for any other reason (permission denied
    on the way, say) both report it present.  The function makes the one
    [Stat] call: it does not open the file and changes nothing. *)
Theorem CheckForGPUInfoFile_absent_iff (w : World) :
  (eval CheckForGPUInfoFile w = false <->
   exists op path,
     stat_err (fs w) NvidiaGPUInfoFilePath = Some (PathError op path ENOENT)) /\
  fs (exec CheckForGPUInfoFile w) = fs w /\
  trace (exec CheckForGPUInfoFile w) = trace w ++ [EvStat NvidiaGPUInfoFilePath].
Proof.
  unfold eval, exec. rewrite CheckForGPUInfoFile_run. cbn [fst snd log fs trace].
  split; [|split; reflexivity].
  unfold IsNotExist.
  destruct (stat_err (fs w) NvidiaGPUInfoFilePath) as [[op path e| | |]|]; cbn [negb].
  - split.
    + intros H. apply negb_false_iff, Z.eqb_eq in H. subst e. eauto.
    + intros (op' & path' & [= _ _ ->]). reflexivity.
  - split; [discriminate|]. intros (op' & path' & [=]).
  - split; [discriminate|]. intros (op' & path' & [=]).
  - split; [discriminate|]. intros (op' & path' & [=]).
  - split; [discriminate|]. intros (op' & path' & [=]).
Qed.

(* ------------------------------------------------------------------ *)
(** ** Further properties: the lock *)

Section Liveness.
Import Concurrent.

Lemma count_zero (p : Thread -> bool) (l : list Thread) :
  (forall t th, l !! t = Some th -> p th = false) -> count p l = 0%nat.
Proof.
  induction l as [|a l IH]; intros H; [reflexivity|].
  simpl. rewrite (H 0%nat a eq_refl), IH; [reflexivity|].
  intros t th Ht. apply (H (S t) th Ht).
Qed.

Lemma count_exists (p : Thread -> bool) (l : list Thread) :
  (1 <= count p l)%nat -> exists t th, l !! t = Some th /\ p th = true.
Proof.
  induction l as [|a l IH]; simpl; [lia|].
  destruct (p a) eqn:Ha.
  - intros _. exists 0%nat, a. auto.
  - intros H. destruct (IH H) as (t & th & Ht & Hp). exists (S t), th. auto.
Qed.

Lemma run_app (a b : list nat) (s : State) : run (a ++ b) s = run b (run a s).
Proof. unfold run. apply fold_left_app. Qed.

(** With every goroutine between calls the lock is free. *)
Lemma idle_free P s :
  Inv P s -> (forall t th, threads s !! t = Some th -> pc th = 0%nat) ->
  writer (mu s) = false /\ readers (mu s) = 0%nat.
Proof.
  intros I H.
  assert (CW : count holdsW (threads s) = 0%nat).
  { apply count_zero. intros t th Ht. apply (holds_start th (H t th Ht)). }
  assert (CR : count holdsR (threads s) = 0%nat).
  { apply count_zero. intros t th Ht. apply (holds_start th (H t th Ht)). }
  rewrite (inv_writer _ s I) in CW. rewrite (inv_readers _ s I) in CR.
  split; [destruct (writer (mu s)); [discriminate|reflexivity]|exact CR].
Qed.

(** X4.  An accessor releases the lock only while it holds it, and in the
    mode in which it took it: in every reachable state a goroutine whose
    next instruction is [Unlock] holds the lock as the writer, and one whose
    next instruction is [RUnlock] holds it as a reader, and the mutex agrees.
    (Go panics on an unlock of an unlocked mutex.) *)
Theorem unlock_held (progs : list (list Call)) (sched : list nat)
    (t : nat) (th : Thread) (c : Call) (rest : list Call) :
  threads (run sched (init progs)) !! t = Some th ->
  calls th = c :: rest ->
  (body c !! pc th = Some Unlock ->
   holdsW th = true /\ writer (mu (run sched (init progs))) = true) /\
  (body c !! pc th = Some RUnlock ->
   holdsR th = true /\ (1 <= readers (mu (run sched (init progs))))%nat).
Proof.
  intros Ht Hc. pose proof (reachable_inv progs sched) as I.
  split; intros E.
  - apply body_Unlock in E as (f & ws & Hw & Hpc).
    assert (HW : holdsW th = true).
    { apply (holdsW_spec th c rest f ws Hc Hw). lia. }
    split; [exact HW|]. eapply writer_flag; eassumption.
  - apply body_RUnlock in E as (f & Hr & Hpc).
    assert (HR : holdsR th = true).
    { apply (holdsR_spec th c rest f Hc Hr). lia. }
    split; [exact HR|]. eapply reader_flag; eassumption.
Qed.

Lemma unlock_held_witness :
  holdsW {| calls := [CSetGPUIDs demoHeader]; pc := 4%nat; regs := []; rets := [];
            returned := [] |} = true /\
  writer (mu (run beforeUnlock (init demoProgs))) = true.
Proof.
  apply (unlock_held demoProgs beforeUnlock 0
           {| calls := [CSetGPUIDs demoHeader]; pc := 4%nat; regs := []; rets := [];
              returned := [] |} (CSetGPUIDs demoHeader) []).
  - vm_compute. reflexivity.
  - reflexivity.
  - reflexivity.
Defined.

(** X6.  Whenever no goroutine is inside a call, the lock is free (no
    writer, no reader) and every field holds a whole value: its zero value
    or the words of one setter call. *)
Theorem quiescent (progs : list (list Call)) (sched : list nat) :
  (forall t th, threads (run sched (init progs)) !! t = Some th -> pc th = 0%nat) ->
  writer (mu (run sched (init progs))) = false /\
  readers (mu (run sched (init progs))) = 0%nat /\
  forall f, whole (run sched (init progs)) f (mem (run sched (init progs)) f).
Proof.
  intros H. pose proof (reachable_inv progs sched) as I.
  destruct (idle_free _ _ I H) as [Hw Hr].
  split; [exact Hw|]. split; [exact Hr|]. apply (inv_mem _ _ I Hw).
Qed.

(** The run of the writer and the reader to its end. *)
Lemma quiescent_witness :
  writer (mu (run demoSched (init demoProgs))) = false /\
  readers (mu (run demoSched (init demoProgs))) = 0%nat /\
  forall f, whole (run demoSched (init demoProgs)) f
              (mem (run demoSched (init demoProgs)) f).
Proof.
  apply (quiescent demoProgs demoSched).
  intros t th.
  assert (E : threads (run demoSched (init demoProgs)) =
              [{| calls := []; pc := 0%nat; regs := []; rets := [];
                  returned := [CSetGPUIDs demoHeader] |};
               {| calls := []; pc := 0%nat; regs := [];
                  rets := [(FGPUIDs, [4096; 2; 2])]; returned := [CGetGPUIDs] |}]).
  { vm_compute. reflexivity. }
  rewrite E. destruct t as [|[|t]]; simpl; intros [= <-]; reflexivity.
Defined.

(** X7.  While a goroutine holds the lock as the writer, a step of any
    other goroutine changes neither the memory nor the mutex: the others
    wait, return from a call or do nothing. *)
Theorem writer_shields (progs : list (list Call)) (sched : list nat)
    (t t' : nat) (th : Thread) :
  threads (run sched (init progs)) !! t = Some th ->
  holdsW th = true ->
  t' <> t ->
  mem (step t' (run sched (init progs))) = mem (run sched (init progs)) /\
  mu (step t' (run sched (init progs))) = mu (run sched (init progs)).
Proof.
  intros Ht HW Hne. pose proof (reachable_inv progs sched) as I.
  set (s := run sched (init progs)) in *.
  pose proof (writer_flag _ s t th I Ht HW) as Hw.
  unfold step.
  destruct (threads s !! t') as [th'|] eqn:Ht'; [|auto].
  destruct (others_idle _ s t th t' th' I Ht HW Hne Ht') as [HW' HR'].
  destruct (calls th') as [|c rest] eqn:Hc; [auto|].
  destruct (body c !! pc th') as [[]|] eqn:E; try (split; reflexivity).
  - rewrite Hw. auto.
  - exfalso. apply body_Unlock in E as (f & ws & Hwr & Hpc).
    assert (holdsW th' = true) by (apply (holdsW_spec th' c rest f ws Hc Hwr); lia).
    congruence.
  - rewrite Hw. auto.
  - exfalso. apply body_RUnlock in E as (f & Hr & Hpc).
    assert (holdsR th' = true) by (apply (holdsR_spec th' c rest f Hc Hr); lia).
    congruence.
  - exfalso. apply body_Store in E as (ws & Hwr & Hpc & Hi). apply lookup_lt_Some in Hi.
    assert (holdsW th' = true) by (apply (holdsW_spec th' c rest f ws Hc Hwr); lia).
    congruence.
Qed.

Lemma writer_shields_witness :
  mem (step 1 (run [0; 0]%nat (init demoProgs))) = mem (run [0; 0]%nat (init demoProgs)) /\
  mu (step 1 (run [0; 0]%nat (init demoProgs))) = mu (run [0; 0]%nat (init demoProgs)).
Proof.
  apply (writer_shields demoProgs [0; 0]%nat 0 1
           {| calls := [CSetGPUIDs demoHeader]; pc := 2%nat; regs := []; rets := [];
              returned := [] |}).
  - vm_compute. reflexivity.
  - reflexivity.
  - discriminate.
Defined.
End Liveness.

Section GoLock.
Import Concurrent.

(** Replacing a goroutine changes the work by the difference. *)
Lemma work_insert l : forall t th th',
  l !! t = Some th ->
  (work (<[t := th']> l) + remaining th = work l + remaining th')%nat.
Proof.
  induction l as [|a l IH]; intros [|t] th th' H; simpl in *; try discriminate.
  - injection H as ->. lia.
  - specialize (IH t th th' H). lia.
Qed.

Lemma work_zero l :
  work l = 0%nat ->
  (forall t th, l !! t = Some th -> inBody th) ->
  forall t th, l !! t = Some th -> calls th = [].
Proof.
  induction l as [|a l IH]; intros W B [|t] th H; simpl in *; try discriminate.
  - injection H as ->. specialize (B 0%nat th eq_refl). unfold inBody, remaining in *.
    destruct (calls th) as [|c rest]; [reflexivity|]. simpl in W. lia.
  - apply (IH ltac:(lia) (fun t th H => B (S t) th H) t th H).
Qed.

Lemma work_pos l :
  (1 <= work l)%nat -> exists t th, l !! t = Some th /\ calls th <> [].
Proof.
  induction l as [|a l IH]; simpl; [lia|]. intros W.
  destruct (calls a) as [|c rest] eqn:Hc.
  - unfold remaining in W. rewrite Hc in W. simpl in W.
    destruct (IH W) as (t & th & Ht & Hn). exists (S t), th. auto.
  - exists 0%nat, a. split; [reflexivity|congruence].
Qed.

(** No step changes the calls a goroutine was started with. *)
Lemma step_program t s : map programOf (threads (step t s)) = map programOf (threads s).
Proof.
  unfold step. destruct (threads s !! t) as [th|] eqn:Ht; [|reflexivity].
  assert (Hins : forall th', programOf th' = programOf th ->
                 map programOf (<[t := th']> (threads s)) = map programOf (threads s)).
  { intros th' Hp.
    change (programOf <$> <[t := th']> (threads s) = programOf <$> threads s).
    rewrite list_fmap_insert, Hp. apply list_insert_id.
    rewrite list_lookup_fmap, Ht. reflexivity. }
  destruct (calls th) as [|c rest] eqn:Hc; [reflexivity|].
  assert (Hsame : forall th', calls th' = c :: rest -> returned th' = returned th ->
                  programOf th' = programOf th).
  { intros th' H1 H2. unfold programOf. rewrite H1, H2, Hc. reflexivity. }
  destruct (body c !! pc th) as [[]|]; cbn [threads];
    try (destruct (writer (mu s) || (0 <? readers (mu s))%nat); [reflexivity|]);
    try (destruct (writer (mu s)); [reflexivity|]);
    cbn [threads]; try (apply Hins, Hsame; [first [exact Hc|reflexivity]|reflexivity]).
  apply Hins. unfold programOf. cbn [finish returned calls].
  rewrite Hc, <- app_assoc. reflexivity.
Qed.


Lemma nextInstr_Some s t i :
  nextInstr s t = Some i ->
  exists th c rest, threads s !! t = Some th /\ calls th = c :: rest /\
                    body c !! pc th = Some i.
Proof.
  unfold nextInstr. destruct (threads s !! t) as [th|]; [|discriminate].
  destruct (calls th) as [|c rest] eqn:Hc; [discriminate|].
  intros H. exists th, c, rest. auto.
Qed.

Lemma nextInstr_eq s t th c rest :
  threads s !! t = Some th -> calls th = c :: rest -> nextInstr s t = body c !! pc th.
Proof. intros Ht Hc. unfold nextInstr. rewrite Ht, Hc. reflexivity. Qed.

Lemma step_threads_other t s t' :
  t' <> t -> threads (step t s) !! t' = threads s !! t'.
Proof.
  intros Hne. unfold step.
  destruct (threads s !! t) as [th|]; [|reflexivity].
  destruct (calls th) as [|c rest]; [reflexivity|].
  destruct (body c !! pc th) as [[]|];
    repeat match goal with
           | |- context [if ?b then _ else _] => destruct b
           end;
    cbn [threads]; try reflexivity; apply list_lookup_insert_ne; congruence.
Qed.

Lemma nextInstr_other t s t' : t' <> t -> nextInstr (step t s) t' = nextInstr s t'.
Proof. intros Hne. unfold nextInstr. rewrite step_threads_other by exact Hne. reflexivity. Qed.

Lemma step_length t s : length (threads (step t s)) = length (threads s).
Proof.
  unfold step.
  destruct (threads s !! t) as [th|]; [|reflexivity].
  destruct (calls th) as [|c rest]; [reflexivity|].
  destruct (body c !! pc th) as [[]|];
    repeat match goal with
           | |- context [if ?b then _ else _] => destruct b
           end;
    cbn [threads]; try reflexivity; apply length_insert.
Qed.

Lemma run_length l : forall s, length (threads (run l s)) = length (threads s).
Proof.
  induction l as [|t l IH]; intros s; [reflexivity|].
  cbn [run fold_left]. change (fold_left (fun s t => step t s) l (step t s)) with (run l (step t s)).
  rewrite IH. apply step_length.
Qed.

(** Only [Lock] and [Unlock] change whether a writer holds the lock. *)
Lemma step_writer t s :
  nextInstr s t <> Some Lock -> nextInstr s t <> Some Unlock ->
  writer (mu (step t s)) = writer (mu s).
Proof.
  unfold nextInstr, step.
  destruct (threads s !! t) as [th|]; [|reflexivity].
  destruct (calls th) as [|c rest]; [reflexivity|].
  destruct (body c !! pc th) as [[]|]; intros H1 H2; try congruence; try reflexivity.
  destruct (writer (mu s)) eqn:E; [exact E|reflexivity].
Qed.

(** A goroutine that does not have to wait changes the state. *)
Lemma step_moves t s th c rest :
  threads s !! t = Some th -> calls th = c :: rest ->
  (body c !! pc th = Some Lock -> writer (mu s) = false /\ readers (mu s) = 0%nat) ->
  (body c !! pc th = Some RLock -> writer (mu s) = false) ->
  step t s <> s.
Proof.
  intros Ht Hc HL HR Heq.
  assert (Hlen : (t < length (threads s))%nat) by (eapply lookup_lt_Some; exact Ht).
  assert (Hadv : forall th', pc th' = S (pc th) ->
                 forall m' mm', {| mu := m'; mem := mm';
                                   threads := <[t := th']> (threads s) |} <> s).
  { intros th' Hpc m' mm' H. apply (f_equal (fun x => threads x !! t)) in H.
    cbn [threads] in H. rewrite list_lookup_insert_eq in H by exact Hlen.
    rewrite Ht in H. injection H as H. rewrite H in Hpc. lia. }
  unfold step in Heq. rewrite Ht, Hc in Heq.
  destruct (body c !! pc th) as [[]|] eqn:E.
  - destruct (HL eq_refl) as [Hw Hr]. rewrite Hw, Hr in Heq. cbn in Heq.
    eapply Hadv; [|exact Heq]. reflexivity.
  - eapply Hadv; [|exact Heq]. reflexivity.
  - rewrite (HR eq_refl) in Heq. eapply Hadv; [|exact Heq]. reflexivity.
  - eapply Hadv; [|exact Heq]. reflexivity.
  - eapply Hadv; [|exact Heq]. reflexivity.
  - eapply Hadv; [|exact Heq]. reflexivity.
  - apply (f_equal (fun x => threads x !! t)) in Heq. cbn [threads] in Heq.
    rewrite list_lookup_insert_eq in Heq by exact Hlen. rewrite Ht in Heq.
    injection Heq as Heq. apply (f_equal (fun x => length (calls x))) in Heq.
    cbn [calls finish] in Heq. rewrite Hc in Heq. simpl in Heq. lia.
Qed.

(** A step that changes the state is one step of the work. *)
Lemma step_work t s th :
  threads s !! t = Some th -> inBody th -> step t s <> s ->
  S (work (threads (step t s))) = work (threads s).
Proof.
  intros Ht Hb Hmv. unfold step, inBody in *. rewrite Ht in *.
  destruct (calls th) as [|c rest] eqn:Hc; [congruence|].
  assert (Hadv : forall th', calls th' = c :: rest -> pc th' = S (pc th) ->
                 (pc th < length (body c))%nat ->
                 S (work (<[t := th']> (threads s))) = work (threads s)).
  { intros th' Hc' Hpc' Hlt. pose proof (work_insert _ t th th' Ht) as W.
    unfold remaining in W. rewrite Hc', Hpc', Hc in W. simpl in W. lia. }
  destruct (body c !! pc th) as [[]|] eqn:E.
  - destruct (writer (mu s) || (0 <? readers (mu s))%nat); [congruence|]. cbn [threads].
    apply Hadv; [exact Hc|reflexivity|]. eapply lookup_lt_Some; exact E.
  - cbn [threads]. apply Hadv; [exact Hc|reflexivity|]. eapply lookup_lt_Some; exact E.
  - destruct (writer (mu s)); [congruence|]. cbn [threads].
    apply Hadv; [exact Hc|reflexivity|]. eapply lookup_lt_Some; exact E.
  - cbn [threads]. apply Hadv; [exact Hc|reflexivity|]. eapply lookup_lt_Some; exact E.
  - cbn [threads]. apply Hadv; [exact Hc|reflexivity|]. eapply lookup_lt_Some; exact E.
  - cbn [threads]. apply Hadv; [reflexivity|reflexivity|]. eapply lookup_lt_Some; exact E.
  - cbn [threads]. apply lookup_ge_None in E.
    pose proof (work_insert _ t th (finish c th) Ht) as W.
    unfold remaining in W. cbn [finish calls pc] in W. rewrite Hc in W. simpl in W. lia.
Qed.

Lemma Inv_inBody P s t th : Inv P s -> threads s !! t = Some th -> inBody th.
Proof. intros I Ht. exact (ti_pc _ _ _ (inv_threads _ _ I t th Ht)). Qed.

(** What a goroutine inside a setter does next. *)
Lemma holdsW_next th c rest :
  calls th = c :: rest -> holdsW th = true ->
  exists f ws, writes c = Some (f, ws) /\
    ((exists i w, body c !! pc th = Some (Store f i w) /\ pc th = S i /\
                  (i < length ws)%nat) \/
     (body c !! pc th = Some Unlock /\ pc th = S (length ws))).
Proof.
  intros Hc H.
  assert (Hw : exists f ws, writes c = Some (f, ws)).
  { unfold holdsW in H. rewrite Hc in H. destruct (writes c) as [[f ws]|]; [eauto|discriminate]. }
  destruct Hw as (f & ws & Hw). exists f, ws. split; [exact Hw|].
  apply (holdsW_spec th c rest f ws Hc Hw) in H.
  destruct (writes_body c f ws Hw) as (Hb & _ & _).
  destruct (lookup_lt_is_Some_2 (body c) (pc th)) as [ins Hins].
  { rewrite Hb, setter_length. lia. }
  rewrite Hins. rewrite Hb in Hins.
  apply setter_lookup in Hins as [[H0 _]|[(i & w & Hk & Hi & ->)|[Hk ->]]].
  - lia.
  - left. exists i, w. split; [reflexivity|]. split; [exact Hk|].
    eapply lookup_lt_Some; exact Hi.
  - right. auto.
Qed.

(** What a goroutine inside a getter does next. *)
Lemma holdsR_next th c rest :
  calls th = c :: rest -> holdsR th = true ->
  exists f, reads c = Some f /\
    ((exists i, body c !! pc th = Some (Load f i)) \/ body c !! pc th = Some RUnlock).
Proof.
  intros Hc H.
  assert (Hr : exists f, reads c = Some f).
  { unfold holdsR in H. rewrite Hc in H. destruct (reads c) as [f|]; [eauto|discriminate]. }
  destruct Hr as (f & Hr). exists f. split; [exact Hr|].
  apply (holdsR_spec th c rest f Hc Hr) in H.
  destruct (reads_body c f Hr) as (Hb & _).
  destruct (lookup_lt_is_Some_2 (body c) (pc th)) as [ins Hins].
  { rewrite Hb, getter_length. lia. }
  rewrite Hins. rewrite Hb in Hins.
  apply getter_lookup in Hins as [[H0 _]|[(i & Hk & Hi & ->)|[Hk ->]]].
  - lia.
  - left. eauto.
  - right. reflexivity.
Qed.

Lemma holds_calls th : holdsW th = true \/ holdsR th = true -> exists c rest, calls th = c :: rest.
Proof.
  unfold holdsW, holdsR. destruct (calls th) as [|c rest]; [intros [H|H]; discriminate|eauto].
Qed.

Lemma queued_spec t l : existsb (Nat.eqb t) l = true <-> t ∈ l.
Proof.
  induction l as [|a l IH]; simpl.
  - split; [discriminate|]. intros H. inversion H.
  - rewrite orb_true_iff, IH, Nat.eqb_eq, elem_of_cons. split; intros [H|H]; auto.
Qed.

(** The cases of a step under Go's lock. *)
Lemma gstep_cases t g :
  (nextInstr (base g) t = Some Lock /\ wlock g = None /\
   gstep t g = {| base := base g; wlock := Some t; rwait := rwait g |}) \/
  (nextInstr (base g) t = Some Lock /\ wlock g = Some t /\
   readers (mu (base g)) = 0%nat /\
   gstep t g = {| base := step t (base g); wlock := Some t; rwait := rwait g |}) \/
  gstep t g = g \/
  (nextInstr (base g) t = Some RLock /\ wlock g = None /\
   gstep t g = {| base := step t (base g); wlock := None; rwait := rwait g |}) \/
  (nextInstr (base g) t = Some RLock /\ wlock g <> None /\ (t ∉ rwait g) /\
   gstep t g = {| base := base g; wlock := wlock g; rwait := rwait g ++ [t] |}) \/
  (nextInstr (base g) t = Some Unlock /\
   gstep t g = {| base := run (rwait g) (step t (base g)); wlock := None; rwait := [] |}) \/
  (nextInstr (base g) t <> Some Lock /\ nextInstr (base g) t <> Some RLock /\
   nextInstr (base g) t <> Some Unlock /\
   gstep t g = {| base := step t (base g); wlock := wlock g; rwait := rwait g |}).
Proof.
  unfold gstep. destruct (nextInstr (base g) t) as [[]|] eqn:E.
  - destruct (wlock g) as [o|] eqn:Ho; [|left; auto].
    destruct (o =? t)%nat eqn:Eo; [|right; right; left; reflexivity].
    destruct (readers (mu (base g)) =? 0)%nat eqn:Er; [|right; right; left; reflexivity].
    apply Nat.eqb_eq in Eo, Er. subst o. right. left. auto.
  - do 5 right. left. auto.
  - destruct (wlock g) as [o|] eqn:Ho; [|do 3 right; left; auto].
    destruct (existsb (Nat.eqb t) (rwait g)) eqn:Eq; [right; right; left; reflexivity|].
    do 4 right. left. split; [reflexivity|]. split; [congruence|]. split; [|reflexivity].
    intros H. apply queued_spec in H. congruence.
  - do 6 right. repeat split; congruence.
  - do 6 right. repeat split; congruence.
  - do 6 right. repeat split; congruence.
  - do 6 right. repeat split; congruence.
Qed.

(** The readers that waited for the writer take the read lock. *)
Lemma waiting_readers_enter l : forall s,
  NoDup l -> Inv (whole s) s -> writer (mu s) = false ->
  (forall q, q ∈ l -> nextInstr s q = Some RLock) ->
  writer (mu (run l s)) = false /\
  (work (threads (run l s)) + length l = work (threads s))%nat.
Proof.
  induction l as [|q l IH]; intros s Hnd I Hw Hq; [simpl; split; [exact Hw|lia]|].
  apply NoDup_cons in Hnd as [Hnq Hnd].
  change (run (q :: l) s) with (run l (step q s)).
  assert (Hq0 : nextInstr s q = Some RLock) by (apply Hq; left).
  destruct (nextInstr_Some s q RLock Hq0) as (th & c & rest & Ht & Hc & Hins).
  assert (Hmv : step q s <> s).
  { apply (step_moves q s th c rest Ht Hc); rewrite Hins; [discriminate|auto]. }
  pose proof (step_work q s th Ht (Inv_inBody _ _ _ _ I Ht) Hmv) as W.
  destruct (IH (step q s) Hnd (step_whole q s I)) as [Hw' W'].
  - rewrite step_writer; [exact Hw| |]; rewrite Hq0; discriminate.
  - intros q' Hq'. rewrite nextInstr_other; [apply Hq; right; exact Hq'|].
    intros ->. contradiction.
  - split; [exact Hw'|]. simpl. lia.
Qed.

Lemma gstep_inv t g : GInv g -> GInv (gstep t g).
Proof.
  intros [Ib If Io Iw In].
  destruct (gstep_cases t g) as
    [(Hi & Hw & ->)|[(Hi & Hw & Hr & ->)|[->|[(Hi & Hw & ->)|
     [(Hi & Hw & Hq & ->)|[(Hi & ->)|(H1 & H2 & H3 & ->)]]]]]].
  - (* announce *)
    destruct (If Hw) as [Hwr Hrw].
    constructor; cbn [base wlock rwait].
    + exact Ib.
    + discriminate.
    + intros o [= <-]. destruct (nextInstr_Some _ _ _ Hi) as (th & c & rest & Ht & _).
      exists th. auto.
    + exact Iw.
    + exact In.
  - (* the writer takes the lock *)
    destruct (nextInstr_Some _ _ _ Hi) as (th & c & rest & Ht & Hc & Hins).
    destruct (body_Lock c _ Hins) as (Hpc & f & ws & Hws).
    destruct (Io t Hw) as (th' & Ht' & [HW|[_ Hwr]]).
    { rewrite Ht in Ht'. injection Ht' as <-.
      destruct (holds_start th Hpc) as [HW' _]. congruence. }
    assert (Hlen : (t < length (threads (base g)))%nat) by (eapply lookup_lt_Some; exact Ht).
    assert (Hst : step t (base g) =
                  {| mu := {| writer := true; readers := readers (mu (base g)) |};
                     mem := mem (base g);
                     threads := <[t := advance th]> (threads (base g)) |}).
    { unfold step. rewrite Ht, Hc, Hins, Hwr, Hr. reflexivity. }
    constructor; cbn [base wlock rwait].
    + apply step_whole, Ib.
    + discriminate.
    + intros o [= <-]. exists (advance th). split.
      * rewrite Hst. cbn [threads]. apply list_lookup_insert_eq. exact Hlen.
      * left. apply (holdsW_spec (advance th) c rest f ws Hc Hws).
        cbn [advance pc]. lia.
    + intros q Hq. rewrite nextInstr_other; [apply Iw, Hq|].
      intros ->. rewrite (Iw t Hq) in Hi. discriminate.
    + exact In.
  - constructor; assumption.
  - (* a reader takes the lock *)
    destruct (If Hw) as [Hwr Hrw].
    constructor; cbn [base wlock rwait].
    + apply step_whole, Ib.
    + intros _. split; [|exact Hrw].
      rewrite step_writer; [exact Hwr| |]; rewrite Hi; discriminate.
    + discriminate.
    + rewrite Hrw. intros q Hq. inversion Hq.
    + exact In.
  - (* a reader waits *)
    constructor; cbn [base wlock rwait].
    + exact Ib.
    + intros H. congruence.
    + exact Io.
    + intros q Hq'. apply elem_of_app in Hq' as [Hq'|Hq']; [apply Iw, Hq'|].
      apply list_elem_of_singleton in Hq'. subst q. exact Hi.
    + apply NoDup_app. split; [exact In|]. split; [|apply NoDup_singleton].
      intros x Hx Hx'. apply list_elem_of_singleton in Hx'. subst x. contradiction.
  - (* the writer releases the lock *)
    destruct (nextInstr_Some _ _ _ Hi) as (th & c & rest & Ht & Hc & Hins).
    assert (Hwr : writer (mu (step t (base g))) = false).
    { unfold step. rewrite Ht, Hc, Hins. reflexivity. }
    assert (Hq : forall q, q ∈ rwait g -> nextInstr (step t (base g)) q = Some RLock).
    { intros q Hq. rewrite nextInstr_other; [apply Iw, Hq|].
      intros ->. rewrite (Iw t Hq) in Hi. discriminate. }
    destruct (waiting_readers_enter (rwait g) (step t (base g)) In (step_whole t _ Ib) Hwr Hq) as [Hw' _].
    constructor; cbn [base wlock rwait].
    + apply run_whole, step_whole, Ib.
    + auto.
    + discriminate.
    + intros q Hq'. inversion Hq'.
    + apply NoDup_nil_2.
  - (* any other instruction *)
    assert (Hwr : writer (mu (step t (base g))) = writer (mu (base g))).
    { apply step_writer; assumption. }
    constructor; cbn [base wlock rwait].
    + apply step_whole, Ib.
    + intros Hw. destruct (If Hw) as [Hw0 Hrw]. split; [congruence|exact Hrw].
    + intros o Ho. destruct (Io o Ho) as (th & Ht & Hh).
      destruct (decide (o = t)) as [->|Hne].
      * destruct Hh as [HW|[Hl _]]; [|congruence].
        destruct (holds_calls th (or_introl HW)) as (c & rest & Hc).
        destruct (holdsW_next th c rest Hc HW) as (f & ws & Hws & [(i & w & Hins & Hpc & Hi)|[Hins _]]).
        -- assert (Hlen : (t < length (threads (base g)))%nat)
             by (eapply lookup_lt_Some; exact Ht).
           exists (advance th). split.
           ++ unfold step. rewrite Ht, Hc, Hins. cbn [threads].
              apply list_lookup_insert_eq. exact Hlen.
           ++ left. apply (holdsW_spec (advance th) c rest f ws Hc Hws).
              cbn [advance pc]. lia.
        -- rewrite (nextInstr_eq _ _ _ _ _ Ht Hc) in H3. congruence.
      * exists th. split; [rewrite step_threads_other by exact Hne; exact Ht|].
        destruct Hh as [HW|[Hl Hw0]]; [left; exact HW|right].
        split; [rewrite nextInstr_other by exact Hne; exact Hl|congruence].
    + intros q Hq. rewrite nextInstr_other; [apply Iw, Hq|].
      intros ->. rewrite (Iw t Hq) in H2. congruence.
    + exact In.
Qed.

Lemma ginit_inv progs : GInv (ginit progs).
Proof.
  constructor; cbn [ginit base wlock rwait].
  - apply init_inv.
  - auto.
  - discriminate.
  - intros q Hq. inversion Hq.
  - apply NoDup_nil_2.
Qed.

Lemma grun_app a b g : grun (a ++ b) g = grun b (grun a g).
Proof. unfold grun. apply fold_left_app. Qed.

Lemma grun_inv sched : forall g, GInv g -> GInv (grun sched g).
Proof.
  induction sched as [|t sched IH]; intros g I; [exact I|].
  apply IH, gstep_inv, I.
Qed.

Lemma base_neq g b w r :
  b <> base g -> {| base := b; wlock := w; rwait := r |} <> g.
Proof. intros H E. apply H. rewrite <- E. reflexivity. Qed.

Lemma wlock_neq g b w r :
  w <> wlock g -> {| base := b; wlock := w; rwait := r |} <> g.
Proof. intros H E. apply H. rewrite <- E. reflexivity. Qed.

(** Under Go's lock too, while some goroutine has a call to make, some
    goroutine can step: the writer that holds the lock; when a writer waits,
    the writer itself once the readers are gone and a reader inside its
    getter before; anyone when no writer is about. *)
Lemma gprogress g t0 th0 :
  GInv g -> threads (base g) !! t0 = Some th0 -> calls th0 <> [] ->
  exists t, gstep t g <> g.
Proof.
  intros [Ib If Io Iw In] H0 Hne.
  assert (Hother : forall t th c rest,
             threads (base g) !! t = Some th -> calls th = c :: rest ->
             body c !! pc th <> Some Lock -> body c !! pc th <> Some RLock ->
             body c !! pc th <> Some Unlock ->
             gstep t g <> g).
  { intros t th c rest Ht Hc H1 H2 H3.
    assert (Hmv : step t (base g) <> base g).
    { apply (step_moves t _ th c rest Ht Hc); intros E; congruence. }
    unfold gstep. rewrite (nextInstr_eq _ _ _ _ _ Ht Hc).
    destruct (body c !! pc th) as [[]|]; try congruence; apply base_neq, Hmv. }
  destruct (wlock g) as [o|] eqn:Ho.
  - destruct (Io o eq_refl) as (th & Ht & [HW|[Hl Hwr]]).
    + destruct (holds_calls th (or_introl HW)) as (c & rest & Hc).
      destruct (holdsW_next th c rest Hc HW)
        as (f & ws & Hws & [(i & w & Hins & _)|[Hins _]]); exists o.
      * apply (Hother o th c rest Ht Hc); rewrite Hins; discriminate.
      * unfold gstep. rewrite (nextInstr_eq _ _ _ _ _ Ht Hc), Hins.
        apply wlock_neq. congruence.
    + destruct (nextInstr_Some _ _ _ Hl) as (th' & c & rest & Ht' & Hc & Hins).
      destruct (readers (mu (base g))) as [|k] eqn:Hr.
      * exists o. unfold gstep. rewrite Hl, Ho, Nat.eqb_refl, Hr. cbn.
        apply base_neq. apply (step_moves o _ th' c rest Ht' Hc).
        -- intros _. auto.
        -- rewrite Hins. discriminate.
      * pose proof (inv_readers _ _ Ib) as C. rewrite Hr in C.
        destruct (count_exists holdsR (threads (base g))) as (t & thr & Htr & Hh); [lia|].
        destruct (holds_calls thr (or_intror Hh)) as (cr & restr & Hcr).
        destruct (holdsR_next thr cr restr Hcr Hh) as (f & _ & [[i Hi]|Hi]);
          exists t; apply (Hother t thr cr restr Htr Hcr); rewrite Hi; discriminate.
  - destruct (If eq_refl) as [Hwr Hrw].
    destruct (calls th0) as [|c rest] eqn:Hc; [congruence|].
    exists t0.
    destruct (body c !! pc th0) as [ins|] eqn:Hins.
    + destruct ins.
      * unfold gstep. rewrite (nextInstr_eq _ _ _ _ _ H0 Hc), Hins, Ho.
        apply wlock_neq. congruence.
      * unfold gstep. rewrite (nextInstr_eq _ _ _ _ _ H0 Hc), Hins, Hrw.
        apply base_neq. cbn. apply (step_moves t0 _ th0 c rest H0 Hc);
          rewrite Hins; discriminate.
      * unfold gstep. rewrite (nextInstr_eq _ _ _ _ _ H0 Hc), Hins, Ho.
        apply base_neq. apply (step_moves t0 _ th0 c rest H0 Hc);
          rewrite Hins; [discriminate|auto].
      * apply (Hother t0 th0 c rest H0 Hc); rewrite Hins; discriminate.
      * apply (Hother t0 th0 c rest H0 Hc); rewrite Hins; discriminate.
      * apply (Hother t0 th0 c rest H0 Hc); rewrite Hins; discriminate.
    + apply (Hother t0 th0 c rest H0 Hc); rewrite Hins; discriminate.
Qed.

(** A writer that has announced itself and finds no reader takes the
    lock. *)
Lemma acquire g t :
  GInv g -> nextInstr (base g) t = Some Lock -> wlock g = Some t ->
  readers (mu (base g)) = 0%nat ->
  writer (mu (base g)) = false /\
  writer (mu (step t (base g))) = true /\
  step t (base g) <> base g.
Proof.
  intros [Ib If Io Iw In] Hi Hw Hr.
  destruct (nextInstr_Some _ _ _ Hi) as (th & c & rest & Ht & Hc & Hins).
  destruct (body_Lock c _ Hins) as (Hpc & f & ws & Hws).
  destruct (Io t Hw) as (th' & Ht' & [HW|[_ Hwr]]).
  { rewrite Ht in Ht'. injection Ht' as <-.
    destruct (holds_start th Hpc) as [HW' _]. congruence. }
  split; [exact Hwr|]. split.
  - unfold step. rewrite Ht, Hc, Hins, Hwr, Hr. reflexivity.
  - apply (step_moves t _ th c rest Ht Hc); [auto|rewrite Hins; discriminate].
Qed.

(** Every step that changes the state lowers the potential. *)
Lemma gstep_potential t g :
  GInv g -> gstep t g <> g -> potential (gstep t g) < potential g.
Proof.
  intros I Hmv. pose proof I as [Ib If Io Iw In].
  assert (Hbase : forall w r, w = wlock g -> r = rwait g ->
             {| base := step t (base g); wlock := w; rwait := r |} <> g ->
             step t (base g) <> base g).
  { intros w r -> -> H E. apply H. rewrite E. destruct g; reflexivity. }
  assert (Hwork : step t (base g) <> base g ->
                  S (work (threads (step t (base g)))) = work (threads (base g))).
  { intros H. destruct (threads (base g) !! t) as [th|] eqn:Ht.
    - apply (step_work t _ th Ht (Inv_inBody _ _ _ _ Ib Ht) H).
    - exfalso. apply H. unfold step. rewrite Ht. reflexivity. }
  destruct (gstep_cases t g) as
    [(Hi & Hw & E)|[(Hi & Hw & Hr & E)|[E|[(Hi & Hw & E)|
     [(Hi & Hw & Hq & E)|[(Hi & E)|(H1 & H2 & H3 & E)]]]]]];
    [| | congruence | | | |]; rewrite E in *; clear E.
  - destruct (If Hw) as [Hwr _].
    unfold potential, pend. cbn [base wlock rwait]. rewrite Hw, Hwr. lia.
  - destruct (acquire g t I Hi Hw Hr) as (Hwr & Hwr' & Hst).
    pose proof (Hwork Hst) as W.
    unfold potential, pend. cbn [base wlock rwait]. rewrite Hw, Hwr, Hwr'. lia.
  - pose proof (Hwork (Hbase _ _ (eq_sym Hw) eq_refl Hmv)) as W.
    unfold potential, pend. cbn [base wlock rwait]. rewrite Hw. lia.
  - unfold potential, pend. cbn [base wlock rwait]. rewrite length_app. cbn [length]. lia.
  - destruct (nextInstr_Some _ _ _ Hi) as (th & c & rest & Ht & Hc & Hins).
    destruct (body_Unlock c _ Hins) as (f & ws & Hws & Hpc).
    assert (HW : holdsW th = true).
    { apply (holdsW_spec th c rest f ws Hc Hws). lia. }
    pose proof (writer_flag _ _ _ _ Ib Ht HW) as Hwr.
    assert (Hst : step t (base g) <> base g).
    { apply (step_moves t _ th c rest Ht Hc); rewrite Hins; discriminate. }
    pose proof (Hwork Hst) as W.
    assert (Hwr1 : writer (mu (step t (base g))) = false).
    { unfold step. rewrite Ht, Hc, Hins. reflexivity. }
    assert (Hq : forall q, q ∈ rwait g -> nextInstr (step t (base g)) q = Some RLock).
    { intros q Hq. rewrite nextInstr_other; [apply Iw, Hq|].
      intros ->. rewrite (Iw t Hq) in Hi. discriminate. }
    destruct (waiting_readers_enter (rwait g) (step t (base g)) In (step_whole t _ Ib) Hwr1 Hq) as [_ W'].
    unfold potential, pend. cbn [base wlock rwait length].
    destruct (wlock g) as [o|] eqn:Ho.
    + rewrite Hwr. lia.
    + destruct (If eq_refl) as [Hf _]. congruence.
  - pose proof (Hwork (Hbase _ _ eq_refl eq_refl Hmv)) as W.
    pose proof (step_writer t (base g) H1 H3) as Hwr.
    unfold potential, pend. cbn [base wlock rwait]. rewrite Hwr. lia.
Qed.

Lemma gstep_length t g :
  length (threads (base (gstep t g))) = length (threads (base g)).
Proof.
  destruct (gstep_cases t g) as
    [(_ & _ & ->)|[(_ & _ & _ & ->)|[->|[(_ & _ & ->)|
     [(_ & _ & _ & ->)|[(_ & ->)|(_ & _ & _ & ->)]]]]]]; cbn [base];
    rewrite ?run_length, ?step_length; reflexivity.
Qed.

Lemma waiting_bound g :
  GInv g -> (length (rwait g) <= length (threads (base g)))%nat.
Proof.
  intros [_ _ _ Iw In].
  assert (S : rwait g ⊆+ seq 0 (length (threads (base g)))).
  { apply NoDup_submseteq; [exact In|].
    intros q Hq. apply elem_of_seq.
    destruct (nextInstr_Some _ _ _ (Iw q Hq)) as (th & _ & _ & Ht & _).
    apply lookup_lt_Some in Ht. lia. }
  apply submseteq_length in S. rewrite length_seq in S. exact S.
Qed.


Lemma potential_lower g :
  GInv g -> 0 <= potential g + Z.of_nat (length (threads (base g))) + 1.
Proof.
  intros I. pose proof (waiting_bound g I) as B.
  unfold potential, pend. destruct (wlock g); [destruct (writer _)|]; lia.
Qed.

Lemma gcomplete n : forall g,
  GInv g ->
  potential g + Z.of_nat (length (threads (base g))) + 1 < Z.of_nat n ->
  exists more, forall t th,
    threads (base (grun more g)) !! t = Some th -> calls th = [].
Proof.
  induction n as [|n IH]; intros g I B.
  { pose proof (potential_lower g I). lia. }
  destruct (work (threads (base g))) as [|w] eqn:W.
  - exists []. apply (work_zero _ W). intros t th Ht.
    apply (Inv_inBody _ _ _ _ (gi_base g I) Ht).
  - destruct (work_pos (threads (base g))) as (t0 & th0 & H0 & Hne); [lia|].
    destruct (gprogress g t0 th0 I H0 Hne) as (t & Hmv).
    pose proof (gstep_potential t g I Hmv) as D.
    destruct (IH (gstep t g) (gstep_inv t g I)) as (more & Hdone).
    { rewrite gstep_length. lia. }
    exists (t :: more). exact Hdone.
Qed.

Lemma run_program_from l : forall s,
  map programOf (threads (run l s)) = map programOf (threads s).
Proof.
  induction l as [|t l IH]; intros s; [reflexivity|].
  change (run (t :: l) s) with (run l (step t s)).
  rewrite IH. apply step_program.
Qed.

Lemma gstep_program t g :
  map programOf (threads (base (gstep t g))) = map programOf (threads (base g)).
Proof.
  destruct (gstep_cases t g) as
    [(_ & _ & ->)|[(_ & _ & _ & ->)|[->|[(_ & _ & ->)|
     [(_ & _ & _ & ->)|[(_ & ->)|(_ & _ & _ & ->)]]]]]]; cbn [base];
    rewrite ?run_program_from, ?step_program; reflexivity.
Qed.

Lemma grun_program progs sched :
  map programOf (threads (base (grun sched (ginit progs)))) = progs.
Proof.
  induction sched as [|t sched IH] using rev_ind.
  - cbn. rewrite map_map. unfold programOf. cbn. apply map_id.
  - rewrite grun_app. cbn [grun fold_left]. rewrite gstep_program. exact IH.
Qed.

(** Go's lock only removes schedules: what is reached under it is reached
    in the plain model. *)
Lemma grun_base progs sched :
  exists sched', base (grun sched (ginit progs)) = run sched' (init progs).
Proof.
  induction sched as [|t sched (sched' & IH)] using rev_ind.
  - exists []. reflexivity.
  - rewrite grun_app. cbn [grun fold_left].
    destruct (gstep_cases t (grun sched (ginit progs))) as
      [(_ & _ & ->)|[(_ & _ & _ & ->)|[->|[(_ & _ & ->)|
       [(_ & _ & _ & ->)|[(_ & ->)|(_ & _ & _ & ->)]]]]]]; cbn [base].
    + exists sched'. exact IH.
    + exists (sched' ++ [t]). rewrite run_app, <- IH. reflexivity.
    + exists sched'. exact IH.
    + exists (sched' ++ [t]). rewrite run_app, <- IH. reflexivity.
    + exists sched'. exact IH.
    + exists (sched' ++ [t] ++ rwait (grun sched (ginit progs))).
      rewrite !run_app, <- IH. reflexivity.
    + exists (sched' ++ [t]). rewrite run_app, <- IH. reflexivity.
Qed.

(** X5.  The accessors do not deadlock under [sync.RWMutex], a writer that
    waits holding back the readers that come after it: in every state
    reached in which some goroutine still has a call to make, some goroutine
    can take a step that changes the state.  Every body releases the lock it
    took and takes no second one. *)
Theorem no_deadlock (progs : list (list Call)) (sched : list nat) (t0 : nat) (th0 : Thread) :
  threads (base (grun sched (ginit progs))) !! t0 = Some th0 ->
  calls th0 <> [] ->
  exists t, gstep t (grun sched (ginit progs)) <> grun sched (ginit progs).
Proof.
  intros H0 Hne.
  apply (gprogress _ t0 th0 (grun_inv sched _ (ginit_inv progs)) H0 Hne).
Qed.

(** A reader is inside its getter, a writer has called [Lock] and waits for
    it, a second reader has called [RLock] and waits for the writer: neither
    of the two can step, and the first reader can. *)
Lemma no_deadlock_witness :
  gstep 1 (grun lateSched (ginit lateReader)) = grun lateSched (ginit lateReader) /\
  gstep 2 (grun lateSched (ginit lateReader)) = grun lateSched (ginit lateReader) /\
  exists t, gstep t (grun lateSched (ginit lateReader)) <> grun lateSched (ginit lateReader).
Proof.
  split; [reflexivity|]. split; [reflexivity|].
  apply (no_deadlock lateReader lateSched 2 (spawn [CGetGPUIDs])).
  - vm_compute. reflexivity.
  - discriminate.
Defined.

(** X12.  Every call returns, given the chance, under [sync.RWMutex]:
    whatever calls the goroutines make and however they have been scheduled
    so far, the schedule can be continued so that every goroutine has
    returned from all the calls of its program, in order; then nobody has or
    waits for the lock and every field holds a whole value.  No accessor
    keeps the lock or waits for ever. *)
Theorem runs_to_completion (progs : list (list Call)) (sched : list nat) :
  exists more,
    wlock (grun (sched ++ more) (ginit progs)) = None /\
    rwait (grun (sched ++ more) (ginit progs)) = [] /\
    mu (base (grun (sched ++ more) (ginit progs))) =
      {| writer := false; readers := 0%nat |} /\
    (forall f, whole (base (grun (sched ++ more) (ginit progs))) f
                 (mem (base (grun (sched ++ more) (ginit progs))) f)) /\
    length (threads (base (grun (sched ++ more) (ginit progs)))) = length progs /\
    forall t cs, progs !! t = Some cs ->
      exists th, threads (base (grun (sched ++ more) (ginit progs))) !! t = Some th /\
                 calls th = [] /\ pc th = 0%nat /\ returned th = cs.
Proof.
  pose proof (grun_inv sched _ (ginit_inv progs)) as I0.
  destruct (gcomplete
              (S (Z.to_nat (potential (grun sched (ginit progs)) +
                            Z.of_nat (length (threads (base (grun sched (ginit progs))))) + 1)))
              _ I0) as (more & Hdone).
  { pose proof (potential_lower _ I0). lia. }
  exists more. rewrite grun_app.
  pose proof (grun_inv more _ I0) as I.
  pose proof (grun_program progs (sched ++ more)) as Hp. rewrite grun_app in Hp.
  set (g := grun more (grun sched (ginit progs))) in *.
  assert (Hpc : forall t th, threads (base g) !! t = Some th -> pc th = 0%nat).
  { intros t th Ht. pose proof (Inv_inBody _ _ _ _ (gi_base g I) Ht) as B.
    unfold inBody in B. rewrite (Hdone t th Ht) in B. exact B. }
  destruct (idle_free _ _ (gi_base g I) Hpc) as [Hw Hr].
  assert (Hwl : wlock g = None).
  { destruct (wlock g) as [o|] eqn:Ho; [|reflexivity]. exfalso.
    destruct (gi_owner g I o Ho) as (th & Ht & [HW|[Hl _]]).
    - destruct (holds_calls th (or_introl HW)) as (c & rest & Hc).
      rewrite (Hdone o th Ht) in Hc. discriminate.
    - destruct (nextInstr_Some _ _ _ Hl) as (th' & c & rest & Ht' & Hc & _).
      rewrite (Hdone o th' Ht') in Hc. discriminate. }
  split; [exact Hwl|].
  split; [apply (gi_free g I Hwl)|].
  split; [destruct (mu (base g)); simpl in *; congruence|].
  split; [apply (inv_mem _ _ (gi_base g I) Hw)|].
  split; [rewrite <- (length_map programOf (threads (base g))), Hp; reflexivity|].
  intros t cs Hcs. rewrite <- Hp in Hcs.
  change (map programOf (threads (base g))) with (programOf <$> threads (base g)) in Hcs.
  rewrite list_lookup_fmap in Hcs.
  destruct (threads (base g) !! t) as [th|] eqn:Ht; [|discriminate].
  injection Hcs as Hcs. exists th. split; [reflexivity|].
  split; [apply (Hdone t th Ht)|]. split; [apply (Hpc t th Ht)|].
  unfold programOf in Hcs. rewrite (Hdone t th Ht), app_nil_r in Hcs. exact Hcs.
Qed.

(** The second reader does not overtake the writer: scheduled on and on, it
    stays where it is; after the first reader has left and the writer has
    written, it returns what the writer wrote. *)
Example late_reader_waits :
  threads (base (grun (lateSched ++ [2; 2; 2; 2; 2; 2]%nat) (ginit lateReader))) !! 2%nat
  = Some (spawn [CGetGPUIDs]) /\
  rets <$> threads (base (grun (lateSched ++ [0; 0; 0; 0; 0; 1; 1; 1; 1; 1; 1;
                                               2; 2; 2; 2; 2]%nat)
                             (ginit lateReader))) !! 2%nat
  = Some [(FGPUIDs, sliceWords demoHeader)].
Proof. split; reflexivity. Qed.
End GoLock.

Section Together.
Import Concurrent.

(** After the first [k] goroutines took the read lock. *)
Lemma readers_prefix (progs : list (list Call)) :
  Forall startsReading progs ->
  forall k, (k <= length progs)%nat ->
  run (seq 0 k) (init progs) =
  {| mu := {| writer := false; readers := k |};
     mem := zeroWords;
     threads := map advance (take k (map spawn progs)) ++ drop k (map spawn progs) |}.
Proof.
  intros Hall k. induction k as [|k IH]; intros Hk.
  - simpl. rewrite drop_0. reflexivity.
  - rewrite seq_S, run_app, IH by lia. cbn [run fold_left Nat.add].
    destruct (lookup_lt_is_Some_2 (map spawn progs) k) as [th Hth];
      [rewrite length_map; lia|].
    assert (Hcs : exists cs, progs !! k = Some cs /\ th = spawn cs).
    { change (map spawn progs) with (spawn <$> progs) in Hth.
      rewrite list_lookup_fmap in Hth.
      destruct (progs !! k) as [cs|]; [|discriminate]. injection Hth as <-. eauto. }
    destruct Hcs as (cs & Hcs & ->).
    assert (Hr : startsReading cs).
    { rewrite Forall_forall in Hall. apply Hall.
      eapply list_elem_of_lookup_2. exact Hcs. }
    destruct Hr as (c & rest & f & -> & Hr).
    assert (Hlen : length (map advance (take k (map spawn progs))) = k).
    { rewrite length_map, length_take, length_map. lia. }
    assert (Hlook : (map advance (take k (map spawn progs)) ++ drop k (map spawn progs)) !! k
                    = Some (spawn (c :: rest))).
    { rewrite lookup_app_r by lia. rewrite Hlen, Nat.sub_diag, lookup_drop, Nat.add_0_r.
      exact Hth. }
    unfold step. cbn [threads mu mem writer readers]. rewrite Hlook.
    cbn [calls pc spawn].
    destruct (reads_body c f Hr) as [Hb _]. rewrite Hb.
    change (getter f !! 0%nat) with (Some RLock). cbv iota.
    f_equal.
    rewrite insert_app_r_alt by lia. rewrite Hlen, Nat.sub_diag.
    rewrite (drop_S _ _ _ Hth). cbn [insert list_insert].
    rewrite (take_S_r _ _ _ Hth), map_app. cbn [map].
    rewrite <- app_assoc. reflexivity.
Qed.

(** X8.  The getters take the lock shared ([RLock], not [Lock]): any number
    of goroutines that each start with a getter can be inside their getters
    at the same time.  When each takes one step in turn, none waits: all of
    them hold the read lock, and the mutex counts them. *)
Theorem readers_together (progs : list (list Call)) :
  Forall startsReading progs ->
  writer (mu (run (seq 0 (length progs)) (init progs))) = false /\
  readers (mu (run (seq 0 (length progs)) (init progs))) = length progs /\
  forall t th, threads (run (seq 0 (length progs)) (init progs)) !! t = Some th ->
               holdsR th = true.
Proof.
  intros Hall. rewrite (readers_prefix progs Hall (length progs)) by lia.
  cbn [mu writer readers threads]. split; [reflexivity|]. split; [reflexivity|].
  intros t th Ht.
  rewrite drop_ge, app_nil_r in Ht by (rewrite length_map; lia).
  rewrite firstn_all2 in Ht by (rewrite length_map; lia).
  change (map advance (map spawn progs)) with (advance <$> (spawn <$> progs)) in Ht.
  rewrite !list_lookup_fmap in Ht.
  destruct (progs !! t) as [cs|] eqn:Hcs; [|discriminate]. injection Ht as <-.
  assert (Hr : startsReading cs).
  { rewrite Forall_forall in Hall. apply Hall.
    eapply list_elem_of_lookup_2. exact Hcs. }
  destruct Hr as (c & rest & f & -> & Hr).
  apply (holdsR_spec (advance (spawn (c :: rest))) c rest f eq_refl Hr).
  cbn [pc advance spawn]. lia.
Qed.

Lemma readers_together_witness :
  writer (mu (run (seq 0 (length twoReaders)) (init twoReaders))) = false /\
  readers (mu (run (seq 0 (length twoReaders)) (init twoReaders))) = length twoReaders /\
  forall t th,
    threads (run (seq 0 (length twoReaders)) (init twoReaders)) !! t = Some th ->
    holdsR th = true.
Proof.
  apply (readers_together twoReaders).
  repeat constructor.
  - exists CGetGPUIDs, [], FGPUIDs. split; reflexivity.
  - exists CGetDriverVersion, [], FDriverVersion. split; reflexivity.
Defined.
End Together.

Section Solo.
Import Concurrent.

Lemma three (l : list Z) : length l = 3%nat -> exists a b c, l = [a; b; c].
Proof. destruct l as [|a [|b [|c [|]]]]; try discriminate. eauto. Qed.

Lemma two (l : list Z) : length l = 2%nat -> exists a b, l = [a; b].
Proof. destruct l as [|a [|b [|]]]; try discriminate. eauto. Qed.

(** One call, alone: its instructions and its return. *)
Lemma solo_call c m rest out done :
  sized m ->
  exists m',
    run (replicate (S (length (body c))) 0%nat) (soloState m (c :: rest) out done) =
    soloState m' rest
      (match reads c with Some f => out ++ [(f, m f)] | None => out end)
      (done ++ [c]) /\
    sized m' /\
    forall g, m' g = match writes c with
                     | Some (f, ws) => if decide (g = f) then ws else m g
                     | None => m g
                     end.
Proof.
  intros Hm.
  destruct (three _ (Hm FGPUIDs)) as (a1 & a2 & a3 & E1).
  destruct (two _ (Hm FDriverVersion)) as (b1 & b2 & E2).
  destruct (two _ (Hm FNvidiaDockerVersion)) as (c1 & c2 & E3).
  destruct c as [h| |h| |h|].
  - eexists. split; [reflexivity|]. split.
    + intros g; destruct g; cbn; unfold setMem; cbn; rewrite ?E1, ?E2, ?E3; reflexivity.
    + intros g; destruct g; cbn; unfold setMem; cbn; rewrite ?E1; reflexivity.
  - exists m. split; [|split; [exact Hm|reflexivity]].
    cbn. rewrite E1. reflexivity.
  - eexists. split; [reflexivity|]. split.
    + intros g; destruct g; cbn; unfold setMem; cbn; rewrite ?E1, ?E2, ?E3; reflexivity.
    + intros g; destruct g; cbn; unfold setMem; cbn; rewrite ?E2; reflexivity.
  - exists m. split; [|split; [exact Hm|reflexivity]].
    cbn. rewrite E2. reflexivity.
  - eexists. split; [reflexivity|]. split.
    + intros g; destruct g; cbn; unfold setMem; cbn; rewrite ?E1, ?E2, ?E3; reflexivity.
    + intros g; destruct g; cbn; unfold setMem; cbn; rewrite ?E3; reflexivity.
  - exists m. split; [|split; [exact Hm|reflexivity]].
    cbn. rewrite E3. reflexivity.
Qed.

Lemma seqExec_ext cs : forall m m',
  (forall g, m g = m' g) ->
  snd (seqExec cs m) = snd (seqExec cs m') /\
  forall g, fst (seqExec cs m) g = fst (seqExec cs m') g.
Proof.
  induction cs as [|c cs IH]; intros m m' E; [split; [reflexivity|exact E]|].
  simpl. destruct (writes c) as [[f ws]|].
  - apply IH. intros g. destruct (decide (g = f)); [reflexivity|apply E].
  - destruct (reads c) as [f|].
    + specialize (IH m m' E).
      destruct (seqExec cs m) as [a b], (seqExec cs m') as [a' b'].
      simpl in *. destruct IH as [-> H]. rewrite E. split; [reflexivity|exact H].
    + apply IH, E.
Qed.

Lemma solo_run cs : forall m out done,
  sized m ->
  exists m',
    run (replicate (stepsOf cs) 0%nat) (soloState m cs out done) =
    soloState m' [] (out ++ snd (seqExec cs m)) (done ++ cs) /\
    forall g, m' g = fst (seqExec cs m) g.
Proof.
  induction cs as [|c cs IH]; intros m out done Hm.
  - exists m. simpl. rewrite !app_nil_r. split; reflexivity.
  - destruct (solo_call c m cs out done Hm) as (m1 & R1 & Hm1 & E1).
    destruct (IH m1 (match reads c with Some f => out ++ [(f, m f)] | None => out end)
                 (done ++ [c]) Hm1) as (m2 & R2 & E2).
    exists m2.
    change (stepsOf (c :: cs)) with (S (length (body c)) + stepsOf cs)%nat.
    rewrite replicate_add, run_app, R1, R2, <- !app_assoc. simpl.
    destruct (writes c) as [[f ws]|] eqn:W.
    + assert (reads c = None) as -> by (destruct c; simpl in *; congruence).
      destruct (seqExec_ext cs m1 (fun g => if decide (g = f) then ws else m g) E1)
        as [-> E3].
      split; [reflexivity|]. intros g. rewrite E2. apply E3.
    + destruct (seqExec_ext cs m1 m E1) as [-> E3].
      destruct (reads c) as [f|].
      * destruct (seqExec cs m) as [a b]. simpl in *.
        rewrite <- app_assoc. split; [reflexivity|].
        intros g. rewrite E2. apply E3.
      * split; [reflexivity|]. intros g. rewrite E2. apply E3.
Qed.

(** X9.  Without concurrency the locks change nothing.  A goroutine that
    makes any sequence of setter and getter calls alone on a fresh manager
    never waits, and after the steps of its calls it has returned from all of
    them, the lock is free, the fields hold what plain assignments would have
    left and the getters have returned what plain reads would have given. *)
Theorem solo_sequential (cs : list Call) :
  let s := run (replicate (stepsOf cs) 0%nat) (init [cs]) in
  mu s = {| writer := false; readers := 0%nat |} /\
  (forall g, mem s g = fst (seqExec cs zeroWords) g) /\
  threads s = [{| calls := []; pc := 0%nat; regs := [];
                  rets := snd (seqExec cs zeroWords); returned := cs |}].
Proof.
  destruct (solo_run cs zeroWords [] []) as (m' & R & E).
  { intros g. unfold zeroWords. apply length_replicate. }
  change (init [cs]) with (soloState zeroWords cs [] []).
  simpl. rewrite R. simpl. auto.
Qed.
End Solo.

Section Publish.
Import Concurrent.

(** X10.  The three setter calls at the end of [Initialize] are three
    critical sections, not one.  For every snapshot there is a schedule in
    which a goroutine that reads the three fields gets the new driver
    version together with the GPU IDs and the runtime version from before
    the call; a goroutine that reads after the three setters have returned
    gets the three new values. *)
Theorem publish_not_atomic (d r : StringHeader) (g : SliceHeader) :
  (exists sched,
     rets <$> threads (run sched (init [publish d g r; observe])) !! 1%nat =
     Some [(FDriverVersion, stringWords d);
           (FGPUIDs, zeroWords FGPUIDs);
           (FNvidiaDockerVersion, zeroWords FNvidiaDockerVersion)]) /\
  rets <$> threads (run (replicate (stepsOf (publish d g r)) 0%nat ++
                         replicate (stepsOf observe) 1%nat)
                        (init [publish d g r; observe])) !! 1%nat =
  Some [(FDriverVersion, stringWords d);
        (FGPUIDs, sliceWords g);
        (FNvidiaDockerVersion, stringWords r)].
Proof.
  split.
  - exists (replicate 5 0%nat ++ replicate (stepsOf observe) 1%nat). reflexivity.
  - reflexivity.
Qed.
End Publish.
